(** * Account admission and resilience control: pacing guard, account rate
      limiter and 403 circuit breaker

    A shallow embedding of the relay's three admission mechanisms and the
    properties their specification states about them.

    Sources embedded here:
    - [src/utils/ipHelper.js], second document: the request interval guard
      (class [SameSecondRequestGuard] with key prefix
      [request_interval_guard:]), module [RequestIntervalGuard];
    - [src/utils/sameSecondRequestGuard.js], first document: the older
      same-second guard (key prefix [same_second_guard:]), module
      [SameSecondGuard]; second document: [AccountRateLimitService], module
      [RateLimit];
    - the source file of the 403 circuit breaker service (class
      [Error403CircuitBreakerService]), module [Breaker], and its
      auto-recovery sweep, module [AutoRecovery];
    - [src/utils/ipHelper.js], first document: the IP helper, module
      [IpHelper]; the source file of the IP whitelist middleware, module
      [IpWhitelist].

    The store client itself ([models/redis.js]) is not among the sources:
    its calls are the commands of the store ([GET], [SETEX], [EVAL],
    [HGETALL], ...), an oracle ([redis.acquireAccountRateLimit]) or, for the
    rolling window of 403 failures, a model after the specification.

    Conventions.  JavaScript numbers that the code only ever uses as integer
    milliseconds are [Z]; a number that may be [NaN] (the result of
    [parseInt] on a hash field) is a [num].  [Date.now()] reads the [clock]
    of the world; synchronous code takes no time, and time passes at [await]
    points only: every awaited call adds the next value of a latency oracle
    to the clock, and [sleep ms] adds the timer delay on top of it.  The
    circuit breaker never sleeps, and one call of it is taken at one
    instant. *)

From Stdlib Require Import ZArith QArith Qround Qminmax Lia.
From Stdlib Require Import Ascii String DecimalString DecimalZ SpecFloat.
From stdpp Require Import base option list gmap strings.

Local Open Scope string_scope.
Local Open Scope Z_scope.

(** ** JavaScript and Lua values *)

(** A JavaScript number that is an integer or [NaN].  The arithmetic on
    integers is exact, which is the arithmetic of JavaScript as long as the
    values stay among the safe integers (up to [MAX_SAFE_INTEGER] in
    absolute value), as the instants and the durations in milliseconds
    do. *)
Inductive num : Type :=
| NaN : num
| Num : Z -> num.

Definition num_add (a b : num) : num :=
  match a, b with
  | Num x, Num y => Num (x + y)
  | _, _ => NaN
  end.

Definition num_sub (a b : num) : num :=
  match a, b with
  | Num x, Num y => Num (x - y)
  | _, _ => NaN
  end.

Definition num_mul (a b : num) : num :=
  match a, b with
  | Num x, Num y => Num (x * y)
  | _, _ => NaN
  end.

(** [a >= b]: every comparison with [NaN] is false. *)
Definition num_geb (a b : num) : bool :=
  match a, b with
  | Num x, Num y => y <=? x
  | _, _ => false
  end.

(** [Math.max(a, b)]: [NaN] as soon as one argument is. *)
Definition Math_max (a b : num) : num :=
  match a, b with
  | Num x, Num y => Num (Z.max x y)
  | _, _ => NaN
  end.

Definition MAX_SAFE_INTEGER : Z := 9007199254740991.

(** [Number.isSafeInteger]. *)
Definition isSafeInteger (z : Z) : bool := Z.abs z <=? MAX_SAFE_INTEGER.

(** [n.toString()] for a safe integer: its decimal digits.  (Beyond the
    safe integers a number of JavaScript is rounded, and from [1e21] on it
    is written with an exponent; every value of [Date.now()] is a safe
    integer.) *)
Definition toString (z : Z) : string :=
  NilZero.string_of_int (Z.to_int z).

Definition num_toString (a : num) : string :=
  match a with
  | Num z => toString z
  | NaN => "NaN"
  end.

(** Lua's [tonumber] on the strings the scripts meet, which are decimal
    integers written by [toString]; any other string is [nil] here (and the
    arithmetic that follows raises a script error, as it does in Lua).  The
    other numerals of Lua (with a fraction, an exponent or in hexadecimal,
    or with white space around) are never written to the keys of the
    guard. *)
Definition tonumber (s : string) : option Z :=
  Z.of_int <$> NilZero.int_of_string s.

(** *** [parseInt]

    Leading white space is skipped, an optional sign is read, a [0x] or [0X]
    prefix selects radix 16, and the longest prefix of digits is converted;
    no digit at all gives [NaN].  Strings are their UTF-8 bytes, and the
    digits are converted exactly (the number of JavaScript is the nearest
    double, which is the same number up to [MAX_SAFE_INTEGER]). *)

Fixpoint stripBytes (bytes : list nat) (s : string) : option string :=
  match bytes with
  | [] => Some s
  | b :: bytes' =>
      match s with
      | String c s' =>
          if (nat_of_ascii c =? b)%nat then stripBytes bytes' s' else None
      | EmptyString => None
      end
  end.

Fixpoint stripAny (chars : list (list nat)) (s : string) : option string :=
  match chars with
  | bytes :: rest =>
      match stripBytes bytes s with
      | Some s' => Some s'
      | None => stripAny rest s
      end
  | [] => None
  end.

(** The white space and line terminator characters ([StrWhiteSpaceChar]):
    TAB, LF, VT, FF, CR, SP, U+00A0, U+1680, U+2000 to U+200A, U+2028,
    U+2029, U+202F, U+205F, U+3000 and U+FEFF. *)
Definition whiteSpaceChars : list (list nat) :=
  [ [9]; [10]; [11]; [12]; [13]; [32]; [194; 160]; [225; 154; 128];
    [226; 128; 128]; [226; 128; 129]; [226; 128; 130]; [226; 128; 131];
    [226; 128; 132]; [226; 128; 133]; [226; 128; 134]; [226; 128; 135];
    [226; 128; 136]; [226; 128; 137]; [226; 128; 138];
    [226; 128; 168]; [226; 128; 169]; [226; 128; 175]; [226; 129; 159];
    [227; 128; 128]; [239; 187; 191] ]%nat.

Fixpoint trimStartWith (chars : list (list nat)) (fuel : nat) (s : string)
  : string :=
  match fuel with
  | S fuel' =>
      match stripAny chars s with
      | Some s' => trimStartWith chars fuel' s'
      | None => s
      end
  | O => s
  end.

(** The leading white space of [s] removed. *)
Definition skipWhiteSpace (s : string) : string :=
  trimStartWith whiteSpaceChars (String.length s) s.

Definition digitValue (radix : Z) (a : ascii) : option Z :=
  let n := Z.of_nat (nat_of_ascii a) in
  let v :=
    if (48 <=? n) && (n <=? 57) then Some (n - 48)
    else if (97 <=? n) && (n <=? 122) then Some (n - 87)
    else if (65 <=? n) && (n <=? 90) then Some (n - 55)
    else None in
  match v with
  | Some d => if d <? radix then Some d else None
  | None => None
  end.

Fixpoint parseDigits (radix : Z) (s : string) (acc : option Z) : option Z :=
  match s with
  | String a s' =>
      match digitValue radix a with
      | Some d => parseDigits radix s' (Some (radix * default 0 acc + d))
      | None => acc
      end
  | EmptyString => acc
  end.

Definition parseInt (s : string) : num :=
  let s1 := skipWhiteSpace s in
  let '(negative, s2) :=
    match s1 with
    | String "-" r => (true, r)
    | String "+" r => (false, r)
    | _ => (false, s1)
    end in
  let '(radix, s3) :=
    match s2 with
    | String "0" (String "x" r) => (16, r)
    | String "0" (String "X" r) => (16, r)
    | _ => (10, s2)
    end in
  match parseDigits radix s3 None with
  | Some v => Num (if negative then - v else v)
  | None => NaN
  end.

(** ** Observable events

    What a call does to the outside, in order: the calls it makes on the
    shared store, its accesses to the process-local memory cache, and the
    timers it sleeps on. *)
Inductive event : Type :=
| EvEval (key : string) (argv : list string)
    (** [client.eval(luaScript, ...)]: one atomic check-and-mutate script *)
| EvGet (key : string)
    (** a plain [client.get] *)
| EvSetex (key : string) (ttl : Z) (value : string)
    (** a plain, unconditional [client.setex] *)
| EvAcquire (attempt : nat)
    (** [redis.acquireAccountRateLimit]: one atomic sliding-window attempt *)
| EvMemGet (key : string)
    (** [MEMORY_CACHE.get] *)
| EvMemSet (key : string) (value : Z)
    (** [MEMORY_CACHE.set] *)
| EvSleep (ms : Z)
    (** [sleep(ms)]: the delay the timer is armed with *)
.

Definition isSleep (ev : event) : bool :=
  match ev with EvSleep _ => true | _ => false end.

Definition isPlainWrite (ev : event) : bool :=
  match ev with EvSetex _ _ _ => true | _ => false end.


(** The delay a timer really waits for: [setTimeout] truncates a fractional
    delay, and replaces a delay below one millisecond or above [TIMEOUT_MAX]
    by one millisecond. *)
Definition TIMEOUT_MAX : Z := 2147483647.

Definition timerDelay (ms : Z) : Z :=
  if (1 <=? ms) && (ms <=? TIMEOUT_MAX) then ms else 1.

(** Total of the delays slept in a trace. *)
Fixpoint sleptMs (t : list event) : Z :=
  match t with
  | EvSleep ms :: t' => timerDelay ms + sleptMs t'
  | _ :: t' => sleptMs t'
  | [] => 0
  end.

(** What the process sees of the shared store when it asks for the client. *)
Inductive clientStatus : Type :=
| ClientReady      (** [redis.getClient()] returns a client *)
| ClientMissing    (** it returns [null] *)
| ClientThrows     (** it throws *)
.

(** The string store with expiry: a key maps to its value and to the instant
    (milliseconds) at which it expires. *)
Abbreviation kvstore := (gmap string (string * Z)).

(** [GET key] at instant [t]. *)
Definition kv_get (kv : kvstore) (t : Z) (key : string) : option string :=
  match kv !! key with
  | Some (v, expiry) => if t <? expiry then Some v else None
  | None => None
  end.

(** [SETEX key ttl value] at instant [t]. *)
Definition kv_setex (kv : kvstore) (t : Z) (key : string) (ttl : Z) (v : string)
  : kvstore :=
  <[key := (v, t + ttl * 1000)]> kv.

(** ** The request interval guard ([ipHelper.js], second document) *)

Module RequestIntervalGuard.

(** What the environment decides: whether the store client is there, how
    long each awaited call takes, and which awaited store calls throw.  The
    oracles are indexed by the number of await points passed so far. *)
Record env : Type := {
  getClient : clientStatus;
  lag : nat -> Z;
  fault : nat -> bool
}.

Record world : Type := {
  clock : Z;                       (* Date.now() *)
  awaits : nat;                    (* await points passed *)
  store : kvstore;                 (* the shared store *)
  MEMORY_CACHE : gmap string Z;    (* this.MEMORY_CACHE *)
  trace : list event
}.

Record result : Type := { allowed : bool; waitedMs : Z }.

Definition REDIS_KEY_PREFIX : string := "request_interval_guard:".

Definition getRedisKey (accountId accountType : string) : string :=
  REDIS_KEY_PREFIX +:+ accountType +:+ ":" +:+ accountId.

Definition emit (ev : event) (w : world) : world :=
  {| clock := clock w; awaits := awaits w; store := store w;
     MEMORY_CACHE := MEMORY_CACHE w; trace := trace w ++ [ev] |}.

(** The end of an awaited call: its latency has passed. *)
Definition tick (e : env) (w : world) : world :=
  {| clock := clock w + lag e (awaits w); awaits := S (awaits w);
     store := store w; MEMORY_CACHE := MEMORY_CACHE w; trace := trace w |}.

Definition setStore (kv : kvstore) (w : world) : world :=
  {| clock := clock w; awaits := awaits w; store := kv;
     MEMORY_CACHE := MEMORY_CACHE w; trace := trace w |}.

Definition memGet (key : string) (w : world) : option Z * world :=
  (MEMORY_CACHE w !! key, emit (EvMemGet key) w).

Definition memSet (key : string) (v : Z) (w : world) : world :=
  emit (EvMemSet key v)
    {| clock := clock w; awaits := awaits w; store := store w;
       MEMORY_CACHE := <[key := v]> (MEMORY_CACHE w); trace := trace w |}.

(** [await this.sleep(ms)]. *)
Definition sleep (e : env) (ms : Z) (w : world) : world :=
  let w1 := emit (EvSleep ms) w in
  tick e {| clock := clock w1 + timerDelay ms; awaits := awaits w1;
            store := store w1; MEMORY_CACHE := MEMORY_CACHE w1;
            trace := trace w1 |}.

(** The Lua script of [_checkAndWaitWithRedis], run by the store at its
    instant [t] as one indivisible step.  It answers [{waitMs, canExecute}];
    [None] is a script error. *)
Definition luaScript (kv : kvstore) (t : Z) (KEYS ARGV : list string)
  : option (Z * Z) * kvstore :=
  match KEYS, ARGV with
  | [key], [a1; a2; a3] =>
      match tonumber a1, tonumber a2, tonumber a3 with
      | Some currentTimeMs, Some minIntervalMs, Some ttl =>
          let accept :=
            (Some (0, 1), kv_setex kv t key ttl (toString currentTimeMs)) in
          match kv_get kv t key with
          | Some lastTimeStr =>
              match tonumber lastTimeStr with
              | Some lastTimeMs =>
                  let elapsedMs := currentTimeMs - lastTimeMs in
                  if 0 <? minIntervalMs then
                    if elapsedMs <? minIntervalMs
                    then (Some (minIntervalMs - elapsedMs, 0), kv)
                    else accept
                  else
                    let currentSecond := currentTimeMs / 1000 in
                    let lastSecond := lastTimeMs / 1000 in
                    if currentSecond =? lastSecond
                    then (Some (1000 - currentTimeMs mod 1000, 0), kv)
                    else accept
              | None => (None, kv)
              end
          | None => accept
          end
      | _, _, _ => (None, kv)
      end
  | _, _ => (None, kv)
  end.

(** [await client.eval(luaScript, {keys, arguments})]. *)
Definition clientEval (e : env) (key : string) (argv : list string) (w : world)
  : option (Z * Z) * world :=
  let w1 := emit (EvEval key argv) w in
  if fault e (awaits w1) then (None, tick e w1)
  else
    let '(reply, kv) := luaScript (store w1) (clock w1) [key] argv in
    (reply, tick e (setStore kv w1)).

(** [await client.setex(key, ttl, value)]; [false] when it throws. *)
Definition clientSetex (e : env) (key : string) (ttl : Z) (v : string) (w : world)
  : bool * world :=
  let w1 := emit (EvSetex key ttl v) w in
  if fault e (awaits w1) then (false, tick e w1)
  else (true, tick e (setStore (kv_setex (store w1) (clock w1) key ttl v) w1)).

(** The [waitMs] that [_checkAndWaitWithMemory] computes from the cached
    timestamp.  [if (lastTimeMs)] is false for a missing entry and for the
    number [0]; [%] is JavaScript's remainder. *)
Definition memoryWaitMs (minIntervalMs currentTimeMs : Z) (lastTimeMs : option Z)
  : Z :=
  match lastTimeMs with
  | Some last =>
      if last =? 0 then 0
      else
        let elapsedMs := currentTimeMs - last in
        if 0 <? minIntervalMs then
          if elapsedMs <? minIntervalMs then minIntervalMs - elapsedMs else 0
        else
          let currentSecond := currentTimeMs / 1000 in
          let lastSecond := last / 1000 in
          if currentSecond =? lastSecond
          then 1000 - Z.rem currentTimeMs 1000
          else 0
  | None => 0
  end.

(** The degraded path on the memory cache. *)
Definition _checkAndWaitWithMemory (e : env) (redisKey : string)
    (maxWaitMs minIntervalMs startTime : Z) (w : world) : result * world :=
  let currentTimeMs := clock w in
  let '(lastTimeMs, w1) := memGet redisKey w in
  let waitMs := memoryWaitMs minIntervalMs currentTimeMs lastTimeMs in
  if waitMs =? 0 then
    ({| allowed := true; waitedMs := 0 |}, memSet redisKey currentTimeMs w1)
  else if maxWaitMs <? waitMs then
    ({| allowed := false; waitedMs := 0 |}, w1)
  else
    let w2 := sleep e waitMs w1 in
    let actualWaitedMs := clock w2 - startTime in
    ({| allowed := true; waitedMs := actualWaitedMs |},
     memSet redisKey (clock w2) w2).

(** The store-backed path. *)
Definition _checkAndWaitWithRedis (e : env) (redisKey : string)
    (maxWaitMs minIntervalMs startTime : Z) (w : world) : result * world :=
  let currentTimeMs := clock w in
  let ttlSeconds := 5 in
  let argv :=
    [toString currentTimeMs; toString minIntervalMs; toString ttlSeconds] in
  match clientEval e redisKey argv w with
  | (Some (waitMs, canExecute), w1) =>
      if canExecute =? 1 then
        ({| allowed := true; waitedMs := 0 |}, memSet redisKey currentTimeMs w1)
      else if maxWaitMs <? waitMs then
        ({| allowed := false; waitedMs := 0 |}, w1)
      else
        let w2 := sleep e waitMs w1 in
        let actualWaitedMs := clock w2 - startTime in
        let newTimeMs := clock w2 in
        let '(_, w3) := clientSetex e redisKey ttlSeconds (toString newTimeMs) w2 in
        ({| allowed := true; waitedMs := actualWaitedMs |},
         memSet redisKey newTimeMs w3)
  | (None, w1) =>
      _checkAndWaitWithMemory e redisKey maxWaitMs minIntervalMs startTime w1
  end.

Definition checkAndWait (e : env) (accountId accountType : string)
    (maxWaitMs minIntervalMs : Z) (w : world) : result * world :=
  let startTime := clock w in
  let redisKey := getRedisKey accountId accountType in
  match getClient e with
  | ClientReady =>
      _checkAndWaitWithRedis e redisKey maxWaitMs minIntervalMs startTime w
  | ClientMissing | ClientThrows =>
      _checkAndWaitWithMemory e redisKey maxWaitMs minIntervalMs startTime w
  end.

(** [recordRequest]: stamps the current time without any gating. *)
Definition recordRequest (e : env) (accountId accountType : string) (w : world)
  : world :=
  let currentTimeMs := clock w in
  let redisKey := getRedisKey accountId accountType in
  match getClient e with
  | ClientReady =>
      let '(_, w1) := clientSetex e redisKey 5 (toString currentTimeMs) w in
      memSet redisKey currentTimeMs w1
  | ClientMissing | ClientThrows => memSet redisKey currentTimeMs w
  end.

(** [cleanupMemoryCache]: the keys of the entries older than ten seconds
    are collected, then deleted one by one. *)
Definition cleanupMemoryCache (w : world) : world :=
  let currentTimeMs := clock w in
  let maxAge := 10000 in
  let keysToDelete :=
    (List.filter (fun entry => maxAge <? currentTimeMs - entry.2)
                 (map_to_list (MEMORY_CACHE w))).*1 in
  {| clock := clock w; awaits := awaits w; store := store w;
     MEMORY_CACHE := foldl (fun cache key => delete key cache)
                           (MEMORY_CACHE w) keysToDelete;
     trace := trace w |}.

(** *** Views used to state the properties (not functions of the source) *)

(** The arguments [checkAndWait] hands to the script. *)
Definition scriptArgs (minIntervalMs : Z) (w : world) : list string :=
  [toString (clock w); toString minIntervalMs; toString 5].

(** The timestamp a call of [checkAndWait] finds for [key]: the one in the
    store when the client is there, the one in the memory cache
    otherwise. *)
Definition priorTimestamp (e : env) (w : world) (key : string) : option Z :=
  match getClient e with
  | ClientReady => kv_get (store w) (clock w) key ≫= tonumber
  | ClientMissing | ClientThrows => MEMORY_CACHE w !! key
  end.

(** [now] is the timestamp on record for [key] in [w], for the same path. *)
Definition recorded (e : env) (w : world) (key : string) (now : Z) : Prop :=
  match getClient e with
  | ClientReady => store w !! key = Some (toString now, now + 5 * 1000)
  | ClientMissing | ClientThrows => MEMORY_CACHE w !! key = Some now
  end.

(** The required wait that a call of [checkAndWait] computes: the [waitMs]
    the script answers or, when there is no client or the script call
    fails, the [waitMs] of the memory path at the instant it runs. *)
Definition computedWait (e : env) (minIntervalMs : Z) (w : world) (key : string)
  : Z :=
  match getClient e with
  | ClientReady =>
      let reply :=
        if fault e (awaits w) then None
        else (luaScript (store w) (clock w) [key] (scriptArgs minIntervalMs w)).1 in
      match reply with
      | Some (waitMs, _) => waitMs
      | None =>
          memoryWaitMs minIntervalMs (clock w + lag e (awaits w))
                       (MEMORY_CACHE w !! key)
      end
  | ClientMissing | ClientThrows =>
      memoryWaitMs minIntervalMs (clock w) (MEMORY_CACHE w !! key)
  end.

(** The gap that the guard promises between the timestamps of two admitted
    requests: another second in same-second mode, [minIntervalMs] in spacing
    mode. *)
Definition spaced (minIntervalMs last now : Z) : Prop :=
  if minIntervalMs =? 0 then last / 1000 < now / 1000
  else last + minIntervalMs <= now.

(** [w'] is [w] but for entries of the memory cache that are more than ten
    seconds old in [w] and missing in [w']. *)
Definition agreeUpToStale (w w' : world) : Prop :=
  clock w' = clock w /\ awaits w' = awaits w /\ store w' = store w /\
  trace w' = trace w /\
  forall key,
    MEMORY_CACHE w' !! key = MEMORY_CACHE w !! key \/
    MEMORY_CACHE w' !! key = None /\
    exists timestamp,
      MEMORY_CACHE w !! key = Some timestamp /\ 10000 < clock w - timestamp.

End RequestIntervalGuard.

(** ** The older same-second guard ([sameSecondRequestGuard.js], first
       document)

    It keeps whole seconds, and its store-backed path is a plain [GET]
    followed by a plain [SETEX]. *)

Module SameSecondGuard.

Import RequestIntervalGuard.

Definition REDIS_KEY_PREFIX : string := "same_second_guard:".

Definition getRedisKey (accountId accountType : string) : string :=
  REDIS_KEY_PREFIX +:+ accountType +:+ ":" +:+ accountId.

(** [Math.floor(Date.now() / 1000)]. *)
Definition getCurrentSecond (w : world) : Z := clock w / 1000.

(** [await client.get(key)]; the outer [None] is a throw. *)
Definition clientGet (e : env) (key : string) (w : world)
  : option (option string) * world :=
  let w1 := emit (EvGet key) w in
  if fault e (awaits w1) then (None, tick e w1)
  else (Some (kv_get (store w1) (clock w1) key), tick e w1).

Definition checkAndWaitWithMemory (e : env) (accountId accountType : string)
    (maxWaitMs startTime : Z) (w : world) : result * world :=
  let currentSecond := getCurrentSecond w in
  let redisKey := getRedisKey accountId accountType in
  let '(lastRequestSecond, w1) := memGet redisKey w in
  let sameSecond :=
    match lastRequestSecond with
    | Some last => negb (last =? 0) && (last =? currentSecond)
    | None => false
    end in
  if sameSecond then
    let waitMs := 1000 - Z.rem (clock w1) 1000 in
    if maxWaitMs <? waitMs then ({| allowed := false; waitedMs := 0 |}, w1)
    else
      let w2 := sleep e waitMs w1 in
      let actualWaitedMs := clock w2 - startTime in
      let newSecond := getCurrentSecond w2 in
      ({| allowed := true; waitedMs := actualWaitedMs |},
       memSet redisKey newSecond w2)
  else
    ({| allowed := true; waitedMs := 0 |}, memSet redisKey currentSecond w1).

Definition checkAndWait (e : env) (accountId accountType : string)
    (maxWaitMs : Z) (w : world) : result * world :=
  let startTime := clock w in
  let currentSecond := getCurrentSecond w in
  let redisKey := getRedisKey accountId accountType in
  let fallback := checkAndWaitWithMemory e accountId accountType maxWaitMs startTime in
  match getClient e with
  | ClientReady =>
      match clientGet e redisKey w with
      | (Some lastRequestSecond, w1) =>
          let sameSecond :=
            match lastRequestSecond with
            | Some s =>
                negb (String.eqb s EmptyString) &&
                match parseInt s with
                | Num last => last =? currentSecond
                | NaN => false
                end
            | None => false
            end in
          if sameSecond then
            let waitMs := 1000 - Z.rem (clock w1) 1000 in
            if maxWaitMs <? waitMs then
              ({| allowed := false; waitedMs := 0 |}, w1)
            else
              let w2 := sleep e waitMs w1 in
              let actualWaitedMs := clock w2 - startTime in
              let newSecond := getCurrentSecond w2 in
              match clientSetex e redisKey 2 (toString newSecond) w2 with
              | (true, w3) =>
                  ({| allowed := true; waitedMs := actualWaitedMs |},
                   memSet redisKey newSecond w3)
              | (false, w3) => fallback w3
              end
          else
            match clientSetex e redisKey 2 (toString currentSecond) w1 with
            | (true, w2) =>
                ({| allowed := true; waitedMs := 0 |},
                 memSet redisKey currentSecond w2)
            | (false, w2) => fallback w2
            end
      | (None, w1) => fallback w1
      end
  | ClientMissing | ClientThrows => fallback w
  end.

(** [cleanupMemoryCache]: the entries more than five seconds old go. *)
Definition cleanupMemoryCache (w : world) : world :=
  let currentSecond := getCurrentSecond w in
  let keysToDelete :=
    (List.filter (fun entry => 5 <? currentSecond - entry.2)
                 (map_to_list (MEMORY_CACHE w))).*1 in
  {| clock := clock w; awaits := awaits w; store := store w;
     MEMORY_CACHE := foldl (fun cache key => delete key cache)
                           (MEMORY_CACHE w) keysToDelete;
     trace := trace w |}.

End SameSecondGuard.

(** ** The account registry

    Account records are hashes of the shared store under the key
    [<accountType>:<accountId>]; both services look an account up by trying
    the account types in a fixed order.  A hash without fields does not exist
    in the store, so a missing key reads as the empty hash. *)

Module Registry.

Abbreviation hash := (gmap string string).

Record state : Type := {
  hashes : gmap string (gmap string string);
  calls : nat                      (* store calls made so far *)
}.

Definition accountTypes : list string :=
  [ "claude_account"; "claude_console_account"; "gemini_account";
    "bedrock_account"; "azure_openai_account"; "droid_account";
    "ccr_account"; "openai_responses_account" ].

Definition accountKey (accountType accountId : string) : string :=
  accountType +:+ ":" +:+ accountId.

Definition readHash (s : state) (key : string) : hash :=
  default ∅ (hashes s !! key).

Definition writeHash (key : string) (h : hash) (s : state) : state :=
  {| hashes := if decide (h = ∅) then delete key (hashes s)
               else <[key := h]> (hashes s);
     calls := calls s |}.

Definition called (s : state) : state :=
  {| hashes := hashes s; calls := S (calls s) |}.

(** The calls the services make on the store. *)
Inductive storeOp : Type :=
| OpHgetall | OpExists | OpHdel | OpHmset
| OpRecord403 | OpCount403 | OpClear403.

Section Client.

(** [fault n op]: the [n]-th call on the store throws (and changes nothing)
    when it is an [op]. *)
Variable fault : nat -> storeOp -> bool.

(** The outer [None] of each result is a throw. *)

Definition hgetall (key : string) (s : state) : option hash * state :=
  if fault (calls s) OpHgetall then (None, called s)
  else (Some (readHash s key), called s).

Definition exists_ (key : string) (s : state) : option bool * state :=
  if fault (calls s) OpExists then (None, called s)
  else (Some (bool_decide (readHash s key ≠ ∅)), called s).

Definition hdel (key field : string) (s : state) : option unit * state :=
  if fault (calls s) OpHdel then (None, called s)
  else (Some tt, called (writeHash key (delete field (readHash s key)) s)).

Definition hmset (key : string) (fields : list (string * string)) (s : state)
  : option unit * state :=
  if fault (calls s) OpHmset then (None, called s)
  else
    (Some tt,
     called (writeHash key
               (foldl (fun h kv => <[kv.1 := kv.2]> h) (readHash s key) fields)
               s)).

(** The loop of [_getAccountData] over the account types that are left:
    a throw of [hgetall] is swallowed and the next type is tried. *)
Fixpoint getAccountDataFrom (types : list string) (accountId : string)
    (s : state) : option hash * state :=
  match types with
  | accountType :: rest =>
      match hgetall (accountKey accountType accountId) s with
      | (Some accountData, s1) =>
          if bool_decide (accountData ≠ ∅) then (Some accountData, s1)
          else getAccountDataFrom rest accountId s1
      | (None, s1) => getAccountDataFrom rest accountId s1
      end
  | [] => (None, s)
  end.

Definition _getAccountData (accountId : string) (s : state)
  : option hash * state :=
  getAccountDataFrom accountTypes accountId s.

End Client.

(** *** Views used to state the properties (not functions of the source) *)

(** The first account type under which the account has a record, with that
    record: what [_getAccountData] finds when no call throws. *)
Fixpoint locate (types : list string) (accountId : string)
    (hs : gmap string (gmap string string)) : option (string * hash) :=
  match types with
  | accountType :: rest =>
      let h := default ∅ (hs !! accountKey accountType accountId) in
      if bool_decide (h ≠ ∅) then Some (accountType, h)
      else locate rest accountId hs
  | [] => None
  end.

(** The record of the account, and one field of it. *)
Definition accountRecord (s : state) (accountId : string) : option hash :=
  snd <$> locate accountTypes accountId (hashes s).

Definition accountField (s : state) (accountId field : string) : option string :=
  accountRecord s accountId ≫= (fun h => h !! field).

(** A hash after the updates of [_updateAccountBreakerState]: the fields
    with a [null] value are deleted, the others are set. *)
Fixpoint deleted (updates : list (string * option string)) (h : hash) : hash :=
  match updates with
  | (field, None) :: rest => deleted rest (delete field h)
  | (_, Some _) :: rest => deleted rest h
  | [] => h
  end.

Fixpoint assigned (updates : list (string * option string))
  : list (string * string) :=
  match updates with
  | (field, Some value) :: rest => (field, value) :: assigned rest
  | (_, None) :: rest => assigned rest
  | [] => []
  end.

Definition updated (updates : list (string * option string)) (h : hash) : hash :=
  foldl (fun h kv => <[kv.1 := kv.2]> h) (deleted updates h) (assigned updates).

(** From [s] to [s'] only records of the account may have changed. *)
Definition onlyAccount (accountId : string) (s s' : state) : Prop :=
  forall key,
    (forall t, t ∈ accountTypes -> key <> accountKey t accountId) ->
    hashes s' !! key = hashes s !! key.

End Registry.

(** ** The account rate limiter ([sameSecondRequestGuard.js], second
       document) *)

Module RateLimit.

Record config : Type := {
  enabled : bool;
  windowSeconds : num;
  maxRequests : num;
  queueTimeoutMs : Z;
  enableQueueing : bool
}.

(** What [redis.acquireAccountRateLimit] answers. *)
Record reply : Type := {
  acquired : bool;
  currentCount : Z;
  oldestRequestTime : option Z     (* [None] is [null] *)
}.

Inductive storeReply : Type :=
| StoreThrows
| StoreReplies (r : reply).

(** The environment of one call: the global configuration that
    [getConfig()] resolves, the answers of the store to the successive
    attempts, the latency of each awaited call, the successive values of
    [Math.random()], the faults of the registry reads and the identifier
    that [uuidv4()] makes. *)
Record env : Type := {
  getConfig : config;
  replies : nat -> storeReply;
  lag : nat -> Z;
  random : nat -> Q;
  fault : nat -> Registry.storeOp -> bool;
  uuidv4 : string
}.

Record world : Type := {
  clock : Z;                       (* Date.now() *)
  awaits : nat;                    (* await points passed since startTime *)
  attempts : nat;                  (* attempts made on the store *)
  reg : Registry.state;
  trace : list event
}.

Record result : Type := {
  r_acquired : bool;
  r_requestId : string;
  r_error : option string;
  r_waitedMs : option Z;
  r_skipped : bool
}.

Definition POLL_INTERVAL_BASE_MS : Q := 50.
Definition POLL_INTERVAL_MAX_MS : Q := 500.
Definition POLL_BACKOFF_FACTOR : Q := 3 # 2.

Definition emit (ev : event) (w : world) : world :=
  {| clock := clock w; awaits := awaits w; attempts := attempts w;
     reg := reg w; trace := trace w ++ [ev] |}.

Definition tick (e : env) (w : world) : world :=
  {| clock := clock w + lag e (awaits w); awaits := S (awaits w);
     attempts := attempts w; reg := reg w; trace := trace w |}.

(** [await this._sleep(ms)]. *)
Definition _sleep (e : env) (ms : Z) (w : world) : world :=
  let w1 := emit (EvSleep ms) w in
  tick e {| clock := clock w1 + timerDelay ms; awaits := awaits w1;
            attempts := attempts w1; reg := reg w1; trace := trace w1 |}.

(** [await redis.acquireAccountRateLimit(...)]. *)
Definition acquireAccountRateLimit (e : env) (w : world) : storeReply * world :=
  let w1 := emit (EvAcquire (attempts w)) w in
  (replies e (attempts w),
   tick e {| clock := clock w1; awaits := awaits w1; attempts := S (attempts w1);
             reg := reg w1; trace := trace w1 |}).

(** The jittered, exponentially growing poll interval, in exact
    arithmetic. *)
Definition pollInterval (retryCount : nat) (rnd : Q) : Q :=
  let basePollInterval :=
    Qmin (POLL_INTERVAL_BASE_MS * Qpower POLL_BACKOFF_FACTOR (Z.of_nat retryCount))
         POLL_INTERVAL_MAX_MS in
  let jitter := (basePollInterval * ((85 # 100) + rnd * (3 # 10)))%Q in
  Qmin jitter POLL_INTERVAL_MAX_MS.

(** [getAccountConfig]: the account record overrides [enabled],
    [windowSeconds] and [maxRequests]. *)
Definition getAccountConfig (e : env) (accountId : string) (w : world)
  : config * world :=
  let globalConfig := getConfig e in
  let '(accountData, reg1) := Registry._getAccountData (fault e) accountId (reg w) in
  let w1 := {| clock := clock w; awaits := awaits w; attempts := attempts w;
               reg := reg1; trace := trace w |} in
  match accountData with
  | Some data =>
      ({| enabled :=
            match data !! "rateLimitEnabled" with
            | Some v => String.eqb v "true"
            | None => enabled globalConfig
            end;
          windowSeconds :=
            match data !! "rateLimitWindowSeconds" with
            | Some v => parseInt v
            | None => windowSeconds globalConfig
            end;
          maxRequests :=
            match data !! "rateLimitMaxRequests" with
            | Some v => parseInt v
            | None => maxRequests globalConfig
            end;
          queueTimeoutMs := queueTimeoutMs globalConfig;
          enableQueueing := enableQueueing globalConfig |}, w1)
  | None => (globalConfig, w1)
  end.

Definition failed (reqId error : string) : result :=
  {| r_acquired := false; r_requestId := reqId; r_error := Some error;
     r_waitedMs := None; r_skipped := false |}.

(** The [while] loop of [acquireRateLimit]; [None] when the fuel runs out. *)
Fixpoint acquireLoop (fuel : nat) (e : env) (cfg : config) (reqId : string)
    (startTime : Z) (retryCount : nat) (w : world) : option (result * world) :=
  match fuel with
  | O => None
  | S fuel' =>
      if clock w - startTime <? queueTimeoutMs cfg then
        match acquireAccountRateLimit e w with
        | (StoreThrows, w1) => Some (failed reqId "rate_limit_backend_error", w1)
        | (StoreReplies r, w1) =>
            if acquired r then
              Some ({| r_acquired := true; r_requestId := reqId; r_error := None;
                       r_waitedMs := Some (clock w1 - startTime);
                       r_skipped := false |}, w1)
            else if negb (enableQueueing cfg) then
              Some (failed reqId "rate_limit_exceeded", w1)
            else
              let waitMs :=
                match oldestRequestTime r with
                | Some oldest =>
                    if oldest =? 0 then Num 0
                    else
                      let oldestExpiresAt :=
                        num_add (Num oldest) (num_mul (windowSeconds cfg) (Num 1000)) in
                      Math_max (Num 0) (num_sub oldestExpiresAt (Num (clock w1)))
                | None => Num 0
                end in
              let remainingTimeout := queueTimeoutMs cfg - (clock w1 - startTime) in
              let poll :=
                let ms := Qfloor (pollInterval retryCount (random e retryCount)) in
                acquireLoop fuel' e cfg reqId startTime (S retryCount) (_sleep e ms w1) in
              match waitMs with
              | Num wait =>
                  if remainingTimeout <? wait then
                    Some (failed reqId "queue_timeout", w1)
                  else if 0 <? wait then
                    acquireLoop fuel' e cfg reqId startTime retryCount
                      (_sleep e (Z.min wait remainingTimeout) w1)
                  else poll
              | NaN => poll      (* [NaN > x] is false both times *)
              end
        end
      else Some (failed reqId "queue_timeout", w)
  end.

(** [requestId || uuidv4()]. *)
Definition orUuid (e : env) (requestId : option string) : string :=
  match requestId with
  | Some s => if String.eqb s EmptyString then uuidv4 e else s
  | None => uuidv4 e
  end.

Definition acquireRateLimit (fuel : nat) (e : env) (accountId : string)
    (requestId : option string) (w : world) : option (result * world) :=
  let '(cfg, w0) := getAccountConfig e accountId w in
  if negb (enabled cfg) then
    Some ({| r_acquired := true; r_requestId := orUuid e requestId;
             r_error := None; r_waitedMs := None; r_skipped := true |}, w0)
  else
    let reqId := orUuid e requestId in
    let startTime := clock w0 in
    acquireLoop fuel e cfg reqId startTime 0 w0.

(** *** Views used to state the properties (not functions of the source) *)

(** The world one attempt on the store leaves behind. *)
Definition attempted (e : env) (w : world) : world :=
  (acquireAccountRateLimit e w).2.

(** The latencies of the awaited calls number [from] to [from + count - 1]. *)
Fixpoint lagSum (e : env) (from count : nat) : Z :=
  match count with
  | O => 0
  | S count' => lag e from + lagSum e (S from) count'
  end.

End RateLimit.

(** ** The 403 circuit breaker ([Error403CircuitBreakerService]) *)

Module Breaker.

Import Registry.

Record config : Type := {
  enabled : bool;
  threshold : num;
  windowSeconds : Z;
  breakerDurationMinutes : num;
  autoRecovery : bool
}.

(** The global configuration that [getConfig()] resolves, and the store
    calls that throw. *)
Record env : Type := {
  getConfig : config;
  fault : nat -> storeOp -> bool
}.

(** The breaker never sleeps: one call is taken at one instant [clock]. *)
Record world : Type := {
  clock : Z;                             (* Date.now() *)
  reg : Registry.state;                  (* account records *)
  errors403 : gmap string (list Z)       (* failure instants per account *)
}.

Definition setReg (r : Registry.state) (w : world) : world :=
  {| clock := clock w; reg := r; errors403 := errors403 w |}.

(** The effect of a store call that leaves the error windows as [m]. *)
Definition setErrors (m : gmap string (list Z)) (w : world) : world :=
  {| clock := clock w; reg := called (reg w); errors403 := m |}.

(** *** The rolling error window of the store *)

Definition failuresOf (w : world) (accountId : string) : list Z :=
  default [] (errors403 w !! accountId).

(** Modelled from the spec: the sliding window (glossary): only events
    within the last [windowSeconds] count. *)
Definition inWindow (now windowSeconds t : Z) : bool :=
  now - windowSeconds * 1000 <? t.

Definition windowCount (now windowSeconds : Z) (ts : list Z) : Z :=
  Z.of_nat (length (List.filter (inWindow now windowSeconds) ts)).

(** Modelled from the spec: [redis.record403Error] of [models/redis.js],
    which is not among the sources: "atomically append a failure timestamp
    to the account's rolling error window ([windowSeconds]) and read back
    the count".  The outer [None] is a throw. *)
Definition redis_record403Error (e : env) (accountId : string)
    (windowSeconds : Z) (w : world) : option Z * world :=
  if fault e (calls (reg w)) OpRecord403 then (None, setReg (called (reg w)) w)
  else
    let ts := (failuresOf w accountId ++ [clock w])%list in
    (Some (windowCount (clock w) windowSeconds ts),
     setErrors (<[accountId := ts]> (errors403 w)) w).

(** Modelled from the spec: [redis.get403ErrorCount] of [models/redis.js]:
    the live count of the [Error403Counter], the failures of the account
    within the last [windowSeconds]; it reads only. *)
Definition redis_get403ErrorCount (e : env) (accountId : string)
    (windowSeconds : Z) (w : world) : option Z * world :=
  if fault e (calls (reg w)) OpCount403 then (None, setReg (called (reg w)) w)
  else (Some (windowCount (clock w) windowSeconds (failuresOf w accountId)),
        setReg (called (reg w)) w).

(** Modelled from the spec: [redis.clear403Errors] of [models/redis.js]:
    "clears the error-window history". *)
Definition redis_clear403Errors (e : env) (accountId : string) (w : world)
  : option unit * world :=
  if fault e (calls (reg w)) OpClear403 then (None, setReg (called (reg w)) w)
  else (Some tt, setErrors (delete accountId (errors403 w)) w).

(** *** The service *)

Definition _getAccountData (e : env) (accountId : string) (w : world)
  : option hash * world :=
  let '(accountData, r) := Registry._getAccountData (fault e) accountId (reg w) in
  (accountData, setReg r w).

(** [getAccountConfig]: the account record overrides [enabled],
    [threshold] and [breakerDurationMinutes]. *)
Definition getAccountConfig (e : env) (accountId : string) (w : world)
  : config * world :=
  let globalConfig := getConfig e in
  match _getAccountData e accountId w with
  | (Some accountData, w1) =>
      ({| enabled :=
            match accountData !! "error403BreakerEnabled" with
            | Some v => String.eqb v "true"
            | None => enabled globalConfig
            end;
          threshold :=
            match accountData !! "error403Threshold" with
            | Some v => parseInt v
            | None => threshold globalConfig
            end;
          windowSeconds := windowSeconds globalConfig;
          breakerDurationMinutes :=
            match accountData !! "error403BreakerDurationMinutes" with
            | Some v => parseInt v
            | None => breakerDurationMinutes globalConfig
            end;
          autoRecovery := autoRecovery globalConfig |}, w1)
  | (None, w1) => (globalConfig, w1)
  end.

(** The inner loop of [_updateAccountBreakerState] over the entries of
    [updates]: a [null] value deletes the field at once, the other entries
    are collected for one [hmset].  [None] when an [hdel] throws. *)
Fixpoint collectUpdates (e : env) (key : string)
    (updates : list (string * option string)) (updateObj : list (string * string))
    (r : Registry.state) : option (list (string * string)) * Registry.state :=
  match updates with
  | (field, None) :: rest =>
      match hdel (fault e) key field r with
      | (Some _, r1) => collectUpdates e key rest updateObj r1
      | (None, r1) => (None, r1)
      end
  | (field, Some value) :: rest =>
      collectUpdates e key rest (updateObj ++ [(field, value)])%list r
  | [] => (Some updateObj, r)
  end.

(** The outer loop over the account types: the first type whose key
    exists takes the update; a throw moves on to the next type. *)
Fixpoint updateFrom (e : env) (types : list string) (accountId : string)
    (updates : list (string * option string)) (r : Registry.state)
  : bool * Registry.state :=
  match types with
  | accountType :: rest =>
      let key := accountKey accountType accountId in
      match exists_ (fault e) key r with
      | (Some true, r1) =>
          match collectUpdates e key updates [] r1 with
          | (Some [], r2) => (true, r2)
          | (Some updateObj, r2) =>
              match hmset (fault e) key updateObj r2 with
              | (Some _, r3) => (true, r3)
              | (None, r3) => updateFrom e rest accountId updates r3
              end
          | (None, r2) => updateFrom e rest accountId updates r2
          end
      | (_, r1) => updateFrom e rest accountId updates r1
      end
  | [] => (false, r)
  end.

(** [_updateAccountBreakerState]; it never throws, every store call being
    inside a [try]. *)
Definition _updateAccountBreakerState (e : env) (accountId : string)
    (updates : list (string * option string)) (w : world) : bool * world :=
  match _getAccountData e accountId w with
  | (Some _, w1) =>
      let '(ok, r) := updateFrom e accountTypes accountId updates (reg w1) in
      (ok, setReg r w1)
  | (None, w1) => (false, w1)
  end.

(** [new Date(t).toISOString()] throws a [RangeError] outside the range of
    dates; the rendering itself is left out, the instant stands for it. *)
Definition toISOString (t : Z) : option Z :=
  if Z.abs t <=? 8640000000000000 then Some t else None.

(** [openCircuitBreaker]: the result of the update is dropped.  The log
    line that follows the update renders [openUntil] as a date; when that
    throws ([openUntil] is [NaN] or beyond the range of dates) the [catch]
    answers [false], the record being written already.  ([now] is a value
    of [Date.now()], which is always a date.) *)
Definition openCircuitBreaker (e : env) (accountId : string) (cfg : config)
    (w : world) : bool * world :=
  let now := clock w in
  let openUntil :=
    num_add (Num now)
            (num_mul (num_mul (breakerDurationMinutes cfg) (Num 60)) (Num 1000)) in
  let '(_, w1) :=
    _updateAccountBreakerState e accountId
      [ ("error403BreakerState", Some "open");
        ("error403BreakerOpenAt", Some (toString now));
        ("error403BreakerOpenUntil", Some (num_toString openUntil)) ] w in
  let rendered :=
    match openUntil with
    | Num t => toISOString t
    | NaN => None
    end in
  (match rendered with Some _ => true | None => false end, w1).

Definition halfOpenCircuitBreaker (e : env) (accountId : string) (w : world)
  : bool * world :=
  let '(_, w1) :=
    _updateAccountBreakerState e accountId
      [ ("error403BreakerState", Some "half_open") ] w in
  (true, w1).

Definition closeCircuitBreaker (e : env) (accountId : string) (w : world)
  : bool * world :=
  match redis_clear403Errors e accountId w with
  | (Some _, w1) =>
      let '(_, w2) :=
        _updateAccountBreakerState e accountId
          [ ("error403BreakerState", Some "closed");
            ("error403BreakerOpenAt", None);
            ("error403BreakerOpenUntil", None) ] w1 in
      (true, w2)
  | (None, w1) => (false, w1)
  end.

Record recordResult : Type := {
  triggered : bool;
  errorCount : Z;
  rr_threshold : num;
  rr_state : string
}.

(** [record403Error]; the outer [None] is a throw, which happens when the
    store call that records the failure throws. *)
Definition record403Error (e : env) (accountId : string) (w : world)
  : option recordResult * world :=
  let '(cfg, w1) := getAccountConfig e accountId w in
  if negb (enabled cfg) then
    (Some {| triggered := false; errorCount := 0;
             rr_threshold := threshold cfg; rr_state := "disabled" |}, w1)
  else
    match redis_record403Error e accountId (windowSeconds cfg) w1 with
    | (Some count, w2) =>
        if num_geb (Num count) (threshold cfg) then
          let '(_, w3) := openCircuitBreaker e accountId cfg w2 in
          (Some {| triggered := true; errorCount := count;
                   rr_threshold := threshold cfg; rr_state := "open" |}, w3)
        else
          (Some {| triggered := false; errorCount := count;
                   rr_threshold := threshold cfg; rr_state := "closed" |}, w2)
    | (None, w2) => (None, w2)
    end.

Record recoverResult : Type := {
  recovered : bool;
  rc_state : string;
  remainingMs : option num
}.

(** [x || fallback] on an optional string field. *)
Definition orElse (x : option string) (fallback : string) : string :=
  match x with
  | Some s => if String.eqb s EmptyString then fallback else s
  | None => fallback
  end.

Definition checkAndRecoverBreaker (e : env) (accountId : string) (w : world)
  : recoverResult * world :=
  match _getAccountData e accountId w with
  | (None, w1) =>
      ({| recovered := false; rc_state := "closed"; remainingMs := None |}, w1)
  | (Some accountData, w1) =>
      if negb (bool_decide (accountData !! "error403BreakerState" = Some "open")) then
        ({| recovered := false;
            rc_state := orElse (accountData !! "error403BreakerState") "closed";
            remainingMs := None |}, w1)
      else
        let now := clock w1 in
        let openUntil :=
          parseInt (orElse (accountData !! "error403BreakerOpenUntil") "0") in
        if num_geb (Num now) openUntil then
          let '(_, w2) := halfOpenCircuitBreaker e accountId w1 in
          ({| recovered := true; rc_state := "half_open"; remainingMs := None |}, w2)
        else
          ({| recovered := false; rc_state := "open";
              remainingMs := Some (num_sub openUntil (Num now)) |}, w1)
  end.

Record status : Type := {
  st_accountId : string;
  st_state : string;
  st_errorCount : Z;
  st_threshold : option num;
  st_enabled : option bool;
  st_openAt : option Z;
  st_openUntil : option Z;
  st_remainingMs : option Z
}.

(** [field ? parseInt(field) : null]. *)
Definition parsedField (accountData : hash) (field : string) : option num :=
  match accountData !! field with
  | Some s => if String.eqb s EmptyString then None else Some (parseInt s)
  | None => None
  end.

(** [t ? new Date(t).toISOString() : null]; the outer [None] is a throw. *)
Definition isoOrNull (t : option num) : option (option Z) :=
  match t with
  | Some (Num z) => if z =? 0 then Some None else Some <$> toISOString z
  | Some NaN | None => Some None
  end.

Definition errorStatus (accountId : string) : status :=
  {| st_accountId := accountId; st_state := "error"; st_errorCount := 0;
     st_threshold := None; st_enabled := None; st_openAt := None;
     st_openUntil := None; st_remainingMs := None |}.

Definition getBreakerStatus (e : env) (accountId : string) (w : world)
  : status * world :=
  let '(accountData, w1) := _getAccountData e accountId w in
  match redis_get403ErrorCount e accountId 300 w1 with
  | (None, w2) => (errorStatus accountId, w2)
  | (Some count, w2) =>
      let '(cfg, w3) := getAccountConfig e accountId w2 in
      match accountData with
      | None =>
          ({| st_accountId := accountId; st_state := "closed";
              st_errorCount := count; st_threshold := Some (threshold cfg);
              st_enabled := Some (enabled cfg); st_openAt := None;
              st_openUntil := None; st_remainingMs := None |}, w3)
      | Some data =>
          let state := orElse (data !! "error403BreakerState") "closed" in
          let openAt := parsedField data "error403BreakerOpenAt" in
          let openUntil := parsedField data "error403BreakerOpenUntil" in
          match isoOrNull openAt, isoOrNull openUntil with
          | Some isoOpenAt, Some isoOpenUntil =>
              ({| st_accountId := accountId; st_state := state;
                  st_errorCount := count; st_threshold := Some (threshold cfg);
                  st_enabled := Some (enabled cfg);
                  st_openAt := isoOpenAt; st_openUntil := isoOpenUntil;
                  st_remainingMs :=
                    match openUntil with
                    | Some (Num u) =>
                        if negb (u =? 0) && String.eqb state "open"
                        then Some (Z.max 0 (u - clock w3))
                        else Some 0
                    | Some NaN | None => Some 0
                    end |}, w3)
          | _, _ => (errorStatus accountId, w3)
          end
      end
  end.

(** *** Views used to state the properties (not functions of the source) *)

(** The same world at another instant. *)
Definition atInstant (t : Z) (w : world) : world :=
  {| clock := t; reg := reg w; errors403 := errors403 w |}.

(** The fields [openCircuitBreaker] writes at instant [now]. *)
Definition openFields (cfg : config) (now : Z) : list (string * option string) :=
  [ ("error403BreakerState", Some "open");
    ("error403BreakerOpenAt", Some (toString now));
    ("error403BreakerOpenUntil",
     Some (num_toString
             (num_add (Num now)
                (num_mul (num_mul (breakerDurationMinutes cfg) (Num 60))
                         (Num 1000))))) ].

(** The fields [closeCircuitBreaker] writes, and the record they leave. *)
Definition closeFields : list (string * option string) :=
  [ ("error403BreakerState", Some "closed");
    ("error403BreakerOpenAt", None);
    ("error403BreakerOpenUntil", None) ].

Definition closedRecord (d : hash) : hash :=
  <["error403BreakerState" := "closed"]>
    (delete "error403BreakerOpenUntil" (delete "error403BreakerOpenAt" d)).

End Breaker.

(** ** The pacing algorithm as the specification words it

    "If no prior timestamp, admit immediately and record [now].  Otherwise
    compute [elapsed = now - last].  In same-second mode, if
    [floor(now/1000) == floor(last/1000)], required wait =
    [1000 - (now mod 1000)]; in spacing mode, if [elapsed < minIntervalMs],
    required wait = [minIntervalMs - elapsed]."  [None] is "no conflict". *)
Definition specRequiredWait (minIntervalMs now : Z) (last : option Z) : option Z :=
  match last with
  | None => None
  | Some last =>
      let elapsed := now - last in
      if minIntervalMs =? 0 then
        if now / 1000 =? last / 1000 then Some (1000 - now mod 1000) else None
      else
        if elapsed <? minIntervalMs then Some (minIntervalMs - elapsed) else None
  end.

(** What a caller of the guard observes of one call. *)
Inductive decision : Type :=
| Allowed                 (** allowed at once, nothing slept *)
| Refused                   (** not allowed, nothing slept *)
| AllowedAfter (ms : Z)   (** allowed after one sleep of [ms] *)
| Other.

(** "If required wait exceeds [maxWaitMs], fail immediately [...].
    Otherwise suspend the caller for the required wait [...] and return
    [allowed=true]." *)
Definition specDecision (maxWaitMs minIntervalMs now : Z) (last : option Z)
  : decision :=
  match specRequiredWait minIntervalMs now last with
  | None => Allowed
  | Some wait => if maxWaitMs <? wait then Refused else AllowedAfter wait
  end.

(** The decision read off a result and the events of the call. *)
Definition observed (allowed : bool) (events : list event) : decision :=
  match allowed, List.filter isSleep events with
  | true, [] => Allowed
  | false, [] => Refused
  | true, [EvSleep ms] => AllowedAfter ms
  | _, _ => Other
  end.

(** A trace in which the store is only ever written by the atomic script:
    it holds no plain, unconditional write. *)
Definition atomicWritesOnlyb (events : list event) : bool :=
  forallb (fun ev => negb (isPlainWrite ev)) events.

Definition atomicWritesOnly (events : list event) : Prop :=
  atomicWritesOnlyb events = true.

(** ** The auto-recovery sweep of the circuit breaker
       ([_runAutoRecovery], [_scanAccountsByType]) *)

(** [s.replace(pattern, replacement)] for a string [pattern] and a
    [replacement] without [$]: the first occurrence of the pattern is
    replaced, the rest of the string is kept. *)
Fixpoint dropChars (n : nat) (s : string) : string :=
  match n, s with
  | S n', String _ s' => dropChars n' s'
  | _, _ => s
  end.

Fixpoint replaceFirst (pattern replacement s : string) : string :=
  if String.prefix pattern s
  then replacement +:+ dropChars (String.length pattern) s
  else
    match s with
    | String c s' => String c (replaceFirst pattern replacement s')
    | EmptyString => s
    end.

Module AutoRecovery.

Import Registry Breaker.

(** What [redis.client.scan(cursor, 'MATCH', pattern, 'COUNT', 100)]
    answers: it throws, or gives the next cursor and a page of keys. *)
Inductive scanReply : Type :=
| ScanThrows
| ScanPage (newCursor : string) (keys : list string).

(** The environment of a sweep: the one of the breaker, the answer of the
    store to the [iterations]-th [SCAN] of an account type at a cursor, and
    the time that passes before each check, indexed by the store calls made
    so far. *)
Record env : Type := {
  breaker : Breaker.env;
  scan : string -> nat -> string -> scanReply;
  elapse : nat -> Z
}.

Definition MAX_ITERATIONS : nat := 1000.

(** The [do ... while (cursor !== '0')] loop of [_scanAccountsByType], with
    [remaining = MAX_ITERATIONS - iterations] at the start of the body.
    The answer is the list collected ([None] when a [SCAN] throws) and the
    number of [SCAN] calls made. *)
Fixpoint scanLoop (e : env) (accountType : string) (remaining : nat)
    (cursor : string) (accountIds : list string) : option (list string) * nat :=
  let iterations := (MAX_ITERATIONS - remaining)%nat in
  match scan e accountType iterations cursor with
  | ScanThrows => (None, 1%nat)
  | ScanPage newCursor keys =>
      let accountIds1 :=
        (accountIds ++
         map (fun key => replaceFirst (accountType +:+ ":") EmptyString key) keys)%list in
      match remaining with
      | S (S _ as remaining') =>
          if String.eqb newCursor "0" then (Some accountIds1, 1%nat)
          else
            let '(found, n) := scanLoop e accountType remaining' newCursor accountIds1 in
            (found, S n)
      | _ => (Some accountIds1, 1%nat)   (* iterations >= MAX_ITERATIONS: break *)
      end
  end.

(** [_scanAccountsByType]: a throw is caught and the empty list is
    returned. *)
Definition _scanAccountsByType (e : env) (accountType : string) (w : world)
  : list string * world :=
  let '(found, n) := scanLoop e accountType MAX_ITERATIONS "0" [] in
  (default [] found, setReg (Nat.iter n called (reg w)) w).

(** The inner loop of [_runAutoRecovery] over the accounts of one type. *)
Fixpoint recoverEach (e : env) (accountIds : list string) (recoveredCount : nat)
    (w : world) : nat * world :=
  match accountIds with
  | accountId :: rest =>
      let w0 := atInstant (clock w + elapse e (calls (reg w))) w in
      let '(result, w1) := checkAndRecoverBreaker (breaker e) accountId w0 in
      recoverEach e rest
        (if recovered result then S recoveredCount else recoveredCount) w1
  | [] => (recoveredCount, w)
  end.

(** The outer loop over the account types. *)
Fixpoint recoverTypes (e : env) (types : list string) (recoveredCount : nat)
    (w : world) : nat * world :=
  match types with
  | accountType :: rest =>
      let '(accountIds, w1) := _scanAccountsByType e accountType w in
      let '(count, w2) := recoverEach e accountIds recoveredCount w1 in
      recoverTypes e rest count w2
  | [] => (recoveredCount, w)
  end.

(** [_runAutoRecovery]; the number it answers is the [recoveredCount] that
    the source only logs. *)
Definition _runAutoRecovery (e : env) (w : world) : nat * world :=
  recoverTypes e accountTypes 0%nat w.

(** *** Views used to state the properties (not functions of the source) *)

(** The accounts that the sweep visits for an account type. *)
Definition scanned (e : env) (accountType : string) : list string :=
  default [] (scanLoop e accountType MAX_ITERATIONS "0" []).1.

(** One check of the sweep: some time passes, then the account is
    checked. *)
Definition checked (e : env) (accountId : string) (w : world) : world :=
  (checkAndRecoverBreaker (breaker e) accountId
     (atInstant (clock w + elapse e (calls (reg w))) w)).2.

(** The world after the [SCAN] calls for an account type. *)
Definition afterScan (e : env) (accountType : string) (w : world) : world :=
  (_scanAccountsByType e accountType w).2.

End AutoRecovery.

(** ** The IP helper ([ipHelper.js], first document) and the IP whitelist
       middleware

    Strings are their UTF-8 bytes.  [Number] is the conversion of
    JavaScript from strings to IEEE 754 doubles; the doubles are those of
    the standard library ([spec_float] with 53 bits of precision), and a
    decimal literal is rounded once, to nearest with ties to even. *)

Module IpHelper.

(** *** Strings *)

(** [s.trim()]. *)
Definition trim (s : string) : string :=
  let s1 := trimStartWith whiteSpaceChars (String.length s) s in
  String.rev (trimStartWith (map (@rev nat) whiteSpaceChars) (String.length s1)
                (String.rev s1)).

(** [s.includes(c)] and [s.split(c)] for a one-character string [c]. *)
Fixpoint includes (c : ascii) (s : string) : bool :=
  match s with
  | String c' s' => if Ascii.eqb c' c then true else includes c s'
  | EmptyString => false
  end.

Fixpoint split (c : ascii) (s : string) : list string :=
  match s with
  | String c' s' =>
      if Ascii.eqb c' c then EmptyString :: split c s'
      else
        match split c s' with
        | part :: parts => String c' part :: parts
        | [] => [String c' EmptyString]
        end
  | EmptyString => [EmptyString]
  end.

(** [s.toLowerCase()] on the ASCII letters.  The other characters are
    kept: the only characters outside ASCII whose lower case has an ASCII
    letter are U+212A (k) and U+0130 (i), and the strings that
    [isPrivateIP] compares with hold neither. *)
Definition lowerChar (c : ascii) : ascii :=
  let n := nat_of_ascii c in
  if ((65 <=? n) && (n <=? 90))%nat then ascii_of_nat (n + 32) else c.

Fixpoint toLowerCase (s : string) : string :=
  match s with
  | String c s' => String (lowerChar c) (toLowerCase s')
  | EmptyString => EmptyString
  end.

Definition startsWith (s searchString : string) : bool :=
  String.prefix searchString s.

(** [ip.replace(/^::ffff:/, '')]. *)
Definition stripMappedPrefix (ip : string) : string :=
  if startsWith ip "::ffff:" then dropChars 7 ip else ip.

(** *** Numbers *)

Definition prec : Z := 53.
Definition emax : Z := 1024.

Definition ofInteger (z : Z) : spec_float := binary_normalize prec emax z 0 false.

(** The double nearest to [m * 10 ^ k]. *)
Definition decimalValue (negative : bool) (m : Z) (k : Z) : spec_float :=
  match m with
  | Zpos p =>
      if 0 <=? k then binary_round prec emax negative (p * Z.to_pos (10 ^ k)) 0
      else SFdiv prec emax (S754_finite negative p 0)
                           (S754_finite false (Z.to_pos (10 ^ (- k))) 0)
  | _ => S754_zero negative
  end.

(** The longest prefix of digits: its value on top of [acc], the number of
    digits, and the rest of the string. *)
Fixpoint readDigits (radix : Z) (s : string) (acc count : Z) : Z * Z * string :=
  match s with
  | String c s' =>
      match digitValue radix c with
      | Some d => readDigits radix s' (radix * acc + d) (count + 1)
      | None => (acc, count, s)
      end
  | EmptyString => (acc, count, s)
  end.

(** [StrUnsignedDecimalLiteral], which has to be the whole string: the
    word [Infinity], or digits with an optional fraction and an optional
    exponent, one digit at least before or after the point. *)
Definition unsignedDecimal (negative : bool) (s : string) : spec_float :=
  if String.eqb s "Infinity" then S754_infinity negative
  else
    let '(int, intDigits, s1) := readDigits 10 s 0 0 in
    let '(mantissa, fractionDigits, s2) :=
      if startsWith s1 "." then readDigits 10 (dropChars 1 s1) int 0
      else (int, 0, s1) in
    if intDigits + fractionDigits =? 0 then S754_nan
    else if String.eqb s2 EmptyString
    then decimalValue negative mantissa (- fractionDigits)
    else if startsWith s2 "e" || startsWith s2 "E" then
      let r := dropChars 1 s2 in
      let '(minus, r1) :=
        if startsWith r "-" then (true, dropChars 1 r)
        else if startsWith r "+" then (false, dropChars 1 r)
        else (false, r) in
      let '(exponent, exponentDigits, r2) := readDigits 10 r1 0 0 in
      if (exponentDigits =? 0) || negb (String.eqb r2 EmptyString)
      then S754_nan
      else
        decimalValue negative mantissa
          ((if minus then - exponent else exponent) - fractionDigits)
    else S754_nan.

(** [NonDecimalIntegerLiteral] after its prefix. *)
Definition nonDecimal (radix : Z) (s : string) : spec_float :=
  let '(value, digits, rest) := readDigits radix s 0 0 in
  if (digits =? 0) || negb (String.eqb rest EmptyString) then S754_nan
  else ofInteger value.

(** [Number(s)] on a string: white space around the literal is dropped,
    the empty string is [0], a literal that is not the whole string is
    [NaN]. *)
Definition Number (s : string) : spec_float :=
  let t := trim s in
  if String.eqb t EmptyString then S754_zero false
  else if startsWith t "0x" || startsWith t "0X" then nonDecimal 16 (dropChars 2 t)
  else if startsWith t "0o" || startsWith t "0O" then nonDecimal 8 (dropChars 2 t)
  else if startsWith t "0b" || startsWith t "0B" then nonDecimal 2 (dropChars 2 t)
  else if startsWith t "+" then unsignedDecimal false (dropChars 1 t)
  else if startsWith t "-" then unsignedDecimal true (dropChars 1 t)
  else unsignedDecimal false t.

Definition isNaN (x : spec_float) : bool :=
  match x with S754_nan => true | _ => false end.

(** *** [isPrivateIP] *)

Definition isPrivateIP (ip : string) : bool :=
  if String.eqb ip EmptyString || String.eqb ip "unknown" then false
  else
    let cleanIp := stripMappedPrefix ip in
    if includes "." cleanIp then
      let parts := map Number (split "." cleanIp) in
      if negb (length parts =? 4)%nat ||
         existsb (fun p => isNaN p || SFltb p (ofInteger 0) ||
                           SFltb (ofInteger 255) p) parts
      then false
      else
        match parts with
        | a :: b :: _ =>
            if SFeqb a (ofInteger 127) then true
            else if SFeqb a (ofInteger 10) then true
            else if SFeqb a (ofInteger 172) && SFleb (ofInteger 16) b &&
                    SFleb b (ofInteger 31) then true
            else if SFeqb a (ofInteger 192) && SFeqb b (ofInteger 168) then true
            else if SFeqb a (ofInteger 169) && SFeqb b (ofInteger 254) then true
            else if SFeqb a (ofInteger 0) then true
            else false
        | _ => false
        end
    else if includes ":" cleanIp then
      let lowerIp := toLowerCase cleanIp in
      if String.eqb lowerIp "::1" || String.eqb lowerIp "::1/128" then true
      else if startsWith lowerIp "fc" || startsWith lowerIp "fd" then true
      else if startsWith lowerIp "fe80:" then true
      else if String.eqb lowerIp "::" || String.eqb lowerIp "::/128" then true
      else false
    else false.

(** *** The public address of the server *)

(** The part of [config] that the helper and the middleware read. *)
Record config : Type := {
  whitelistEnabled : bool;          (* security.ipWhitelist.enabled *)
  allowedIps : list string;         (* security.ipWhitelist.allowedIps || [] *)
  strategy : option string;         (* ipResolve.strategy *)
  apiUrl : option string;           (* ipResolve.apiUrl *)
  cacheDuration : option Z          (* ipResolve.cacheDuration *)
}.

(** What [redis.get] and [axios.get] answer.  A response whose data is no
    string makes [trim] throw inside the [try], as a failed request
    does. *)
Inductive cacheReply : Type :=
| CacheThrows
| CacheNull
| CacheValue (value : string).

Inductive httpReply : Type :=
| HttpFails
| HttpData (data : string).

Record env : Type := {
  cached : cacheReply;              (* redis.get(PUBLIC_IP_CACHE_KEY) *)
  primary : httpReply;              (* axios.get(apiUrl) *)
  backup : httpReply;               (* axios.get('https://ipinfo.io/ip') *)
  setexThrows : bool;               (* redis.setex throws *)
  delThrows : bool                  (* redis.del throws *)
}.

(** What a call does to the outside. *)
Inductive action : Type :=
| CacheGet (key : string)
| HttpGet (url : string)
| CacheSetex (key : string) (ttl : Z) (value : string)
| CacheDel (key : string).

Definition PUBLIC_IP_CACHE_KEY : string := "public_ip:server".

(** [x || fallback] on an optional string. *)
Definition orString (x : option string) (fallback : string) : string :=
  match x with
  | Some s => if String.eqb s EmptyString then fallback else s
  | None => fallback
  end.

(** One of the two requests of [fetchPublicIPFromAPI]: the address it
    yields, if any. *)
Definition fetched (reply : httpReply) : option string :=
  match reply with
  | HttpData data =>
      let ip := trim data in
      if negb (String.eqb ip EmptyString) && negb (isPrivateIP ip)
      then Some ip else None
  | HttpFails => None
  end.

Definition fetchPublicIPFromAPI (e : env) (cfg : config)
  : option string * list action :=
  let url := orString (apiUrl cfg) "https://api.ipify.org" in
  match fetched (primary e) with
  | Some ip => (Some ip, [HttpGet url])
  | None =>
      (fetched (backup e), [HttpGet url; HttpGet "https://ipinfo.io/ip"])
  end.

(** [getFallbackIPFromWhitelist]: the first entry that is not private. *)
Fixpoint firstPublic (whitelist : list string) : option string :=
  match whitelist with
  | ip :: rest => if negb (isPrivateIP ip) then Some ip else firstPublic rest
  | [] => None
  end.

Definition getFallbackIPFromWhitelist (cfg : config) : option string :=
  firstPublic (allowedIps cfg).

(** [getServerPublicIP]: the cache, then the two services, then the
    whitelist; whatever throws on the way (the read or the write of the
    cache) is caught, and the fallback of the whitelist is answered. *)
Definition getServerPublicIP (e : env) (cfg : config) : string * list action :=
  let caught := orString (getFallbackIPFromWhitelist cfg) "unknown" in
  let get := CacheGet PUBLIC_IP_CACHE_KEY in
  let hit :=
    match cached e with
    | CacheValue cachedIP =>
        if String.eqb cachedIP EmptyString then None else Some cachedIP
    | CacheNull | CacheThrows => None
    end in
  match cached e, hit with
  | CacheThrows, _ => (caught, [get])
  | _, Some cachedIP => (cachedIP, [get])
  | _, None =>
      match fetchPublicIPFromAPI e cfg with
      | (Some fetchedIP, actions) =>
          let ttl :=
            match cacheDuration cfg with
            | Some d => if d =? 0 then 3600 else d
            | None => 3600
            end in
          (if setexThrows e then caught else fetchedIP,
           get :: actions ++ [CacheSetex PUBLIC_IP_CACHE_KEY ttl fetchedIP])%list
      | (None, actions) =>
          match getFallbackIPFromWhitelist cfg with
          | Some fallbackIP =>
              if String.eqb fallbackIP EmptyString
              then ("unknown", get :: actions)
              else
                (if setexThrows e then caught else fallbackIP,
                 get :: actions ++
                 [CacheSetex PUBLIC_IP_CACHE_KEY 600 fallbackIP])%list
          | None => ("unknown", get :: actions)
          end
      end
  end.

(** The request, as far as [resolveClientIP] reads it. *)
Record request : Type := {
  ip : option string;                       (* req.ip *)
  connectionRemoteAddress : option string;  (* req.connection?.remoteAddress *)
  socketRemoteAddress : option string       (* req.socket?.remoteAddress *)
}.

Definition originalIP (req : request) : string :=
  orString (ip req)
    (orString (connectionRemoteAddress req)
       (orString (socketRemoteAddress req) "unknown")).

Definition resolveClientIP (e : env) (cfg : config) (req : request)
  : string * list action :=
  let original := originalIP req in
  if String.eqb (orString (strategy cfg) "auto") "raw" then (original, [])
  else if isPrivateIP original then getServerPublicIP e cfg
  else (original, []).

Definition clearPublicIPCache (e : env) : bool * list action :=
  (negb (delThrows e), [CacheDel PUBLIC_IP_CACHE_KEY]).

(** *** Views used to state the properties (not functions of the source) *)

(** The dotted quad of four numbers. *)
Definition dotted (a b c d : Z) : string :=
  toString a +:+ "." +:+ toString b +:+ "." +:+ toString c +:+ "." +:+ toString d.

(** The blocks that the comments of [isPrivateIP] name: 127.0.0.0/8,
    10.0.0.0/8, 172.16.0.0/12, 192.168.0.0/16, 169.254.0.0/16 and
    0.0.0.0/8, by the first two numbers of an address. *)
Definition privateBlock (a b : Z) : bool :=
  (a =? 127) || (a =? 10) || ((a =? 172) && (16 <=? b) && (b <=? 31)) ||
  ((a =? 192) && (b =? 168)) || ((a =? 169) && (b =? 254)) || (a =? 0).

End IpHelper.

(** ** The IP whitelist middleware *)

Module IpWhitelist.

Import IpHelper.

(** What the middleware does with the request: it hands it on, or answers
    403 with a message and the address it saw. *)
Inductive outcome : Type :=
| Next
| Forbidden (message clientIp : string).

(** The longest prefix without a line terminator (LF, CR, U+2028, U+2029):
    what a greedy [.+] takes. *)
Fixpoint untilLineTerminator (s : string) : string :=
  match s with
  | String c s' =>
      match stripAny [[10]; [13]; [226; 128; 168]; [226; 128; 169]]%nat s with
      | Some _ => EmptyString
      | None => String c (untilLineTerminator s')
      end
  | EmptyString => EmptyString
  end.

(** The group of [clientIp.match(/::ffff:(.+)/)]: what follows the first
    [::ffff:] that has a character other than a line terminator after
    it. *)
Fixpoint mappedAddress (s : string) : option string :=
  let here :=
    if startsWith s "::ffff:" then
      let group := untilLineTerminator (dropChars 7 s) in
      if String.eqb group EmptyString then None else Some group
    else None in
  match here, s with
  | Some group, _ => Some group
  | None, String _ s' => mappedAddress s'
  | None, EmptyString => None
  end.

(** The test of one entry of the whitelist. *)
Definition matches (clientIp allowedIp : string) : bool :=
  String.eqb clientIp allowedIp ||
  match mappedAddress clientIp with
  | Some address => String.eqb address allowedIp
  | None => false
  end.

Definition ipWhitelistMiddleware (e : env) (cfg : config) (req : request)
  : outcome * list action :=
  if negb (whitelistEnabled cfg) then (Next, [])
  else
    let '(clientIp, actions) := resolveClientIP e cfg req in
    let whitelist := allowedIps cfg in
    match whitelist with
    | [] =>
        (Forbidden "Access denied. IP address not whitelisted." clientIp, actions)
    | _ =>
        if existsb (matches clientIp) whitelist then (Next, actions)
        else
          (Forbidden "Access denied. Your IP address is not whitelisted." clientIp,
           actions)
    end.

End IpWhitelist.

(** ** Concrete scenarios *)

Module Scenario.

Import RequestIntervalGuard.

(** A store that answers at once and never fails. *)
Definition calmStore : env :=
  {| getClient := ClientReady; lag := fun _ => 0; fault := fun _ => false |}.

(** No store client: the guard runs on its memory cache. *)
Definition noStore : env :=
  {| getClient := ClientMissing; lag := fun _ => 0; fault := fun _ => false |}.

Definition key1 : string := getRedisKey "a1" "claude-official".

(** At instant 1000700 the account [a1] has a request on record at
    1000500, in the same second. *)
Definition sameSecondWorld : world :=
  {| clock := 1000700; awaits := 0;
     store := {[ key1 := ("1000500", 1005500) ]};
     MEMORY_CACHE := {[ key1 := 1000500 ]};
     trace := [] |}.

(** A store whose every call throws. *)
Definition failingStore : env :=
  {| getClient := ClientReady; lag := fun _ => 0; fault := fun _ => true |}.

(** The rate limiter: 20 requests a minute, one second of queueing. *)
Definition limiterConfig : RateLimit.config :=
  {| RateLimit.enabled := true;
     RateLimit.windowSeconds := Num 60;
     RateLimit.maxRequests := Num 20;
     RateLimit.queueTimeoutMs := 1000;
     RateLimit.enableQueueing := true |}.

Definition limiterWorld : RateLimit.world :=
  {| RateLimit.clock := 1700000000000; RateLimit.awaits := 0;
     RateLimit.attempts := 0;
     RateLimit.reg := {| Registry.hashes := ∅; Registry.calls := 0 |};
     RateLimit.trace := [] |}.

(** The store throws on every attempt of the rate limiter. *)
Definition limiterStoreDown : RateLimit.env :=
  {| RateLimit.getConfig := limiterConfig;
     RateLimit.replies := fun _ => RateLimit.StoreThrows;
     RateLimit.lag := fun _ => 0;
     RateLimit.random := fun _ => (1 # 2)%Q;
     RateLimit.fault := fun _ _ => false;
     RateLimit.uuidv4 := "00000000-0000-4000-8000-000000000000" |}.

(** The window is full; its oldest request leaves it in 300 ms, after
    which the attempt succeeds. *)
Definition limiterWindowFull : RateLimit.env :=
  {| RateLimit.getConfig := limiterConfig;
     RateLimit.replies := fun n =>
       match n with
       | O => RateLimit.StoreReplies
                {| RateLimit.acquired := false; RateLimit.currentCount := 21;
                   RateLimit.oldestRequestTime := Some 1699999940300 |}
       | S _ => RateLimit.StoreReplies
                  {| RateLimit.acquired := true; RateLimit.currentCount := 20;
                     RateLimit.oldestRequestTime := Some 1699999941000 |}
       end;
     RateLimit.lag := fun _ => 0;
     RateLimit.random := fun _ => (1 # 2)%Q;
     RateLimit.fault := fun _ _ => false;
     RateLimit.uuidv4 := "00000000-0000-4000-8000-000000000000" |}.

(** The window is full and the store is slow: every awaited call takes
    900 ms. *)
Definition limiterSlowStore : RateLimit.env :=
  {| RateLimit.getConfig := limiterConfig;
     RateLimit.replies := fun _ =>
       RateLimit.StoreReplies
         {| RateLimit.acquired := false; RateLimit.currentCount := 21;
            RateLimit.oldestRequestTime := None |};
     RateLimit.lag := fun _ => 900;
     RateLimit.random := fun _ => (1 # 2)%Q;
     RateLimit.fault := fun _ _ => false;
     RateLimit.uuidv4 := "00000000-0000-4000-8000-000000000000" |}.

(** The breaker: three failures within five minutes open it for thirty
    minutes. *)
Definition breakerConfig : Breaker.config :=
  {| Breaker.enabled := true;
     Breaker.threshold := Num 3;
     Breaker.windowSeconds := 300;
     Breaker.breakerDurationMinutes := Num 30;
     Breaker.autoRecovery := true |}.

Definition healthyStore : Breaker.env :=
  {| Breaker.getConfig := breakerConfig; Breaker.fault := fun _ _ => false |}.

(** Every [hmset] throws; the other calls go through. *)
Definition writesFail : Breaker.env :=
  {| Breaker.getConfig := breakerConfig;
     Breaker.fault := fun _ op =>
       match op with Registry.OpHmset => true | _ => false end |}.

(** Two accounts, [A] and [B], and no failure yet; the account [ghost] has
    failures on record but no account record. *)
Definition twoAccounts : Breaker.world :=
  {| Breaker.clock := 1700000000000;
     Breaker.reg :=
       {| Registry.hashes :=
            {[ "gemini_account:A" := {[ "name" := "first" ]};
               "claude_account:B" := {[ "name" := "second" ]} ]};
          Registry.calls := 0 |};
     Breaker.errors403 := {[ "ghost" := [1699999990000; 1699999995000] ]} |}.

(** Three 403 answers for [A], one minute apart, then one for [B]. *)
Definition twoFailures (e : Breaker.env) : Breaker.world :=
  let w1 := (Breaker.record403Error e "A" twoAccounts).2 in
  let w2 := (Breaker.record403Error e "A"
               (Breaker.atInstant 1700000060000 w1)).2 in
  Breaker.atInstant 1700000120000 w2.

Definition threeFailures (e : Breaker.env)
  : option Breaker.recordResult * Breaker.world :=
  Breaker.record403Error e "A" (twoFailures e).

Definition thenOneForB (e : Breaker.env)
  : option Breaker.recordResult * Breaker.world :=
  Breaker.record403Error e "B"
    (Breaker.atInstant 1700000180000 (threeFailures e).2).

(** The world in which the breaker of [A] has just opened, at 1700000120000,
    and the record of [A] in it. *)
Definition opened : Breaker.world := (threeFailures healthyStore).2.

Definition openedRecord : Registry.hash :=
  default ∅ (Registry.accountRecord (Breaker.reg opened) "A").

(** *** Scenarios of the further properties *)

(** The same account five seconds after its request at 1000500: the entry
    of the store has just expired. *)
Definition fiveSecondsLater : world :=
  {| clock := 1005500; awaits := 0;
     store := {[ key1 := ("1000500", 1005500) ]};
     MEMORY_CACHE := {[ key1 := 1000500 ]};
     trace := [] |}.

(** Eleven and a half seconds after it. *)
Definition staleWorld : world :=
  {| clock := 1012000; awaits := 0;
     store := ∅;
     MEMORY_CACHE := {[ key1 := 1000500 ]};
     trace := [] |}.

(** The older guard: the second 1000 is on record, and it is 1000700. *)
Definition legacyKey : string := SameSecondGuard.getRedisKey "a1" "claude-official".

Definition legacyWorld : world :=
  {| clock := 1000700; awaits := 0;
     store := {[ legacyKey := ("1000", 1002500) ]};
     MEMORY_CACHE := {[ legacyKey := 1000 ]};
     trace := [] |}.

(** An account whose overrides of the breaker are no numbers. *)
Definition badOverrides : Breaker.world :=
  {| Breaker.clock := 1700000000000;
     Breaker.reg :=
       {| Registry.hashes :=
            {[ "claude_account:C" :=
                 {[ "error403BreakerDurationMinutes" := "soon";
                    "error403Threshold" := "many" ]} ]};
          Registry.calls := 0 |};
     Breaker.errors403 := ∅ |}.

Definition badRecord : Registry.hash :=
  {[ "error403BreakerDurationMinutes" := "soon"; "error403Threshold" := "many" ]}.

(** The end of the cool-down of [A]. *)
Definition cooledDown : Breaker.world := Breaker.atInstant 1700001920000 opened.

(** A sweep whose scan of the Gemini accounts finds [A], each check taking
    a second. *)
Definition sweep : AutoRecovery.env :=
  {| AutoRecovery.breaker := healthyStore;
     AutoRecovery.scan := fun accountType _ _ =>
       if String.eqb accountType "gemini_account"
       then AutoRecovery.ScanPage "0" ["gemini_account:A"]
       else AutoRecovery.ScanPage "0" [];
     AutoRecovery.elapse := fun _ => 1000 |}.

(** A limiter that does not wait at all, and one that does not queue. *)
Definition limiterNoWait : RateLimit.env :=
  {| RateLimit.getConfig :=
       {| RateLimit.enabled := true;
          RateLimit.windowSeconds := Num 60;
          RateLimit.maxRequests := Num 20;
          RateLimit.queueTimeoutMs := 0;
          RateLimit.enableQueueing := true |};
     RateLimit.replies := fun _ =>
       RateLimit.StoreReplies
         {| RateLimit.acquired := true; RateLimit.currentCount := 0;
            RateLimit.oldestRequestTime := None |};
     RateLimit.lag := fun _ => 0;
     RateLimit.random := fun _ => (1 # 2)%Q;
     RateLimit.fault := fun _ _ => false;
     RateLimit.uuidv4 := "00000000-0000-4000-8000-000000000000" |}.

Definition limiterNoQueue : RateLimit.env :=
  {| RateLimit.getConfig :=
       {| RateLimit.enabled := true;
          RateLimit.windowSeconds := Num 60;
          RateLimit.maxRequests := Num 20;
          RateLimit.queueTimeoutMs := 1000;
          RateLimit.enableQueueing := false |};
     RateLimit.replies := fun _ =>
       RateLimit.StoreReplies
         {| RateLimit.acquired := false; RateLimit.currentCount := 21;
            RateLimit.oldestRequestTime := Some 1699999940300 |};
     RateLimit.lag := fun _ => 0;
     RateLimit.random := fun _ => (1 # 2)%Q;
     RateLimit.fault := fun _ _ => false;
     RateLimit.uuidv4 := "00000000-0000-4000-8000-000000000000" |}.

(** The account [a1] has its limiting switched with the value [1]. *)
Definition switchedRecord : Registry.hash := {[ "rateLimitEnabled" := "1" ]}.

Definition limiterSwitched : RateLimit.world :=
  {| RateLimit.clock := 1700000000000; RateLimit.awaits := 0;
     RateLimit.attempts := 0;
     RateLimit.reg :=
       {| Registry.hashes := {[ "claude_account:a1" := switchedRecord ]};
          Registry.calls := 0 |};
     RateLimit.trace := [] |}.

(** A whitelist with a private and a public address; the cache of the
    public address of the server throws; a request from the local
    network. *)
Definition whitelistConfig : IpHelper.config :=
  {| IpHelper.whitelistEnabled := true;
     IpHelper.allowedIps := ["10.1.1.1"; "203.0.113.7"];
     IpHelper.strategy := None;
     IpHelper.apiUrl := None;
     IpHelper.cacheDuration := None |}.

Definition cacheDown : IpHelper.env :=
  {| IpHelper.cached := IpHelper.CacheThrows;
     IpHelper.primary := IpHelper.HttpFails;
     IpHelper.backup := IpHelper.HttpFails;
     IpHelper.setexThrows := false;
     IpHelper.delThrows := false |}.

Definition localRequest : IpHelper.request :=
  {| IpHelper.ip := Some "::ffff:192.168.1.5";
     IpHelper.connectionRemoteAddress := None;
     IpHelper.socketRemoteAddress := None |}.

End Scenario.

(** * Properties *)

(** ** Decimal strings *)

Lemma tonumber_toString (z : Z) : tonumber (toString z) = Some z.
Proof.
  unfold tonumber, toString.
  rewrite NilZero.isi.
  - simpl. now rewrite DecimalZ.of_to.
  - destruct z; simpl; try discriminate.
    intros H. injection H as H. now apply DecimalPos.Unsigned.to_uint_nonnil in H.
  - destruct z; simpl; try discriminate.
    intros H. injection H as H. now apply DecimalPos.Unsigned.to_uint_nonnil in H.
Qed.

(** ** The request interval guard *)

Section IntervalGuardFacts.

Import RequestIntervalGuard.

Variable e : env.

(** The script computes the wait of the specification from the stored
    timestamp, and writes the store exactly when there is no conflict. *)
Lemma luaScript_spec (kv : kvstore) (t : Z) (key : string)
    (now minIntervalMs : Z) :
  0 <= minIntervalMs ->
  (forall s, kv_get kv t key = Some s -> is_Some (tonumber s)) ->
  luaScript kv t [key] [toString now; toString minIntervalMs; toString 5] =
    match specRequiredWait minIntervalMs now (kv_get kv t key ≫= tonumber) with
    | None => (Some (0, 1), kv_setex kv t key 5 (toString now))
    | Some wait => (Some (wait, 0), kv)
    end.
Proof.
  intros Hmin Hok. unfold luaScript, specRequiredWait.
  rewrite !tonumber_toString.
  destruct (kv_get kv t key) as [s|]; simpl; [|reflexivity].
  destruct (Hok s eq_refl) as [last ->].
  destruct (Z.eqb_spec minIntervalMs 0) as [->|Hne].
  - simpl. now destruct (now / 1000 =? last / 1000).
  - destruct (Z.ltb_spec 0 minIntervalMs); [|lia].
    now destruct (now - last <? minIntervalMs).
Qed.

(** A script that asks for a wait has written nothing. *)
Lemma luaScript_wait_no_write (kv kv' : kvstore) (t : Z) (KEYS ARGV : list string)
    (waitMs canExecute : Z) :
  luaScript kv t KEYS ARGV = (Some (waitMs, canExecute), kv') ->
  canExecute = 1 /\ waitMs = 0 \/ canExecute = 0 /\ kv' = kv.
Proof.
  unfold luaScript. intros H.
  repeat case_match; simplify_eq; auto.
Qed.

(** The memory path computes the same wait when the clock and the cached
    timestamp are after the epoch. *)
Lemma memoryWaitMs_spec (minIntervalMs now : Z) (last : option Z) :
  0 <= minIntervalMs -> 0 <= now -> (forall l, last = Some l -> 0 < l) ->
  memoryWaitMs minIntervalMs now last =
    default 0 (specRequiredWait minIntervalMs now last)
  /\ (forall wait, specRequiredWait minIntervalMs now last = Some wait -> 0 < wait).
Proof.
  intros Hmin Hnow Hpos. unfold memoryWaitMs, specRequiredWait.
  destruct last as [last|]; [|split; [reflexivity|discriminate]].
  specialize (Hpos last eq_refl).
  destruct (Z.eqb_spec last 0); [lia|].
  rewrite Z.rem_mod_nonneg by lia.
  pose proof (Z.mod_pos_bound now 1000 ltac:(lia)).
  destruct (Z.eqb_spec minIntervalMs 0) as [->|Hne]; simpl.
  - destruct (now / 1000 =? last / 1000); simpl; split; try reflexivity;
      intros wait [= <-]; lia.
  - destruct (Z.ltb_spec 0 minIntervalMs); [|lia].
    destruct (Z.ltb_spec (now - last) minIntervalMs); simpl; split;
      try reflexivity; intros wait [= <-]; lia.
Qed.

Lemma specRequiredWait_store_pos (minIntervalMs now : Z) (last : option Z) (wait : Z) :
  0 <= minIntervalMs ->
  specRequiredWait minIntervalMs now last = Some wait -> 0 < wait.
Proof.
  intros Hmin. unfold specRequiredWait.
  destruct last as [last|]; [|discriminate].
  pose proof (Z.mod_pos_bound now 1000 ltac:(lia)).
  destruct (Z.eqb_spec minIntervalMs 0) as [->|Hne]; simpl.
  - destruct (now / 1000 =? last / 1000); intros [= <-]; lia.
  - destruct (Z.ltb_spec (now - last) minIntervalMs); intros [= <-]; lia.
Qed.


(** The memory path decides as the specified algorithm does on the cached
    timestamp. *)
Lemma memory_path_follows_algorithm
    (key : string) (maxWaitMs minIntervalMs startTime : Z) (w : world) :
  let last := MEMORY_CACHE w !! key in
  let out := _checkAndWaitWithMemory e key maxWaitMs minIntervalMs startTime w in
  0 <= minIntervalMs ->
  0 <= clock w ->
  (forall l, last = Some l -> 0 < l) ->
  (exists events,
      trace (out.2) = (trace w ++ events)%list /\
      observed (allowed (out.1)) events =
        specDecision maxWaitMs minIntervalMs (clock w) last) /\
  (specRequiredWait minIntervalMs (clock w) last = None ->
   out.1 = {| allowed := true; waitedMs := 0 |} /\
   MEMORY_CACHE (out.2) !! key = Some (clock w)).
Proof.
  intros last out Hmin Hnow Hpos. subst out.
  unfold _checkAndWaitWithMemory, memGet, specDecision. cbn [clock emit].
  fold last.
  destruct (memoryWaitMs_spec _ _ _ Hmin Hnow Hpos) as [-> Hwpos].
  destruct (specRequiredWait _ _ _) as [wait|] eqn:Hwait; cbn [from_option id].
  - specialize (Hwpos wait eq_refl).
    destruct (Z.eqb_spec wait 0); [lia|].
    split; [|discriminate].
    destruct (Z.ltb_spec maxWaitMs wait); cbn.
    + eexists. split; reflexivity.
    + eexists. split; [rewrite <- !app_assoc; reflexivity|reflexivity].
  - cbn. split.
    + eexists. split; [rewrite <- !app_assoc; reflexivity|reflexivity].
    + intros _. split; [reflexivity|]. apply lookup_insert_eq.
Qed.

(** C7.  The required wait follows the specified algorithm.  On either
    path, [checkAndWait] decides as the algorithm of the specification does
    on the timestamp it finds: with no prior timestamp, or without
    conflict, it admits at once with [waitedMs = 0] and records [now]; in
    same-second mode there is a conflict exactly when [floor(now/1000)]
    equals [floor(last/1000)], and the wait is [1000 - now mod 1000]; in
    spacing mode exactly when [now - last < minIntervalMs], and the wait
    is [minIntervalMs - (now - last)].  The decision is stated for every
    [maxWaitMs], which pins the wait down.  The clock and the cached
    timestamp are after the epoch, and on the store-backed path the script
    call succeeds on a decimal timestamp. *)
Theorem pacing_wait_follows_algorithm
    (accountId accountType : string) (maxWaitMs minIntervalMs : Z) (w : world) :
  let key := getRedisKey accountId accountType in
  let last := priorTimestamp e w key in
  let out := checkAndWait e accountId accountType maxWaitMs minIntervalMs w in
  0 <= minIntervalMs ->
  0 <= clock w ->
  (forall l, last = Some l -> 0 < l) ->
  (getClient e = ClientReady ->
   fault e (awaits w) = false /\
   forall s, kv_get (store w) (clock w) key = Some s -> is_Some (tonumber s)) ->
  (exists events,
      trace (out.2) = (trace w ++ events)%list /\
      observed (allowed (out.1)) events =
        specDecision maxWaitMs minIntervalMs (clock w) last) /\
  (specRequiredWait minIntervalMs (clock w) last = None ->
   out.1 = {| allowed := true; waitedMs := 0 |} /\
   recorded e (out.2) key (clock w)).
Proof.
  intros key last out Hmin Hnow Hpos Hstore.
  subst out last. unfold checkAndWait, priorTimestamp, recorded, specDecision in *.
  fold key in Hpos |- *.
  destruct (getClient e) eqn:Hclient.
  - destruct (Hstore eq_refl) as [Hfault Hok]. clear Hstore.
    unfold _checkAndWaitWithRedis, clientEval. cbn [awaits emit store clock].
    rewrite Hfault.
    rewrite (luaScript_spec _ _ _ _ _ Hmin Hok).
    destruct (specRequiredWait _ _ _) as [wait|] eqn:Hwait.
    + pose proof (specRequiredWait_store_pos _ _ _ _ Hmin Hwait) as Hw.
      cbn. destruct (Z.ltb_spec maxWaitMs wait).
      * split; [|discriminate]. eexists. cbn. split; [reflexivity|]. reflexivity.
      * split; [|discriminate]. unfold clientSetex. cbn.
        destruct (fault e (S (S (awaits w)))); cbn;
          (eexists; split; [rewrite <- !app_assoc; reflexivity|reflexivity]).
    + cbn. split.
      * eexists. split; [rewrite <- !app_assoc; reflexivity|reflexivity].
      * intros _. split; [reflexivity|]. unfold kv_setex. apply lookup_insert_eq.
  - apply (memory_path_follows_algorithm key); assumption.
  - apply (memory_path_follows_algorithm key); assumption.
Qed.

Lemma luaScript_error_no_write (kv kv' : kvstore) (t : Z) (KEYS ARGV : list string) :
  luaScript kv t KEYS ARGV = (None, kv') -> kv' = kv.
Proof.
  unfold luaScript. intros H.
  repeat case_match; simplify_eq; auto.
Qed.

Lemma memory_path_denies
    (key : string) (maxWaitMs minIntervalMs startTime : Z) (w : world) :
  0 <= maxWaitMs ->
  maxWaitMs < memoryWaitMs minIntervalMs (clock w) (MEMORY_CACHE w !! key) ->
  _checkAndWaitWithMemory e key maxWaitMs minIntervalMs startTime w =
    ({| allowed := false; waitedMs := 0 |}, emit (EvMemGet key) w).
Proof.
  intros Hmax Hlt. unfold _checkAndWaitWithMemory, memGet.
  destruct (Z.eqb_spec (memoryWaitMs minIntervalMs (clock w) (MEMORY_CACHE w !! key)) 0);
    [lia|].
  destruct (Z.ltb_spec maxWaitMs
              (memoryWaitMs minIntervalMs (clock w) (MEMORY_CACHE w !! key)));
    [reflexivity|lia].
Qed.

(** C6.  Whenever the required wait that the call computes exceeds
    [maxWaitMs], [checkAndWait] returns [{allowed: false, waitedMs: 0}],
    sleeps on no timer, and leaves the stored timestamp as it was, in the
    store and in the memory cache; this holds on the store-backed path and
    on the memory path, however it is reached. *)
Theorem pacing_timeout_fails_fast
    (accountId accountType : string) (maxWaitMs minIntervalMs : Z) (w : world) :
  let key := getRedisKey accountId accountType in
  let out := checkAndWait e accountId accountType maxWaitMs minIntervalMs w in
  0 <= maxWaitMs ->
  maxWaitMs < computedWait e minIntervalMs w key ->
  out.1 = {| allowed := false; waitedMs := 0 |} /\
  store (out.2) = store w /\
  MEMORY_CACHE (out.2) = MEMORY_CACHE w /\
  exists events,
    trace (out.2) = (trace w ++ events)%list /\
    List.filter isSleep events = [] /\
    List.filter isPlainWrite events = [].
Proof.
  intros key out Hmax Hlt. subst out.
  unfold checkAndWait, computedWait in *. fold key in Hlt |- *.
  destruct (getClient e) eqn:Hclient.
  - unfold _checkAndWaitWithRedis, clientEval, scriptArgs in *.
    cbn [awaits emit store clock].
    destruct (fault e (awaits w)) eqn:Hfault.
    + rewrite memory_path_denies; [|assumption|exact Hlt].
      cbn. repeat split; eauto.
      eexists. split; [rewrite <- !app_assoc; reflexivity|split; reflexivity].
    + destruct (luaScript _ _ _ _) as [[[waitMs canExecute]|] kv'] eqn:Hlua;
        cbn [fst] in Hlt.
      * destruct (luaScript_wait_no_write _ _ _ _ _ _ _ Hlua) as [[-> ->]|[-> ->]];
          [lia|].
        cbn. destruct (Z.ltb_spec maxWaitMs waitMs); [|lia].
        cbn. repeat split; eauto.
      * apply luaScript_error_no_write in Hlua as ->.
        rewrite memory_path_denies; [|assumption|exact Hlt].
        cbn. repeat split; eauto.
        eexists. split; [rewrite <- !app_assoc; reflexivity|split; reflexivity].
  - rewrite memory_path_denies; [|assumption|exact Hlt].
    cbn. repeat split; eauto.
  - rewrite memory_path_denies; [|assumption|exact Hlt].
    cbn. repeat split; eauto.
Qed.

(** On the store-backed path of the interval guard the script call comes
    first; only a request admitted after waiting is followed by a plain
    [SETEX]. *)
Lemma interval_guard_writes
    (accountId accountType : string) (maxWaitMs minIntervalMs : Z) (w : world) :
  let key := getRedisKey accountId accountType in
  let argv := scriptArgs minIntervalMs w in
  let out := checkAndWait e accountId accountType maxWaitMs minIntervalMs w in
  getClient e = ClientReady ->
  fault e (awaits w) = false ->
  match luaScript (store w) (clock w) [key] argv with
  | (Some (waitMs, canExecute), kv') =>
      if (canExecute =? 1) || (maxWaitMs <? waitMs) then
        store (out.2) = kv' /\
        exists events,
          trace (out.2) = (trace w ++ EvEval key argv :: events)%list /\
          atomicWritesOnly (EvEval key argv :: events)
      else
        let newTimeMs :=
          clock w + lag e (awaits w) + timerDelay waitMs + lag e (S (awaits w)) in
        trace (out.2) =
          (trace w ++ [ EvEval key argv; EvSleep waitMs;
                        EvSetex key 5 (toString newTimeMs);
                        EvMemSet key newTimeMs ])%list /\
        (fault e (S (S (awaits w))) = false ->
         store (out.2) !! key = Some (toString newTimeMs, newTimeMs + 5 * 1000))
  | (None, _) => store (out.2) = store w
  end.
Proof.
  intros key argv out Hclient Hfault. subst out argv.
  unfold checkAndWait. rewrite Hclient.
  unfold _checkAndWaitWithRedis, clientEval, scriptArgs.
  cbn [awaits emit store clock]. rewrite Hfault. fold key.
  destruct (luaScript _ _ _ _) as [[[waitMs canExecute]|] kv'] eqn:Hlua.
  - destruct (canExecute =? 1) eqn:Hcan; cbn [orb].
    + cbn. split; [reflexivity|]. eexists.
      split; [rewrite <- !app_assoc; reflexivity|reflexivity].
    + destruct (maxWaitMs <? waitMs) eqn:Hlt.
      * cbn. split; [reflexivity|]. exists []. split; reflexivity.
      * unfold clientSetex. cbn. split.
        -- destruct (fault e (S (S (awaits w)))); cbn;
             rewrite <- !app_assoc; reflexivity.
        -- intros ->. cbn. unfold kv_setex. rewrite lookup_insert_eq.
           reflexivity.
  - apply luaScript_error_no_write in Hlua as ->.
    unfold _checkAndWaitWithMemory, memGet. cbn.
    repeat case_match; reflexivity.
Qed.

Lemma same_second_memory_trace
    (accountId accountType : string) (maxWaitMs startTime : Z) (w : world) :
  exists events,
    trace (SameSecondGuard.checkAndWaitWithMemory e accountId accountType
             maxWaitMs startTime w).2 = (trace w ++ events)%list.
Proof.
  unfold SameSecondGuard.checkAndWaitWithMemory, memGet.
  repeat case_match; cbn; rewrite <- ?app_assoc; eauto.
Qed.

(** The older guard reads the stored second with a plain [GET] and, unless
    it refuses the request at once, writes with a plain [SETEX]. *)
Lemma same_second_guard_writes
    (accountId accountType : string) (maxWaitMs : Z) (w : world) :
  let key := SameSecondGuard.getRedisKey accountId accountType in
  let out := SameSecondGuard.checkAndWait e accountId accountType maxWaitMs w in
  getClient e = ClientReady ->
  fault e (awaits w) = false ->
  exists events,
    trace (out.2) = (trace w ++ EvGet key :: events)%list /\
    (allowed (out.1) = true ->
     exists second, In (EvSetex key 2 (toString second)) events).
Proof.
  intros key out Hclient Hfault. subst out.
  unfold SameSecondGuard.checkAndWait. rewrite Hclient.
  unfold SameSecondGuard.clientGet. cbn [awaits emit]. rewrite Hfault.
  fold key.
  match goal with
  | |- context [if ?c then _ else _] => destruct c
  end.
  - match goal with
    | |- context [if ?c then _ else _] => destruct c
    end.
    + cbn. exists []. split; [reflexivity|]. discriminate.
    + unfold clientSetex.
      match goal with
      | |- context [fault e ?n] => destruct (fault e n)
      end.
      * match goal with
        | |- context [SameSecondGuard.checkAndWaitWithMemory e ?a ?t ?m ?s ?w0] =>
            destruct (same_second_memory_trace a t m s w0) as [events Hev]
        end.
        rewrite Hev. cbn. eexists.
        split; [rewrite <- !app_assoc; cbn; reflexivity|].
        intros _. eexists. right. left. reflexivity.
      * cbn. eexists. split; [rewrite <- !app_assoc; cbn; reflexivity|].
        intros _. eexists. right. left. reflexivity.
  - unfold clientSetex.
    match goal with
    | |- context [fault e ?n] => destruct (fault e n)
    end.
    + match goal with
      | |- context [SameSecondGuard.checkAndWaitWithMemory e ?a ?t ?m ?s ?w0] =>
          destruct (same_second_memory_trace a t m s w0) as [events Hev]
      end.
      rewrite Hev. cbn. eexists.
      split; [rewrite <- !app_assoc; cbn; reflexivity|].
      intros _. eexists. left. reflexivity.
    + cbn. eexists. split; [rewrite <- !app_assoc; cbn; reflexivity|].
      intros _. eexists. left. reflexivity.
Qed.

(** C1, as amended.  On the store-backed path of the interval guard the
    conflict check, and the recording of the timestamp of a request admitted
    without waiting, are one atomic script call, and a refused request
    writes nothing; a request admitted after waiting has its new timestamp
    written after the sleep by a plain unconditional [SETEX], which is not
    part of the script.  The older same-second guard reads the stored second
    with a plain [GET] and writes with a plain [SETEX] whenever it admits. *)
Theorem store_path_write_discipline
    (accountId accountType : string) (maxWaitMs minIntervalMs : Z) (w : world) :
  let key := getRedisKey accountId accountType in
  let argv := scriptArgs minIntervalMs w in
  let out := checkAndWait e accountId accountType maxWaitMs minIntervalMs w in
  let older := SameSecondGuard.checkAndWait e accountId accountType maxWaitMs w in
  getClient e = ClientReady ->
  fault e (awaits w) = false ->
  match luaScript (store w) (clock w) [key] argv with
  | (Some (waitMs, canExecute), kv') =>
      if (canExecute =? 1) || (maxWaitMs <? waitMs) then
        store (out.2) = kv' /\
        exists events,
          trace (out.2) = (trace w ++ EvEval key argv :: events)%list /\
          atomicWritesOnly (EvEval key argv :: events)
      else
        let newTimeMs :=
          clock w + lag e (awaits w) + timerDelay waitMs + lag e (S (awaits w)) in
        trace (out.2) =
          (trace w ++ [ EvEval key argv; EvSleep waitMs;
                        EvSetex key 5 (toString newTimeMs);
                        EvMemSet key newTimeMs ])%list /\
        (fault e (S (S (awaits w))) = false ->
         store (out.2) !! key = Some (toString newTimeMs, newTimeMs + 5 * 1000))
  | (None, _) => store (out.2) = store w
  end /\
  exists events,
    trace (older.2)
    = (trace w ++ EvGet (SameSecondGuard.getRedisKey accountId accountType)
                  :: events)%list /\
    (allowed (older.1) = true ->
     exists second,
       In (EvSetex (SameSecondGuard.getRedisKey accountId accountType) 2
             (toString second)) events).
Proof.
  intros key argv out older Hclient Hfault. split.
  - now apply interval_guard_writes.
  - now apply same_second_guard_writes.
Qed.

End IntervalGuardFacts.

(** C1, as stated, fails: in the scenario the request is admitted after a wait
    and the trace of the call holds a plain [SETEX], outside the script. *)
Lemma store_path_plain_write :
  atomicWritesOnlyb
    (RequestIntervalGuard.trace
       (RequestIntervalGuard.checkAndWait Scenario.calmStore
          "a1" "claude-official" 1000 0 Scenario.sameSecondWorld).2) = false.
Proof. vm_compute. reflexivity. Qed.

Lemma store_path_write_discipline_witness :
  RequestIntervalGuard.getClient Scenario.calmStore = ClientReady /\
  RequestIntervalGuard.fault Scenario.calmStore 0 = false /\
  RequestIntervalGuard.trace
    (RequestIntervalGuard.checkAndWait Scenario.calmStore
       "a1" "claude-official" 1000 0 Scenario.sameSecondWorld).2 =
    [ EvEval Scenario.key1 ["1000700"; "0"; "5"]; EvSleep 300;
      EvSetex Scenario.key1 5 "1001000"; EvMemSet Scenario.key1 1001000 ].
Proof.
  split; [reflexivity|]. split; [reflexivity|].
  exact (proj1 (proj1 (store_path_write_discipline Scenario.calmStore
                         "a1" "claude-official" 1000 0 Scenario.sameSecondWorld
                         eq_refl eq_refl))).
Defined.

Lemma pacing_wait_follows_algorithm_witness :
  let e := Scenario.calmStore in
  let w := Scenario.sameSecondWorld in
  let key := RequestIntervalGuard.getRedisKey "a1" "claude-official" in
  let last := RequestIntervalGuard.priorTimestamp e w key in
  let out := RequestIntervalGuard.checkAndWait e "a1" "claude-official" 1000 0 w in
  0 <= 0 /\
  0 <= RequestIntervalGuard.clock w /\
  (forall l, last = Some l -> 0 < l) /\
  (RequestIntervalGuard.getClient e = ClientReady ->
   RequestIntervalGuard.fault e (RequestIntervalGuard.awaits w) = false /\
   forall s, kv_get (RequestIntervalGuard.store w) (RequestIntervalGuard.clock w) key
               = Some s -> is_Some (tonumber s)) /\
  exists events,
    RequestIntervalGuard.trace (out.2) = events /\
    observed (RequestIntervalGuard.allowed (out.1)) events = AllowedAfter 300.
Proof.
  intros e w key last out.
  assert (H0 : 0 <= 0) by lia.
  assert (H1 : 0 <= RequestIntervalGuard.clock w) by (vm_compute; discriminate).
  assert (H2 : forall l, last = Some l -> 0 < l).
  { intros l H. vm_compute in H. injection H as <-. lia. }
  assert (H3 : RequestIntervalGuard.getClient e = ClientReady ->
               RequestIntervalGuard.fault e (RequestIntervalGuard.awaits w) = false /\
               forall s, kv_get (RequestIntervalGuard.store w)
                           (RequestIntervalGuard.clock w) key = Some s ->
                         is_Some (tonumber s)).
  { intros _. split; [reflexivity|]. intros s H. vm_compute in H.
    injection H as <-. exists 1000500. vm_compute. reflexivity. }
  repeat (split; [assumption|]).
  destruct (pacing_wait_follows_algorithm e "a1" "claude-official" 1000 0 w
              H0 H1 H2 H3) as [[events [Ht Hd]] _].
  exists events. split; [exact Ht|].
  etransitivity; [exact Hd|]. vm_compute. reflexivity.
Defined.

Lemma pacing_timeout_fails_fast_witness :
  let e := Scenario.calmStore in
  let w := Scenario.sameSecondWorld in
  let key := RequestIntervalGuard.getRedisKey "a1" "claude-official" in
  let out := RequestIntervalGuard.checkAndWait e "a1" "claude-official" 100 0 w in
  0 <= 100 /\
  100 < RequestIntervalGuard.computedWait e 0 w key /\
  out.1 = {| RequestIntervalGuard.allowed := false;
             RequestIntervalGuard.waitedMs := 0 |} /\
  RequestIntervalGuard.store (out.2) = RequestIntervalGuard.store w /\
  RequestIntervalGuard.MEMORY_CACHE (out.2) = RequestIntervalGuard.MEMORY_CACHE w.
Proof.
  intros e w key out.
  assert (H0 : 0 <= 100) by lia.
  assert (H1 : 100 < RequestIntervalGuard.computedWait e 0 w key)
    by (vm_compute; reflexivity).
  split; [exact H0|]. split; [exact H1|].
  destruct (pacing_timeout_fails_fast e "a1" "claude-official" 100 0 w H0 H1)
    as (Hr & Hs & Hm & _).
  repeat split; assumption.
Defined.

(** The scenario on the other paths: without a store client the same wait
    is computed from the memory cache; when the script call throws, the
    memory path runs after it; in spacing mode with 500 ms the wait is
    [500 - 200]. *)
Example memory_path_run :
  let out := RequestIntervalGuard.checkAndWait Scenario.noStore
               "a1" "claude-official" 1000 0 Scenario.sameSecondWorld in
  out.1 = {| RequestIntervalGuard.allowed := true;
             RequestIntervalGuard.waitedMs := 300 |} /\
  RequestIntervalGuard.trace (out.2)
  = [ EvMemGet Scenario.key1; EvSleep 300; EvMemSet Scenario.key1 1001000 ].
Proof. vm_compute. split; reflexivity. Qed.

Example failing_store_run :
  RequestIntervalGuard.trace
    (RequestIntervalGuard.checkAndWait Scenario.failingStore
       "a1" "claude-official" 1000 0 Scenario.sameSecondWorld).2
  = [ EvEval Scenario.key1 ["1000700"; "0"; "5"];
      EvMemGet Scenario.key1; EvSleep 300; EvMemSet Scenario.key1 1001000 ].
Proof. vm_compute. reflexivity. Qed.

Example spacing_run :
  let out := RequestIntervalGuard.checkAndWait Scenario.calmStore
               "a1" "claude-official" 1000 500 Scenario.sameSecondWorld in
  out.1 = {| RequestIntervalGuard.allowed := true;
             RequestIntervalGuard.waitedMs := 300 |} /\
  RequestIntervalGuard.store (out.2) !! Scenario.key1
  = Some ("1001000", 1006000).
Proof. vm_compute. split; reflexivity. Qed.

(** ** The account rate limiter *)

Lemma sleptMs_app (t1 t2 : list event) :
  sleptMs (t1 ++ t2) = sleptMs t1 + sleptMs t2.
Proof.
  induction t1 as [|ev t1 IH]; [reflexivity|].
  destruct ev; cbn [sleptMs app]; rewrite ?IH; lia.
Qed.

Lemma timerDelay_bounds (ms : Z) : 1 <= timerDelay ms <= Z.max 1 ms.
Proof.
  unfold timerDelay.
  destruct (Z.leb_spec 1 ms); destruct (Z.leb_spec ms TIMEOUT_MAX); cbn; lia.
Qed.

Lemma timerDelay_pos (ms : Z) : 1 <= timerDelay ms.
Proof. apply timerDelay_bounds. Qed.

Section RateLimitFacts.

Import RateLimit.

Variable e : env.

(** A poll never sleeps longer than the maximum poll interval. *)
Lemma pollInterval_le_max (retryCount : nat) (rnd : Q) :
  timerDelay (Qfloor (pollInterval retryCount rnd)) <= 500.
Proof.
  pose proof (timerDelay_bounds (Qfloor (pollInterval retryCount rnd))) as Hb.
  unfold pollInterval in *.
  assert (Qfloor (Qmin
            (Qmin (POLL_INTERVAL_BASE_MS *
                   Qpower POLL_BACKOFF_FACTOR (Z.of_nat retryCount))
                  POLL_INTERVAL_MAX_MS * ((85 # 100) + rnd * (3 # 10)))
            POLL_INTERVAL_MAX_MS) <= 500); [|lia].
  rewrite <- (Qfloor_Z 500) at 1.
  apply Qfloor_resp_le. apply Q.le_min_r.
Qed.

(** Resolving the configuration touches neither the clock nor the trace. *)
Lemma getAccountConfig_frame (accountId : string) (w : world) :
  let w0 := (getAccountConfig e accountId w).2 in
  clock w0 = clock w /\ trace w0 = trace w /\
  awaits w0 = awaits w /\ attempts w0 = attempts w.
Proof.
  unfold getAccountConfig.
  destruct (Registry._getAccountData _ _ _) as [[data|] reg1]; cbn; auto.
Qed.

Section Loop.

Variable cfg : config.
Variable reqId : string.
Variable startTime : Z.

Hypothesis lag_nonneg : forall n, 0 <= lag e n.

(** With enough fuel the loop returns: every iteration that goes on
    sleeps one millisecond at least. *)
Lemma acquireLoop_returns (fuel retryCount : nat) (w : world) :
  (Z.to_nat (queueTimeoutMs cfg - (clock w - startTime)) < fuel)%nat ->
  is_Some (acquireLoop fuel e cfg reqId startTime retryCount w).
Proof.
  revert retryCount w.
  induction fuel as [|fuel IH]; intros retryCount w Hfuel; [lia|].
  cbn [acquireLoop].
  destruct (Z.ltb_spec (clock w - startTime) (queueTimeoutMs cfg)) as [Hlt|Hge];
    [|eauto].
  unfold acquireAccountRateLimit.
  assert (Hstep : forall ms retry,
             is_Some (acquireLoop fuel e cfg reqId startTime retry
                        (_sleep e ms
                           (tick e {| clock := clock (emit (EvAcquire (attempts w)) w);
                                      awaits := awaits (emit (EvAcquire (attempts w)) w);
                                      attempts := S (attempts (emit (EvAcquire (attempts w)) w));
                                      reg := reg (emit (EvAcquire (attempts w)) w);
                                      trace := trace (emit (EvAcquire (attempts w)) w) |})))).
  { intros ms retry. apply IH. cbn.
    pose proof (timerDelay_pos ms).
    pose proof (lag_nonneg (awaits w)). pose proof (lag_nonneg (S (awaits w))).
    lia. }
  destruct (replies e (attempts w)) as [|r]; [eauto|].
  destruct (acquired r); [eauto|].
  destruct (negb (enableQueueing cfg)); [eauto|].
  repeat case_match; eauto.
Qed.

Lemma attempted_frame (w : world) :
  clock (attempted e w) = clock w + lag e (awaits w) /\
  awaits (attempted e w) = S (awaits w) /\
  trace (attempted e w) = (trace w ++ [EvAcquire (attempts w)])%list.
Proof. cbn. auto. Qed.

Lemma sleep_frame (ms : Z) (w : world) :
  clock (_sleep e ms w) = clock w + timerDelay ms + lag e (awaits w) /\
  awaits (_sleep e ms w) = S (awaits w) /\
  trace (_sleep e ms w) = (trace w ++ [EvSleep ms])%list.
Proof. cbn. auto. Qed.

(** The delays slept from a loop head on stay within what is left of the
    budget, but for one poll; and the time that has passed when the loop
    returns is the delays slept plus the latencies of the awaited calls. *)
Lemma acquireLoop_slept (fuel retryCount : nat) (w : world)
    (r : result) (w' : world) :
  acquireLoop fuel e cfg reqId startTime retryCount w = Some (r, w') ->
  exists events n,
    trace w' = (trace w ++ events)%list /\
    sleptMs events <= Z.max 0 (queueTimeoutMs cfg - (clock w - startTime) + 499) /\
    awaits w' = (awaits w + n)%nat /\
    clock w' = clock w + sleptMs events + lagSum e (awaits w) n.
Proof.
  revert retryCount w.
  induction fuel as [|fuel IH]; intros retryCount w Hrun; [discriminate|].
  cbn [acquireLoop] in Hrun.
  destruct (Z.ltb_spec (clock w - startTime) (queueTimeoutMs cfg)) as [Hlt|Hge].
  2:{ injection Hrun as <- <-. exists [], 0%nat. rewrite app_nil_r. cbn [sleptMs lagSum].
      repeat split; lia. }
  change (acquireAccountRateLimit e w)
    with (replies e (attempts w), attempted e w) in Hrun.
  destruct (attempted_frame w) as (Hc & Ha & Ht).
  pose proof (lag_nonneg (awaits w)) as Hlag0.
  pose proof (lag_nonneg (S (awaits w))) as Hlag1.
  set (post := exists events n,
                 trace w' = (trace w ++ events)%list /\
                 sleptMs events
                   <= Z.max 0 (queueTimeoutMs cfg - (clock w - startTime) + 499) /\
                 awaits w' = (awaits w + n)%nat /\
                 clock w' = clock w + sleptMs events + lagSum e (awaits w) n).
  assert (Hdone : forall res, Some (res, attempted e w) = Some (r, w') -> post).
  { intros res [= <- <-]. exists [EvAcquire (attempts w)], 1%nat.
    split; [exact Ht|]. cbn [sleptMs lagSum]. repeat split; lia. }
  assert (Hgo : forall ms retry,
             (timerDelay ms <= 500 \/
              timerDelay ms
                <= queueTimeoutMs cfg - (clock (attempted e w) - startTime)) ->
             acquireLoop fuel e cfg reqId startTime retry
               (_sleep e ms (attempted e w)) = Some (r, w') ->
             post).
  { intros ms retry Hms Hrest.
    destruct (IH _ _ Hrest) as (events & n & Hev & Hsl & Haw & Hcl).
    destruct (sleep_frame ms (attempted e w)) as (Hsc & Hsa & Hst).
    rewrite Hst, Ht in Hev. rewrite Hsc, Hc, Ha in Hsl. rewrite Hc in Hms.
    rewrite Hsa, Ha in Haw, Hcl. rewrite Hsc, Hc, Ha in Hcl.
    exists ([EvAcquire (attempts w)] ++ [EvSleep ms] ++ events)%list, (S (S n)).
    split; [rewrite Hev, <- !app_assoc; reflexivity|].
    rewrite !sleptMs_app. cbn [sleptMs lagSum].
    pose proof (timerDelay_pos ms). repeat split; lia. }
  destruct (replies e (attempts w)) as [|rep]; [eauto|].
  destruct (acquired rep); [eauto|].
  destruct (negb (enableQueueing cfg)); [eauto|].
  cbv zeta in Hrun.
  match type of Hrun with
  | match ?x with Num _ => _ | NaN => _ end = _ => destruct x as [|wait]
  end.
  - eapply Hgo; [|exact Hrun]. left. apply pollInterval_le_max.
  - destruct (Z.ltb_spec (queueTimeoutMs cfg - (clock (attempted e w) - startTime)) wait);
      [eauto|].
    destruct (Z.ltb_spec 0 wait).
    + eapply Hgo; [|exact Hrun]. right.
      pose proof (timerDelay_bounds
                    (Z.min wait
                       (queueTimeoutMs cfg - (clock (attempted e w) - startTime)))).
      lia.
    + eapply Hgo; [|exact Hrun]. left. apply pollInterval_le_max.
Qed.



(** The time that has passed since [startTime] when the loop returns: less
    than the budget, one poll and the latencies of its last two awaited
    calls. *)
Lemma acquireLoop_elapsed (fuel retryCount : nat) (w : world)
    (r : result) (w' : world) :
  acquireLoop fuel e cfg reqId startTime retryCount w = Some (r, w') ->
  exists n,
    awaits w' = (awaits w + n)%nat /\
    (n = 0%nat -> clock w' = clock w) /\
    ((1 <= n)%nat -> clock w - startTime < queueTimeoutMs cfg) /\
    clock w' - startTime
      < Z.max (clock w - startTime + 1) (queueTimeoutMs cfg + 500)
        + lagSum e (awaits w' - Nat.min 2 n) (Nat.min 2 n).
Proof.
  revert retryCount w.
  induction fuel as [|fuel IH]; intros retryCount w Hrun; [discriminate|].
  cbn [acquireLoop] in Hrun.
  destruct (Z.ltb_spec (clock w - startTime) (queueTimeoutMs cfg)) as [Hlt|Hge].
  2:{ injection Hrun as <- <-. exists 0%nat. cbn [Nat.min lagSum].
      repeat split; lia. }
  change (acquireAccountRateLimit e w)
    with (replies e (attempts w), attempted e w) in Hrun.
  destruct (attempted_frame w) as (Hc & Ha & _).
  pose proof (lag_nonneg (awaits w)) as Hlag0.
  pose proof (lag_nonneg (S (awaits w))) as Hlag1.
  set (post := exists n,
                 awaits w' = (awaits w + n)%nat /\
                 (n = 0%nat -> clock w' = clock w) /\
                 ((1 <= n)%nat -> clock w - startTime < queueTimeoutMs cfg) /\
                 clock w' - startTime
                   < Z.max (clock w - startTime + 1) (queueTimeoutMs cfg + 500)
                     + lagSum e (awaits w' - Nat.min 2 n) (Nat.min 2 n)).
  assert (Hdone : forall res, Some (res, attempted e w) = Some (r, w') -> post).
  { intros res [= <- <-]. exists 1%nat. rewrite Ha, Hc.
    change (Nat.min 2 1) with 1%nat.
    replace (S (awaits w) - 1)%nat with (awaits w) by lia.
    cbn [lagSum]. repeat split; lia. }
  assert (Hgo : forall ms retry,
             (timerDelay ms <= 500 \/
              timerDelay ms
                <= queueTimeoutMs cfg - (clock (attempted e w) - startTime)) ->
             acquireLoop fuel e cfg reqId startTime retry
               (_sleep e ms (attempted e w)) = Some (r, w') ->
             post).
  { intros ms retry Hms Hrest.
    destruct (IH _ _ Hrest) as (n & Haw & Hzero & Hentered & Hbound).
    destruct (sleep_frame ms (attempted e w)) as (Hsc & Hsa & _).
    rewrite Hsa, Ha in Haw. rewrite Hsc, Hc, Ha in Hzero, Hentered, Hbound.
    rewrite Hc in Hms.
    exists (S (S n)). change (Nat.min 2 (S (S n))) with 2%nat.
    split; [lia|]. split; [discriminate|]. split; [intros _; exact Hlt|].
    destruct n as [|[|n]].
    - rewrite Haw, (Hzero eq_refl).
      replace (awaits w + 2 - 2)%nat with (awaits w) by lia.
      replace (S (S (awaits w)) + 0 - 2)%nat with (awaits w) in * by lia.
      cbn [lagSum]. lia.
    - specialize (Hentered (le_n 1)).
      change (Nat.min 2 1) with 1%nat in Hbound.
      rewrite Haw in *.
      replace (S (S (awaits w)) + 1 - 1)%nat with (S (S (awaits w))) in Hbound by lia.
      replace (S (S (awaits w)) + 1 - 2)%nat with (S (awaits w)) by lia.
      cbn [lagSum] in *.
      pose proof (lag_nonneg (S (S (awaits w)))).
      lia.
    - assert (Hone : (1 <= S (S n))%nat) by lia.
      specialize (Hentered Hone).
      change (Nat.min 2 (S (S n))) with 2%nat in Hbound.
      lia. }
  destruct (replies e (attempts w)) as [|rep]; [eauto|].
  destruct (acquired rep); [eauto|].
  destruct (negb (enableQueueing cfg)); [eauto|].
  cbv zeta in Hrun.
  match type of Hrun with
  | match ?x with Num _ => _ | NaN => _ end = _ => destruct x as [|wait]
  end.
  - eapply Hgo; [|exact Hrun]. left. apply pollInterval_le_max.
  - destruct (Z.ltb_spec (queueTimeoutMs cfg - (clock (attempted e w) - startTime)) wait);
      [eauto|].
    destruct (Z.ltb_spec 0 wait).
    + eapply Hgo; [|exact Hrun]. right.
      pose proof (timerDelay_bounds
                    (Z.min wait
                       (queueTimeoutMs cfg - (clock (attempted e w) - startTime)))).
      lia.
    + eapply Hgo; [|exact Hrun]. left. apply pollInterval_le_max.
Qed.

(** The latencies of [count] calls that take [L] at most. *)
Lemma lagSum_le (L : Z) (from count : nat) :
  (forall i, lag e i <= L) -> lagSum e from count <= Z.of_nat count * L.
Proof.
  intros HL. revert from.
  induction count as [|count IH]; intros from; cbn [lagSum]; [lia|].
  specialize (IH (S from)). specialize (HL from). lia.
Qed.

End Loop.

Lemma acquireRateLimit_loop (fuel : nat) (accountId : string)
    (requestId : option string) (w : world) :
  let cfg := (getAccountConfig e accountId w).1 in
  let w0 := (getAccountConfig e accountId w).2 in
  acquireRateLimit fuel e accountId requestId w =
    if negb (enabled cfg) then
      Some ({| r_acquired := true; r_requestId := orUuid e requestId;
               r_error := None; r_waitedMs := None; r_skipped := true |}, w0)
    else acquireLoop fuel e cfg (orUuid e requestId) (clock w0) 0 w0.
Proof.
  unfold acquireRateLimit. destruct (getAccountConfig e accountId w). reflexivity.
Qed.


(** C4, amended.  With queueing enabled, [acquireRateLimit] returns, and the
    delays it has slept on its timers add up to less than [queueTimeoutMs]
    plus one maximum poll interval (500 ms), whatever the store answers and
    however long its calls take.  The time that passes between [startTime]
    and the return is those delays plus the latencies of all the awaited
    calls of the run, and it is less than [queueTimeoutMs] plus 500 ms plus
    the latencies of the last two awaited calls: [queueTimeoutMs + 500 + 2 L]
    when no call takes longer than [L].  The deadline is checked at the head
    of every iteration; a computed wait beyond the remaining budget fails at
    once with [queue_timeout], nothing being slept; and a computed wait that
    is slept is within the remaining budget. *)
Theorem acquire_blocks_at_most_timeout
    (fuel : nat) (accountId : string) (requestId : option string) (w : world) :
  let cfg := (getAccountConfig e accountId w).1 in
  let w0 := (getAccountConfig e accountId w).2 in
  let timeout := queueTimeoutMs cfg in
  (forall n, 0 <= lag e n) ->
  enableQueueing cfg = true ->
  (Z.to_nat timeout < fuel)%nat ->
  (exists r w' events,
      acquireRateLimit fuel e accountId requestId w = Some (r, w') /\
      trace w' = (trace w ++ events)%list /\
      let n := (awaits w' - awaits w0)%nat in
      let last := Nat.min 2 n in
      sleptMs events < Z.max 0 timeout + 500 /\
      clock w' - clock w0 = sleptMs events + lagSum e (awaits w0) n /\
      clock w' - clock w0
        < Z.max 0 timeout + 500 + lagSum e (awaits w' - last) last /\
      forall L,
        (forall i, lag e i <= L) ->
        clock w' - clock w0 < Z.max 0 timeout + 500 + 2 * L) /\
  (forall reqId startTime retryCount n lw,
      timeout <= clock lw - startTime ->
      acquireLoop (S n) e cfg reqId startTime retryCount lw =
        Some (failed reqId "queue_timeout", lw)) /\
  (forall reqId startTime retryCount n lw rep oldest window,
      clock lw - startTime < timeout ->
      replies e (attempts lw) = StoreReplies rep ->
      acquired rep = false ->
      oldestRequestTime rep = Some oldest -> oldest <> 0 ->
      windowSeconds cfg = Num window ->
      let wait := Z.max 0 (oldest + window * 1000 - clock (attempted e lw)) in
      let remaining := timeout - (clock (attempted e lw) - startTime) in
      (remaining < wait ->
       acquireLoop (S n) e cfg reqId startTime retryCount lw =
         Some (failed reqId "queue_timeout", attempted e lw)) /\
      (0 < wait <= remaining ->
       acquireLoop (S n) e cfg reqId startTime retryCount lw =
         acquireLoop n e cfg reqId startTime retryCount
           (_sleep e (Z.min wait remaining) (attempted e lw)) /\
       timerDelay (Z.min wait remaining) <= remaining)).
Proof.
  intros cfg w0 timeout Hlag Hqueue Hfuel. split; [|split].
  - rewrite acquireRateLimit_loop. fold cfg w0.
    destruct (getAccountConfig_frame accountId w) as (Hc & Ht & Haw & _).
    fold w0 in Hc, Ht, Haw.
    destruct (negb (enabled cfg)).
    + eexists _, _, []. rewrite app_nil_r.
      split; [reflexivity|]. split; [exact Ht|].
      rewrite Nat.sub_diag. cbn [Nat.min lagSum sleptMs].
      repeat split; try lia.
      intros L HL. pose proof (Hlag 0%nat). pose proof (HL 0%nat). lia.
    + destruct (acquireLoop_returns cfg (orUuid e requestId) (clock w0) Hlag
                  fuel 0%nat w0) as [[r w'] Hrun].
      { replace (clock _ - clock _) with 0 by lia. rewrite Z.sub_0_r. exact Hfuel. }
      destruct (acquireLoop_slept _ _ _ Hlag _ _ _ _ _ Hrun)
        as (events & n & Hev & Hslept & Hn & Hclock).
      destruct (acquireLoop_elapsed _ _ _ Hlag _ _ _ _ _ Hrun)
        as (n' & Hn' & _ & _ & Helapsed).
      assert (n' = n) as -> by lia.
      exists r, w', events. rewrite Ht in Hev.
      split; [exact Hrun|]. split; [exact Hev|].
      replace (awaits w' - awaits w0)%nat with n by lia.
      cbv zeta. fold timeout in Hslept, Helapsed.
      assert (Hbound : clock w' - clock w0
                         < Z.max 0 timeout + 500
                           + lagSum e (awaits w' - Nat.min 2 n) (Nat.min 2 n))
        by lia.
      split; [lia|]. split; [lia|]. split; [exact Hbound|].
      intros L HL.
      pose proof (lagSum_le L (awaits w' - Nat.min 2 n) (Nat.min 2 n) HL) as Hsum.
      pose proof (Hlag 0%nat). pose proof (HL 0%nat).
      assert (Z.of_nat (Nat.min 2 n) * L <= 2 * L) by nia.
      lia.
  - intros reqId startTime retryCount n lw Hover. cbn [acquireLoop].
    fold timeout. destruct (Z.ltb_spec (clock lw - startTime) timeout); [lia|].
    reflexivity.
  - intros reqId startTime retryCount n lw rep oldest window
      Hin Hrep Hacq Hold Hnz Hwin wait remaining.
    cbn [acquireLoop]. fold timeout.
    destruct (Z.ltb_spec (clock lw - startTime) timeout); [|lia].
    change (acquireAccountRateLimit e lw)
      with (replies e (attempts lw), attempted e lw).
    rewrite Hrep, Hacq, Hqueue, Hold, Hwin. cbn [negb].
    destruct (Z.eqb_spec oldest 0); [contradiction|].
    cbn [num_add num_mul num_sub Math_max]. fold wait. fold remaining.
    split.
    + intros Hlt. destruct (Z.ltb_spec remaining wait); [reflexivity|lia].
    + intros [Hpos Hle].
      destruct (Z.ltb_spec remaining wait); [lia|].
      destruct (Z.ltb_spec 0 wait); [|lia].
      split; [reflexivity|].
      pose proof (timerDelay_bounds (Z.min wait remaining)). lia.
Qed.

End RateLimitFacts.


(** C4, as stated, fails when the store is slow: in the scenario every
    awaited call takes 900 ms, the budget is 1000 ms, and the call returns
    1850 ms after [startTime], more than the budget and one maximum poll
    interval. *)
Lemma acquire_outlasts_timeout_on_slow_store :
  let e := Scenario.limiterSlowStore in
  let w := Scenario.limiterWorld in
  let cfg := (RateLimit.getAccountConfig e "a1" w).1 in
  RateLimit.enableQueueing cfg = true /\
  RateLimit.queueTimeoutMs cfg = 1000 /\
  exists r w',
    RateLimit.acquireRateLimit 1001 e "a1" None w = Some (r, w') /\
    RateLimit.trace w' = [EvAcquire 0; EvSleep 50] /\
    RateLimit.clock w' - RateLimit.clock w = 1850 /\
    RateLimit.queueTimeoutMs cfg + 500 < RateLimit.clock w' - RateLimit.clock w.
Proof.
  intros e w cfg. split; [reflexivity|]. split; [reflexivity|].
  destruct (RateLimit.acquireRateLimit 1001 e "a1" None w) as [[r w']|] eqn:Hrun;
    [|vm_compute in Hrun; discriminate Hrun].
  exists r, w'. split; [reflexivity|].
  vm_compute in Hrun. injection Hrun as <- <-.
  split; [reflexivity|]. split; reflexivity.
Qed.

Lemma acquire_blocks_at_most_timeout_witness :
  let e := Scenario.limiterWindowFull in
  let w := Scenario.limiterWorld in
  let cfg := (RateLimit.getAccountConfig e "a1" w).1 in
  let w0 := (RateLimit.getAccountConfig e "a1" w).2 in
  (forall n, 0 <= RateLimit.lag e n) /\
  RateLimit.enableQueueing cfg = true /\
  (Z.to_nat (RateLimit.queueTimeoutMs cfg) < 1001)%nat /\
  exists r w' events,
    RateLimit.acquireRateLimit 1001 e "a1" None w = Some (r, w') /\
    RateLimit.trace w' = (RateLimit.trace w ++ events)%list /\
    sleptMs events < Z.max 0 (RateLimit.queueTimeoutMs cfg) + 500 /\
    RateLimit.clock w' - RateLimit.clock w0
      < Z.max 0 (RateLimit.queueTimeoutMs cfg) + 500 + 2 * 0.
Proof.
  intros e w cfg w0.
  assert (H1 : forall n, 0 <= RateLimit.lag e n) by (intros n; cbn; lia).
  assert (H2 : RateLimit.enableQueueing cfg = true) by reflexivity.
  assert (H3 : (Z.to_nat (RateLimit.queueTimeoutMs cfg) < 1001)%nat)
    by (apply Nat.ltb_lt; vm_compute; reflexivity).
  assert (H4 : forall i, RateLimit.lag e i <= 0) by (intros i; cbn; lia).
  split; [exact H1|]. split; [exact H2|]. split; [exact H3|].
  destruct (proj1 (acquire_blocks_at_most_timeout e 1001 "a1" None w H1 H2 H3))
    as (r & w' & events & Hrun & Htrace & Hslept & _ & _ & Hfast).
  exists r, w', events.
  split; [exact Hrun|]. split; [exact Htrace|]. split; [exact Hslept|].
  exact (Hfast 0 H4).
Defined.

(** The two scenarios, run. *)
Example limiter_store_down_run :
  (RateLimit.acquireRateLimit 1001 Scenario.limiterStoreDown "a1" None
     Scenario.limiterWorld) =
  Some (RateLimit.failed "00000000-0000-4000-8000-000000000000"
          "rate_limit_backend_error",
        {| RateLimit.clock := 1700000000000; RateLimit.awaits := 1;
           RateLimit.attempts := 1;
           RateLimit.reg := {| Registry.hashes := ∅; Registry.calls := 8 |};
           RateLimit.trace := [EvAcquire 0] |}).
Proof. vm_compute. reflexivity. Qed.

Example limiter_window_full_run :
  let out := RateLimit.acquireRateLimit 1001 Scenario.limiterWindowFull "a1" None
               Scenario.limiterWorld in
  (fun x => (RateLimit.r_acquired x.1, RateLimit.r_waitedMs x.1,
             RateLimit.trace x.2)) <$> out =
  Some (true, Some 300, [EvAcquire 0; EvSleep 300; EvAcquire 1]).
Proof. vm_compute. reflexivity. Qed.

(** The poll interval: 50 ms at first, growing by half at each retry, capped
    at 500 ms, with 15 % of jitter either way. *)
Example pollInterval_values :
  Qfloor (RateLimit.pollInterval 0 (1 # 2)) = 50 /\
  Qfloor (RateLimit.pollInterval 3 0) = 143 /\
  Qfloor (RateLimit.pollInterval 3 (999 # 1000)) = 194 /\
  Qfloor (RateLimit.pollInterval 10 (999 # 1000)) = 500.
Proof. vm_compute. repeat split; reflexivity. Qed.

(** ** The account registry *)

Section RegistryFacts.

Import Registry.

Variable fault : nat -> storeOp -> bool.

Lemma readHash_writeHash (key : string) (h : hash) (s : state) :
  readHash (writeHash key h s) key = h.
Proof.
  unfold readHash, writeHash. cbn.
  destruct (decide (h = ∅)) as [->|Hne].
  - now rewrite lookup_delete_eq.
  - now rewrite lookup_insert_eq.
Qed.

Lemma lookup_writeHash_ne (key key' : string) (h : hash) (s : state) :
  key <> key' -> hashes (writeHash key h s) !! key' = hashes s !! key'.
Proof.
  intros Hne. unfold writeHash. cbn.
  destruct (decide (h = ∅)).
  - now rewrite lookup_delete_ne.
  - now rewrite lookup_insert_ne.
Qed.

Lemma readHash_called (s : state) (key : string) :
  readHash (called s) key = readHash s key.
Proof. reflexivity. Qed.

(** Reading never changes a record, whatever throws. *)
Lemma getAccountDataFrom_hashes (types : list string) (accountId : string) (s : state) :
  hashes (getAccountDataFrom fault types accountId s).2 = hashes s.
Proof.
  revert s. induction types as [|t types IH]; intros s; [reflexivity|].
  cbn [getAccountDataFrom]. unfold hgetall.
  destruct (fault (calls s) OpHgetall).
  - rewrite IH. reflexivity.
  - destruct (bool_decide _); [reflexivity|]. rewrite IH. reflexivity.
Qed.

(** When no call throws, [_getAccountData] finds the first record. *)
Lemma getAccountDataFrom_locate (types : list string) (accountId : string) (s : state) :
  (forall n op, fault n op = false) ->
  (getAccountDataFrom fault types accountId s).1
  = snd <$> locate types accountId (hashes s).
Proof.
  intros Hnf. revert s. induction types as [|t types IH]; intros s; [reflexivity|].
  cbn [getAccountDataFrom locate]. unfold hgetall. rewrite Hnf.
  change (default ∅ (hashes s !! accountKey t accountId))
    with (readHash s (accountKey t accountId)).
  destruct (bool_decide _) eqn:Hd; [reflexivity|].
  rewrite IH. reflexivity.
Qed.

(** A record found is not empty. *)
Lemma locate_nonempty (types : list string) (accountId : string)
    (hs : gmap string (gmap string string)) (t : string) (h : hash) :
  locate types accountId hs = Some (t, h) ->
  h <> ∅ /\ default ∅ (hs !! accountKey t accountId) = h /\ t ∈ types.
Proof.
  induction types as [|t0 types IH]; [discriminate|].
  cbn [locate]. destruct (bool_decide _) eqn:Hd.
  - intros [= <- <-]. apply bool_decide_eq_true in Hd.
    split; [exact Hd|]. split; [reflexivity|]. apply list_elem_of_here.
  - intros H. destruct (IH H) as (? & ? & ?).
    split; [assumption|]. split; [assumption|]. now apply list_elem_of_further.
Qed.

(** Rewriting the record found keeps it the one found, as long as it is not
    emptied. *)
Lemma locate_rewritten (types : list string) (accountId : string)
    (hs hs' : gmap string (gmap string string)) (t : string) (h h' : hash) :
  locate types accountId hs = Some (t, h) ->
  h' <> ∅ ->
  default ∅ (hs' !! accountKey t accountId) = h' ->
  (forall key, key <> accountKey t accountId -> hs' !! key = hs !! key) ->
  locate types accountId hs' = Some (t, h').
Proof.
  intros Hloc Hne Hnew Hoff.
  induction types as [|t0 types IH]; [discriminate|].
  cbn [locate] in *.
  destruct (bool_decide (default ∅ (hs !! accountKey t0 accountId) ≠ ∅)) eqn:Hd.
  - injection Hloc as <- <-. rewrite Hnew.
    now rewrite bool_decide_eq_true_2.
  - destruct (locate_nonempty _ _ _ _ _ Hloc) as (Hh & Hread & _).
    assert (Hkey : accountKey t0 accountId <> accountKey t accountId).
    { intros Heq. rewrite Heq, Hread in Hd.
      apply bool_decide_eq_false in Hd. now apply Hd. }
    rewrite (Hoff _ Hkey), Hd. now apply IH.
Qed.

(** The keys of different accounts differ. *)
Lemma accountKey_inj (t t' accountId accountId' : string) :
  t ∈ accountTypes -> t' ∈ accountTypes ->
  accountKey t accountId = accountKey t' accountId' ->
  t = t' /\ accountId = accountId'.
Proof.
  unfold accountTypes, accountKey. intros Ht Ht'.
  repeat (apply elem_of_cons in Ht as [->|Ht]);
    try (now apply elem_of_nil in Ht);
    repeat (apply elem_of_cons in Ht' as [->|Ht']);
    try (now apply elem_of_nil in Ht');
    cbn; intros Heq; simplify_eq; auto.
Qed.

End RegistryFacts.

(** ** The circuit breaker *)

Section BreakerFacts.

Import Registry Breaker.

Variable e : env.

Lemma onlyAccount_refl (accountId : string) (s s' : Registry.state) :
  hashes s' = hashes s -> onlyAccount accountId s s'.
Proof. intros H key _. now rewrite H. Qed.

Lemma onlyAccount_trans (accountId : string) (s1 s2 s3 : Registry.state) :
  onlyAccount accountId s1 s2 -> onlyAccount accountId s2 s3 ->
  onlyAccount accountId s1 s3.
Proof. intros H12 H23 key Hkey. rewrite H23, H12; auto. Qed.

(** *** What a call may touch, whatever throws *)

Lemma getAccountData_frame (accountId : string) (w : world) :
  let w' := (_getAccountData e accountId w).2 in
  clock w' = clock w /\ errors403 w' = errors403 w /\
  hashes (reg w') = hashes (reg w).
Proof.
  unfold _getAccountData, Registry._getAccountData.
  pose proof (getAccountDataFrom_hashes (fault e) accountTypes accountId (reg w)) as H.
  destruct (getAccountDataFrom _ _ _ _) as [data r]. cbn in *. auto.
Qed.

Lemma getAccountConfig_keeps (accountId : string) (w : world) :
  let w' := (getAccountConfig e accountId w).2 in
  clock w' = clock w /\ errors403 w' = errors403 w /\
  hashes (reg w') = hashes (reg w).
Proof.
  unfold getAccountConfig.
  pose proof (getAccountData_frame accountId w) as H.
  destruct (_getAccountData e accountId w) as [[data|] w1]; exact H.
Qed.

Lemma collectUpdates_frame (key : string)
    (updates : list (string * option string)) (updateObj : list (string * string))
    (r : Registry.state) (key' : string) :
  key <> key' ->
  hashes (collectUpdates e key updates updateObj r).2 !! key' = hashes r !! key'.
Proof.
  intros Hne. revert updateObj r.
  induction updates as [|[field [value|]] updates IH]; intros updateObj r;
    cbn [collectUpdates]; [reflexivity|apply IH|].
  unfold hdel. destruct (fault e (calls r) OpHdel); [reflexivity|].
  rewrite IH. unfold called. cbn [hashes]. now apply lookup_writeHash_ne.
Qed.

Lemma updateFrom_frame (types : list string) (accountId : string)
    (updates : list (string * option string)) (r : Registry.state) (key' : string) :
  (forall t, t ∈ types -> key' <> accountKey t accountId) ->
  hashes (updateFrom e types accountId updates r).2 !! key' = hashes r !! key'.
Proof.
  revert r. induction types as [|t types IH]; intros r Hkey; [reflexivity|].
  assert (Hne : accountKey t accountId <> key').
  { intros Heq. apply (Hkey t); [apply list_elem_of_here|now symmetry]. }
  assert (Hrest : forall r0, hashes (updateFrom e types accountId updates r0).2 !! key'
                             = hashes r0 !! key').
  { intros r0. apply IH. intros t' Ht'. apply Hkey. now apply list_elem_of_further. }
  cbn [updateFrom]. unfold exists_.
  destruct (fault e (calls r) OpExists); [now rewrite Hrest|].
  destruct (bool_decide _); [|now rewrite Hrest].
  pose proof (collectUpdates_frame (accountKey t accountId) updates [] (called r)
                key' Hne) as Hc.
  destruct (collectUpdates _ _ _ _ _) as [[obj|] r2]; cbn [snd] in Hc.
  - destruct obj as [|kv obj]; [exact Hc|].
    unfold hmset. destruct (fault e (calls r2) OpHmset).
    + rewrite Hrest. exact Hc.
    + cbn [snd]. unfold called. cbn [hashes].
      rewrite lookup_writeHash_ne by exact Hne. exact Hc.
  - rewrite Hrest. exact Hc.
Qed.

Lemma updateAccountBreakerState_frame (accountId : string)
    (updates : list (string * option string)) (w : world) :
  let w' := (_updateAccountBreakerState e accountId updates w).2 in
  clock w' = clock w /\ errors403 w' = errors403 w /\
  onlyAccount accountId (reg w) (reg w').
Proof.
  unfold _updateAccountBreakerState.
  destruct (getAccountData_frame accountId w) as (Hc & He & Hh).
  destruct (_getAccountData e accountId w) as [[data|] w1]; cbn [snd] in *.
  - pose proof (updateFrom_frame accountTypes accountId updates (reg w1)) as Hu.
    destruct (updateFrom _ _ _ _ _) as [ok r]. cbn in *.
    repeat split; try assumption.
    intros key Hkey. rewrite Hu by exact Hkey. now rewrite Hh.
  - repeat split; try assumption. now apply onlyAccount_refl.
Qed.

(** *** A store on which no call throws *)

Section Healthy.

Hypothesis healthy : forall n op, fault e n op = false.

Lemma getAccountData_healthy (accountId : string) (w : world) :
  (_getAccountData e accountId w).1 = accountRecord (reg w) accountId.
Proof.
  unfold _getAccountData, Registry._getAccountData, accountRecord.
  pose proof (getAccountDataFrom_locate (fault e) accountTypes accountId (reg w)
                healthy) as H.
  destruct (getAccountDataFrom _ _ _ _) as [data r]. exact H.
Qed.

Lemma collectUpdates_healthy (key : string)
    (updates : list (string * option string)) (updateObj : list (string * string))
    (r : Registry.state) :
  let out := collectUpdates e key updates updateObj r in
  out.1 = Some (updateObj ++ assigned updates)%list /\
  readHash (out.2) key = deleted updates (readHash r key).
Proof.
  revert updateObj r.
  induction updates as [|[field [value|]] updates IH]; intros updateObj r;
    cbn [collectUpdates deleted assigned].
  - rewrite app_nil_r. split; reflexivity.
  - destruct (IH (updateObj ++ [(field, value)])%list r) as [H1 H2].
    rewrite <- app_assoc in H1. split; assumption.
  - unfold hdel. rewrite healthy.
    destruct (IH updateObj (called (writeHash key (delete field (readHash r key)) r)))
      as [H1 H2].
    split; [exact H1|]. rewrite H2. rewrite readHash_called, readHash_writeHash.
    reflexivity.
Qed.

(** The update lands on the record that [_getAccountData] finds, and on it
    alone. *)
Lemma updateFrom_healthy (types : list string) (accountId : string)
    (updates : list (string * option string)) (r : Registry.state)
    (t : string) (h : hash) :
  locate types accountId (hashes r) = Some (t, h) ->
  let out := updateFrom e types accountId updates r in
  out.1 = true /\
  readHash (out.2) (accountKey t accountId) = updated updates h /\
  forall key, key <> accountKey t accountId ->
              hashes (out.2) !! key = hashes r !! key.
Proof.
  revert r. induction types as [|t0 types IH]; intros r Hloc; [discriminate|].
  cbn [locate] in Hloc. cbn [updateFrom]. unfold exists_. rewrite healthy.
  change (default ∅ (hashes r !! accountKey t0 accountId))
    with (readHash r (accountKey t0 accountId)) in Hloc.
  destruct (bool_decide (readHash r (accountKey t0 accountId) ≠ ∅)) eqn:Hd.
  - injection Hloc as <- <-.
    destruct (collectUpdates_healthy (accountKey t0 accountId) updates []
                (called r)) as [H1 H2].
    pose proof (collectUpdates_frame (accountKey t0 accountId) updates []
                  (called r)) as H3.
    destruct (collectUpdates _ _ _ _ _) as [obj r2]. cbn [fst snd] in H1, H2, H3.
    subst obj. cbn [app]. rewrite readHash_called in H2. unfold updated.
    destruct (assigned updates) as [|kv obj] eqn:Hobj.
    + split; [reflexivity|]. split; [exact H2|].
      intros key Hkey. apply H3. congruence.
    + unfold hmset. rewrite healthy. cbn [fst snd]. split; [reflexivity|].
      split.
      * rewrite readHash_called, readHash_writeHash, H2. reflexivity.
      * intros key Hkey. unfold called. cbn [hashes].
        rewrite lookup_writeHash_ne by congruence. apply H3. congruence.
  - apply (IH (called r)). exact Hloc.
Qed.

Lemma updateAccountBreakerState_healthy (accountId : string)
    (updates : list (string * option string)) (w : world) (t : string) (h : hash) :
  locate accountTypes accountId (hashes (reg w)) = Some (t, h) ->
  let out := _updateAccountBreakerState e accountId updates w in
  out.1 = true /\
  readHash (reg (out.2)) (accountKey t accountId) = updated updates h /\
  forall key, key <> accountKey t accountId ->
              hashes (reg (out.2)) !! key = hashes (reg w) !! key.
Proof.
  intros Hloc. unfold _updateAccountBreakerState.
  pose proof (getAccountData_healthy accountId w) as Hd.
  destruct (getAccountData_frame accountId w) as (_ & _ & Hh).
  unfold accountRecord in Hd. rewrite Hloc in Hd.
  destruct (_getAccountData e accountId w) as [data w1]. cbn [fst snd] in *.
  subst data. rewrite <- Hh in Hloc.
  destruct (updateFrom_healthy accountTypes accountId updates (reg w1) t h Hloc)
    as (H1 & H2 & H3).
  destruct (updateFrom _ _ _ _ _) as [ok r]. cbn in *.
  rewrite <- Hh. auto.
Qed.

(** After an update that does not empty it, the record of the account is
    the updated one. *)
Lemma accountRecord_updated (accountId : string)
    (updates : list (string * option string)) (w : world) (h : hash) :
  accountRecord (reg w) accountId = Some h ->
  updated updates h <> ∅ ->
  let out := _updateAccountBreakerState e accountId updates w in
  out.1 = true /\
  accountRecord (reg (out.2)) accountId = Some (updated updates h).
Proof.
  unfold accountRecord. intros Hrec Hne.
  destruct (locate accountTypes accountId (hashes (reg w))) as [[t h0]|] eqn:Hloc;
    [|discriminate].
  injection Hrec as ->.
  destruct (updateAccountBreakerState_healthy accountId updates w t h Hloc)
    as (H1 & H2 & H3).
  split; [exact H1|].
  erewrite locate_rewritten; [reflexivity|exact Hloc|exact Hne|exact H2|exact H3].
Qed.

End Healthy.

Lemma accountRecord_hashes (r r' : Registry.state) (accountId : string) :
  hashes r' = hashes r -> accountRecord r' accountId = accountRecord r accountId.
Proof. unfold accountRecord. now intros ->. Qed.

Lemma halfOpen_frame (accountId : string) (w : world) :
  let out := halfOpenCircuitBreaker e accountId w in
  out.1 = true /\ clock (out.2) = clock w /\ errors403 (out.2) = errors403 w /\
  onlyAccount accountId (reg w) (reg (out.2)).
Proof.
  unfold halfOpenCircuitBreaker.
  pose proof (updateAccountBreakerState_frame accountId
                [("error403BreakerState", Some "half_open")] w) as H.
  destruct (_updateAccountBreakerState _ _ _ _) as [ok w1]. cbn in *. tauto.
Qed.

Lemma openCircuitBreaker_frame (accountId : string) (cfg : config) (w : world) :
  let out := openCircuitBreaker e accountId cfg w in
  out.2 = (_updateAccountBreakerState e accountId (openFields cfg (clock w)) w).2 /\
  clock (out.2) = clock w /\ errors403 (out.2) = errors403 w /\
  onlyAccount accountId (reg w) (reg (out.2)).
Proof.
  unfold openCircuitBreaker.
  pose proof (updateAccountBreakerState_frame accountId (openFields cfg (clock w)) w)
    as H.
  unfold openFields in *.
  destruct (_updateAccountBreakerState _ _ _ _) as [ok w1]. cbn in *. tauto.
Qed.

(** C5.  [checkAndRecoverBreaker] on an account whose breaker state, as
    [_getAccountData] reads it, is not [open] changes nothing and reports
    [recovered = false].  On an [open] account whose [openUntil] parses to a
    number: from [openUntil] on it reports [recovered = true] with state
    [half_open] and, the store being healthy, the record of the account
    then has the state [half_open], its other fields being kept; before
    [openUntil] it changes nothing and reports [recovered = false], state
    [open] and [remainingMs = openUntil - now]. *)
Theorem checkAndRecoverBreaker_spec (accountId : string) (w : world) :
  let data := (_getAccountData e accountId w).1 in
  let state := data ≫= (fun d => d !! "error403BreakerState") in
  let out := checkAndRecoverBreaker e accountId w in
  (state <> Some "open" ->
   recovered (out.1) = false /\
   rc_state (out.1) = orElse state "closed" /\
   hashes (reg (out.2)) = hashes (reg w) /\
   errors403 (out.2) = errors403 w) /\
  (forall (d : hash) (openUntil : Z),
      data = Some d ->
      d !! "error403BreakerState" = Some "open" ->
      parseInt (orElse (d !! "error403BreakerOpenUntil") "0") = Num openUntil ->
      (openUntil <= clock w ->
       out.1 = {| recovered := true; rc_state := "half_open"; remainingMs := None |} /\
       errors403 (out.2) = errors403 w /\
       ((forall n op, fault e n op = false) ->
        accountRecord (reg (out.2)) accountId
        = Some (<["error403BreakerState" := "half_open"]> d))) /\
      (clock w < openUntil ->
       out.1 = {| recovered := false; rc_state := "open";
                  remainingMs := Some (Num (openUntil - clock w)) |} /\
       hashes (reg (out.2)) = hashes (reg w) /\
       errors403 (out.2) = errors403 w)).
Proof.
  intros data state out. subst data state out. unfold checkAndRecoverBreaker.
  destruct (getAccountData_frame accountId w) as (Hc & He & Hh).
  pose proof (fun H => getAccountData_healthy H accountId w) as Hrec.
  destruct (_getAccountData e accountId w) as [[d|] w1]; cbn [fst snd] in *.
  2:{ split; [auto|]. intros d openUntil [=]. }
  cbn [mbind option_bind].
  split.
  - intros Hstate. rewrite bool_decide_eq_false_2 by exact Hstate. cbn. auto.
  - intros d' openUntil [= <-] Hopen Hparse.
    rewrite bool_decide_eq_true_2 by exact Hopen. cbn [negb].
    rewrite Hparse, Hc. cbn [num_geb num_sub].
    split.
    + intros Hle. destruct (Z.leb_spec openUntil (clock w)); [|lia].
      destruct (halfOpen_frame accountId w1) as (_ & _ & He1 & _).
      pose proof (accountRecord_updated) as Hupd.
      unfold halfOpenCircuitBreaker in *.
      destruct (_updateAccountBreakerState e accountId _ w1) as [ok w2] eqn:Hrun.
      cbn [fst snd] in *. split; [reflexivity|]. split; [congruence|].
      intros Hhealthy.
      specialize (Hupd Hhealthy accountId
                    [("error403BreakerState", Some "half_open")] w1 d).
      rewrite Hrun in Hupd. cbn [fst snd] in Hupd. apply Hupd.
      * rewrite (accountRecord_hashes _ _ _ Hh). symmetry. now apply Hrec.
      * cbn. apply insert_non_empty.
    + intros Hlt. destruct (Z.leb_spec openUntil (clock w)); [lia|].
      cbn. auto.
Qed.

Lemma redis_record403Error_ok (accountId : string) (windowSeconds : Z) (w : world) :
  fault e (calls (reg w)) OpRecord403 = false ->
  redis_record403Error e accountId windowSeconds w =
    (Some (windowCount (clock w) windowSeconds
             (failuresOf w accountId ++ [clock w])%list),
     setErrors (<[accountId := (failuresOf w accountId ++ [clock w])%list]>
                  (errors403 w)) w).
Proof. unfold redis_record403Error. now intros ->. Qed.

Lemma redis_record403Error_frame (accountId : string) (windowSeconds : Z) (w : world) :
  let out := redis_record403Error e accountId windowSeconds w in
  clock (out.2) = clock w /\ hashes (reg (out.2)) = hashes (reg w) /\
  (forall other, other <> accountId ->
                 errors403 (out.2) !! other = errors403 w !! other) /\
  (out.1 = None -> errors403 (out.2) = errors403 w).
Proof.
  unfold redis_record403Error.
  destruct (fault e (calls (reg w)) OpRecord403); cbn; repeat split; auto.
  - intros other Hne. now rewrite lookup_insert_ne.
  - discriminate.
Qed.

(** Recording a failure for one account leaves the records and the failures
    of every other account as they were, whatever throws. *)
Lemma record403Error_isolated (accountId other : string) (w : world) :
  other <> accountId ->
  let out := record403Error e accountId w in
  (forall t, t ∈ accountTypes ->
             hashes (reg (out.2)) !! accountKey t other
             = hashes (reg w) !! accountKey t other) /\
  errors403 (out.2) !! other = errors403 w !! other.
Proof.
  intros Hne. unfold record403Error.
  destruct (getAccountConfig_keeps accountId w) as (Hc0 & He0 & Hh0).
  destruct (getAccountConfig e accountId w) as [cfg w1]. cbn [fst snd] in *.
  destruct (negb (enabled cfg)); cbn [snd].
  { rewrite Hh0, He0. auto. }
  destruct (redis_record403Error_frame accountId (windowSeconds cfg) w1)
    as (Hc1 & Hh1 & He1 & _).
  destruct (redis_record403Error e accountId (windowSeconds cfg) w1)
    as [[count|] w2]; cbn [fst snd] in *.
  2:{ rewrite Hh1, Hh0, (He1 other Hne), He0. auto. }
  destruct (num_geb (Num count) (threshold cfg)); cbn [snd].
  2:{ rewrite Hh1, Hh0, (He1 other Hne), He0. auto. }
  destruct (openCircuitBreaker_frame accountId cfg w2) as (_ & _ & He2 & Hh2).
  destruct (openCircuitBreaker e accountId cfg w2) as [ok w3]. cbn [fst snd] in *.
  split.
  - intros t Ht. rewrite Hh2, Hh1, Hh0; [reflexivity|].
    intros t' Ht' Heq.
    destruct (accountKey_inj t t' other accountId Ht Ht' Heq) as [_ ?]. auto.
  - rewrite He2, (He1 other Hne), He0. reflexivity.
Qed.

(** C3.  With the breaker disabled by the resolved configuration,
    [record403Error] returns the state [disabled] and records nothing.
    Otherwise, on a healthy store, it appends one failure timestamp, the
    current instant, to the window of the account and reads the count back;
    when that count reaches the threshold it returns [triggered = true] with
    state [open], and the record of an existing account then holds the
    state [open] with [openAt] and [openUntil]; below the threshold it
    returns [triggered = false] with state [closed] and changes no record.
    Whatever throws, the records and the failures of every other account
    are left as they were. *)
Theorem record403Error_spec (accountId : string) (w : world) :
  let cfg := (getAccountConfig e accountId w).1 in
  let out := record403Error e accountId w in
  (enabled cfg = false ->
   out.1 = Some {| triggered := false; errorCount := 0;
                   rr_threshold := threshold cfg; rr_state := "disabled" |} /\
   errors403 (out.2) = errors403 w /\
   hashes (reg (out.2)) = hashes (reg w)) /\
  (enabled cfg = true ->
   (forall n op, fault e n op = false) ->
   let count :=
     windowCount (clock w) (windowSeconds cfg)
                 (failuresOf w accountId ++ [clock w])%list in
   failuresOf (out.2) accountId = (failuresOf w accountId ++ [clock w])%list /\
   (num_geb (Num count) (threshold cfg) = true ->
    out.1 = Some {| triggered := true; errorCount := count;
                    rr_threshold := threshold cfg; rr_state := "open" |} /\
    forall d,
      accountRecord (reg w) accountId = Some d ->
      accountRecord (reg (out.2)) accountId
      = Some (updated (openFields cfg (clock w)) d)) /\
   (num_geb (Num count) (threshold cfg) = false ->
    out.1 = Some {| triggered := false; errorCount := count;
                    rr_threshold := threshold cfg; rr_state := "closed" |} /\
    hashes (reg (out.2)) = hashes (reg w))) /\
  (forall other,
      other <> accountId ->
      (forall t, t ∈ accountTypes ->
                 hashes (reg (out.2)) !! accountKey t other
                 = hashes (reg w) !! accountKey t other) /\
      errors403 (out.2) !! other = errors403 w !! other).
Proof.
  intros cfg out. split; [|split].
  3:{ intros other Hne. now apply record403Error_isolated. }
  - subst cfg out. unfold record403Error.
    destruct (getAccountConfig_keeps accountId w) as (Hc0 & He0 & Hh0).
    destruct (getAccountConfig e accountId w) as [cfg w1]. cbn [fst snd] in *.
    intros ->. cbn. auto.
  - subst cfg out. unfold record403Error.
    destruct (getAccountConfig_keeps accountId w) as (Hc0 & He0 & Hh0).
    destruct (getAccountConfig e accountId w) as [cfg w1]. cbn [fst snd] in *.
    intros -> Hhealthy. cbn [negb].
    rewrite redis_record403Error_ok by apply Hhealthy.
    assert (Hf : failuresOf w1 accountId = failuresOf w accountId)
      by (unfold failuresOf; now rewrite He0).
    rewrite Hf, Hc0.
    set (count := windowCount (clock w) (windowSeconds cfg) _).
    set (w2 := setErrors _ w1).
    assert (Hw2 : failuresOf w2 accountId
                  = (failuresOf w accountId ++ [clock w])%list).
    { unfold failuresOf at 1. subst w2. cbn. now rewrite lookup_insert_eq. }
    destruct (num_geb (Num count) (threshold cfg)) eqn:Hge.
    + destruct (openCircuitBreaker_frame accountId cfg w2) as (_ & _ & He2 & _).
      pose proof (accountRecord_updated Hhealthy accountId
                    (openFields cfg (clock w2)) w2) as Hupd.
      unfold openCircuitBreaker in *. fold (openFields cfg (clock w2)) in *.
      destruct (_updateAccountBreakerState e accountId _ w2) as [ok w3].
      cbn [fst snd] in *.
      split; [unfold failuresOf in *; now rewrite He2|].
      split; [|discriminate]. intros _. split; [reflexivity|].
      intros d Hd.
      assert (Hclock : clock w2 = clock w) by (subst w2; cbn; exact Hc0).
      rewrite Hclock in Hupd. apply (Hupd d).
      * subst w2. cbn. rewrite <- Hd. now apply accountRecord_hashes.
      * unfold updated, openFields. cbn. apply insert_non_empty.
    + cbn [fst snd]. split; [exact Hw2|]. split; [discriminate|].
      intros _. split; [reflexivity|]. subst w2. cbn. exact Hh0.
Qed.

Lemma closedRecord_fields (d : hash) :
  closedRecord d !! "error403BreakerState" = Some "closed" /\
  closedRecord d !! "error403BreakerOpenAt" = None /\
  closedRecord d !! "error403BreakerOpenUntil" = None.
Proof. unfold closedRecord. repeat split; now simplify_map_eq. Qed.

Lemma closedRecord_idemp (d : hash) : closedRecord (closedRecord d) = closedRecord d.
Proof.
  unfold closedRecord. apply map_eq. intros k.
  destruct (decide (k = "error403BreakerState")) as [->|H1];
    [now simplify_map_eq|].
  destruct (decide (k = "error403BreakerOpenUntil")) as [->|H2];
    [now simplify_map_eq|].
  destruct (decide (k = "error403BreakerOpenAt")) as [->|H3];
    now simplify_map_eq.
Qed.

Lemma checkAndRecoverBreaker_errors (accountId : string) (w : world) :
  errors403 (checkAndRecoverBreaker e accountId w).2 = errors403 w.
Proof.
  unfold checkAndRecoverBreaker.
  destruct (getAccountData_frame accountId w) as (_ & He & _).
  destruct (_getAccountData e accountId w) as [[d|] w1]; cbn [fst snd] in *;
    [|exact He].
  destruct (negb _); [exact He|].
  destruct (num_geb _ _); [|exact He].
  destruct (halfOpen_frame accountId w1) as (_ & _ & He1 & _).
  destruct (halfOpenCircuitBreaker e accountId w1) as [ok w2]. cbn in *. congruence.
Qed.

Lemma getBreakerStatus_errors (accountId : string) (w : world) :
  errors403 (getBreakerStatus e accountId w).2 = errors403 w.
Proof.
  unfold getBreakerStatus.
  destruct (getAccountData_frame accountId w) as (_ & He & _).
  destruct (_getAccountData e accountId w) as [data w1]. cbn [fst snd] in *.
  unfold redis_get403ErrorCount.
  destruct (fault e (calls (reg w1)) OpCount403); [exact He|].
  match goal with
  | |- context [getAccountConfig e accountId ?w2] =>
      destruct (getAccountConfig_keeps accountId w2) as (_ & He2 & _);
      destruct (getAccountConfig e accountId w2) as [cfg w3]
  end.
  cbn [fst snd] in *.
  assert (errors403 w3 = errors403 w) by (rewrite He2; exact He).
  repeat case_match; assumption.
Qed.

Lemma record403Error_keeps (accountId account : string) (w : world) :
  exists more,
    failuresOf (record403Error e accountId w).2 account
    = (failuresOf w account ++ more)%list.
Proof.
  destruct (decide (account = accountId)) as [->|Hne].
  2:{ exists []. rewrite app_nil_r. unfold failuresOf.
      now rewrite (proj2 (record403Error_isolated accountId account w Hne)). }
  unfold record403Error.
  destruct (getAccountConfig_keeps accountId w) as (Hc0 & He0 & _).
  destruct (getAccountConfig e accountId w) as [cfg w1]. cbn [fst snd] in *.
  assert (Hf : failuresOf w1 accountId = failuresOf w accountId)
    by (unfold failuresOf; now rewrite He0).
  destruct (negb (enabled cfg)); cbn [snd].
  { exists []. now rewrite app_nil_r. }
  unfold redis_record403Error.
  destruct (fault e (calls (reg w1)) OpRecord403).
  { exists []. now rewrite app_nil_r. }
  set (w2 := setErrors _ w1).
  assert (Hw2 : failuresOf w2 accountId
                = (failuresOf w accountId ++ [clock w1])%list).
  { unfold failuresOf at 1. subst w2. cbn. rewrite lookup_insert_eq.
    now rewrite Hf. }
  destruct (num_geb _ _); cbn [snd]; [|eauto].
  destruct (openCircuitBreaker_frame accountId cfg w2) as (_ & _ & He2 & _).
  destruct (openCircuitBreaker e accountId cfg w2) as [ok w3]. cbn [fst snd] in *.
  exists [clock w1]. unfold failuresOf in *. now rewrite He2.
Qed.

(** C8.  On a healthy store and for an existing account,
    [closeCircuitBreaker] succeeds, clears the failure history of the
    account and leaves its record with the state [closed] and without
    [openAt] and [openUntil]; a second call succeeds as well and leaves the
    same record and an empty history.  [halfOpenCircuitBreaker] sets the
    state [half_open] and keeps the history, and so do, whatever throws,
    [openCircuitBreaker], [checkAndRecoverBreaker] and [getBreakerStatus];
    [record403Error] only ever adds to it. *)
Theorem closeCircuitBreaker_spec (accountId : string) (w : world) (d : hash) :
  (forall n op, fault e n op = false) ->
  accountRecord (reg w) accountId = Some d ->
  let once := closeCircuitBreaker e accountId w in
  let twice := closeCircuitBreaker e accountId (once.2) in
  let half := halfOpenCircuitBreaker e accountId w in
  (once.1 = true /\
   failuresOf (once.2) accountId = [] /\
   accountRecord (reg (once.2)) accountId = Some (closedRecord d) /\
   accountField (reg (once.2)) accountId "error403BreakerState" = Some "closed" /\
   accountField (reg (once.2)) accountId "error403BreakerOpenAt" = None /\
   accountField (reg (once.2)) accountId "error403BreakerOpenUntil" = None) /\
  (twice.1 = true /\
   failuresOf (twice.2) accountId = [] /\
   accountRecord (reg (twice.2)) accountId = Some (closedRecord d)) /\
  (errors403 (half.2) = errors403 w /\
   accountRecord (reg (half.2)) accountId
   = Some (<["error403BreakerState" := "half_open"]> d)) /\
  (forall cfg account,
      errors403 (openCircuitBreaker e account cfg w).2 = errors403 w /\
      errors403 (checkAndRecoverBreaker e account w).2 = errors403 w /\
      errors403 (getBreakerStatus e account w).2 = errors403 w /\
      exists more,
        failuresOf (record403Error e account w).2 accountId
        = (failuresOf w accountId ++ more)%list).
Proof.
  intros Hhealthy Hd once twice half.
  assert (Hclose : forall w0 d0,
             accountRecord (reg w0) accountId = Some d0 ->
             let out := closeCircuitBreaker e accountId w0 in
             out.1 = true /\ failuresOf (out.2) accountId = [] /\
             accountRecord (reg (out.2)) accountId = Some (closedRecord d0)).
  { intros w0 d0 Hd0. unfold closeCircuitBreaker, redis_clear403Errors.
    rewrite Hhealthy.
    set (w1 := setErrors _ w0).
    destruct (updateAccountBreakerState_frame accountId closeFields w1)
      as (_ & He & _).
    pose proof (accountRecord_updated Hhealthy accountId closeFields w1 d0) as Hupd.
    unfold closeFields in *.
    destruct (_updateAccountBreakerState e accountId _ w1) as [ok w2].
    cbn [fst snd] in *. split; [reflexivity|]. split.
    - unfold failuresOf. rewrite He. subst w1. cbn. now rewrite lookup_delete_eq.
    - apply Hupd; [exact Hd0|]. cbn. apply insert_non_empty. }
  destruct (Hclose w d Hd) as (H1 & H2 & H3).
  split; [|split; [|split]].
  - fold once in H1, H2, H3. repeat split; try assumption.
    all: unfold accountField; rewrite H3; cbn; apply closedRecord_fields.
  - destruct (Hclose (once.2) (closedRecord d) H3) as (H4 & H5 & H6).
    rewrite closedRecord_idemp in H6. auto.
  - subst half. destruct (halfOpen_frame accountId w) as (_ & _ & He & _).
    split; [exact He|].
    pose proof (accountRecord_updated Hhealthy accountId
                  [("error403BreakerState", Some "half_open")] w d Hd) as Hupd.
    unfold halfOpenCircuitBreaker.
    destruct (_updateAccountBreakerState e accountId _ w) as [ok w1].
    cbn [fst snd] in *. apply Hupd. cbn. apply insert_non_empty.
  - intros cfg account.
    destruct (openCircuitBreaker_frame account cfg w) as (_ & _ & He & _).
    split; [exact He|]. split; [apply checkAndRecoverBreaker_errors|].
    split; [apply getBreakerStatus_errors|]. apply record403Error_keeps.
Qed.

Lemma getBreakerStatus_count (accountId : string) (w : world) :
  let out := getBreakerStatus e accountId w in
  st_state (out.1) = "error" /\ st_errorCount (out.1) = 0 \/
  st_errorCount (out.1) = windowCount (clock w) 300 (failuresOf w accountId).
Proof.
  unfold getBreakerStatus.
  destruct (getAccountData_frame accountId w) as (Hc & He & _).
  destruct (_getAccountData e accountId w) as [data w1]. cbn [fst snd] in *.
  unfold redis_get403ErrorCount.
  destruct (fault e (calls (reg w1)) OpCount403); [left; split; reflexivity|].
  assert (Hcount : windowCount (clock w1) 300 (failuresOf w1 accountId)
                   = windowCount (clock w) 300 (failuresOf w accountId))
    by (unfold failuresOf; now rewrite Hc, He).
  rewrite Hcount.
  destruct (getAccountConfig e accountId _) as [cfg w3].
  repeat case_match; cbn; auto.
Qed.

End BreakerFacts.

Lemma locate_empty (types : list string) (accountId : string) :
  Registry.locate types accountId ∅ = None.
Proof.
  induction types as [|t types IH]; [reflexivity|].
  cbn [Registry.locate]. rewrite lookup_empty. cbn.
  rewrite bool_decide_eq_false_2 by auto. exact IH.
Qed.

(** C9.  [getBreakerStatus] reports the number of failures of the last 300
    seconds, whatever the configured window: its [errorCount] is the count
    of the window of 300 seconds (or 0 with the state [error] when the call
    fails).  So for every configured [windowSeconds] other than 300 there is
    a state of the store in which the [errorCount] it reports differs from
    the count over the configured window, the one [record403Error] compares
    with the threshold. *)
Theorem getBreakerStatus_fixed_window
    (e : Breaker.env) (accountId : string) (w : Breaker.world) (windowSecs : Z) :
  windowSecs <> 300 ->
  (let out := Breaker.getBreakerStatus e accountId w in
   Breaker.st_state (out.1) = "error" /\ Breaker.st_errorCount (out.1) = 0 \/
   Breaker.st_errorCount (out.1)
   = Breaker.windowCount (Breaker.clock w) 300 (Breaker.failuresOf w accountId)) /\
  (exists e' w',
      Breaker.windowSeconds (Breaker.getAccountConfig e' accountId w').1 = windowSecs /\
      let out := Breaker.getBreakerStatus e' accountId w' in
      Breaker.st_state (out.1) = "closed" /\
      Breaker.st_errorCount (out.1)
      <> Breaker.windowCount (Breaker.clock w') windowSecs
           (Breaker.failuresOf w' accountId)).
Proof.
  intros Hws. split; [apply getBreakerStatus_count|].
  set (now := 1700000000000).
  set (t := if windowSecs <? 300 then now - 299999 else now - 300000).
  exists {| Breaker.getConfig :=
              {| Breaker.enabled := true; Breaker.threshold := Num 3;
                 Breaker.windowSeconds := windowSecs;
                 Breaker.breakerDurationMinutes := Num 30;
                 Breaker.autoRecovery := true |};
            Breaker.fault := fun _ _ => false |},
         {| Breaker.clock := now;
            Breaker.reg := {| Registry.hashes := ∅; Registry.calls := 0 |};
            Breaker.errors403 := {[ accountId := [t] ]} |}.
  set (e' := {| Breaker.getConfig := _ |}). set (w' := {| Breaker.clock := _ |}).
  assert (Hhealthy : forall n op, Breaker.fault e' n op = false) by reflexivity.
  assert (Hnone : forall w0, Registry.hashes (Breaker.reg w0) = ∅ ->
                             (Breaker._getAccountData e' accountId w0).1 = None).
  { intros w0 H0. rewrite (getAccountData_healthy e' Hhealthy).
    unfold Registry.accountRecord. now rewrite H0, locate_empty. }
  assert (Hcfg : forall w0, Registry.hashes (Breaker.reg w0) = ∅ ->
                            (Breaker.getAccountConfig e' accountId w0).1
                            = Breaker.getConfig e').
  { intros w0 H0. unfold Breaker.getAccountConfig.
    specialize (Hnone w0 H0).
    destruct (Breaker._getAccountData e' accountId w0) as [[d|] w1];
      [discriminate|reflexivity]. }
  split; [now rewrite Hcfg|].
  unfold Breaker.getBreakerStatus.
  pose proof (Hnone w' eq_refl) as Hdata.
  destruct (getAccountData_frame e' accountId w') as (Hc & He & Hh).
  destruct (Breaker._getAccountData e' accountId w') as [data w1].
  cbn [fst snd] in *. subst data.
  unfold Breaker.redis_get403ErrorCount. rewrite Hhealthy.
  destruct (Breaker.getAccountConfig e' accountId _) as [cfg w3].
  cbn [fst snd Breaker.st_state Breaker.st_errorCount].
  split; [reflexivity|].
  unfold Breaker.failuresOf. rewrite Hc, He. subst w'. cbn [Breaker.errors403 Breaker.clock].
  rewrite lookup_singleton_eq. cbn [from_option id].
  unfold Breaker.windowCount, Breaker.inWindow. cbn [List.filter].
  subst t now.
  destruct (Z.ltb_spec windowSecs 300).
  - destruct (Z.ltb_spec (1700000000000 - 300 * 1000) (1700000000000 - 299999));
      [|lia].
    destruct (Z.ltb_spec (1700000000000 - windowSecs * 1000) (1700000000000 - 299999));
      [lia|]. cbn. lia.
  - destruct (Z.ltb_spec (1700000000000 - 300 * 1000) (1700000000000 - 300000));
      [lia|].
    destruct (Z.ltb_spec (1700000000000 - windowSecs * 1000) (1700000000000 - 300000));
      [|lia]. cbn. lia.
Qed.

Section BreakerFailures.

Import Registry Breaker.

Variable e : env.

Lemma collectUpdates_all_set (key : string)
    (updates : list (string * option string)) (updateObj : list (string * string))
    (r : Registry.state) :
  Forall (fun u => is_Some u.2) updates ->
  (collectUpdates e key updates updateObj r).2 = r.
Proof.
  intros Hall. revert updateObj.
  induction Hall as [|[field [value|]] updates Hu Hall IH]; intros updateObj;
    cbn [collectUpdates]; [reflexivity|apply IH|].
  destruct Hu as [? [=]].
Qed.

(** When every [hmset] throws, an update that deletes no field changes no
    record. *)
Lemma updateFrom_writes_fail (types : list string) (accountId : string)
    (updates : list (string * option string)) (r : Registry.state) :
  (forall n, fault e n OpHmset = true) ->
  Forall (fun u => is_Some u.2) updates ->
  hashes (updateFrom e types accountId updates r).2 = hashes r.
Proof.
  intros Hfail Hall. revert r.
  induction types as [|t types IH]; intros r; [reflexivity|].
  cbn [updateFrom]. unfold exists_.
  destruct (fault e (calls r) OpExists); [now rewrite IH|].
  destruct (bool_decide _); [|now rewrite IH].
  pose proof (collectUpdates_all_set (accountKey t accountId) updates []
                (called r) Hall) as Hc.
  destruct (collectUpdates _ _ _ _ _) as [[obj|] r2]; cbn [snd] in Hc; subst r2.
  - destruct obj as [|kv obj]; [reflexivity|].
    unfold hmset. rewrite Hfail. now rewrite IH.
  - now rewrite IH.
Qed.

(** C10.  [record403Error] drops the result of [openCircuitBreaker]: once
    the count that the store reads back reaches the threshold it returns
    [triggered = true] with state [open], whatever throws afterwards; and
    when the record of the account is found under no account type, or when
    every [hmset] on the store throws, no record has changed. *)
Theorem record403Error_reports_open_regardless
    (accountId : string) (w : world) (count : Z) (w2 : world) :
  let cfg := (getAccountConfig e accountId w).1 in
  let w1 := (getAccountConfig e accountId w).2 in
  let out := record403Error e accountId w in
  enabled cfg = true ->
  redis_record403Error e accountId (windowSeconds cfg) w1 = (Some count, w2) ->
  num_geb (Num count) (threshold cfg) = true ->
  out.1 = Some {| triggered := true; errorCount := count;
                  rr_threshold := threshold cfg; rr_state := "open" |} /\
  ((_getAccountData e accountId w2).1 = None \/
   (forall n, fault e n OpHmset = true) ->
   hashes (reg (out.2)) = hashes (reg w)).
Proof.
  intros cfg w1 out Hen Hrec Hge. subst cfg w1 out. unfold record403Error.
  destruct (getAccountConfig_keeps e accountId w) as (_ & _ & Hh0).
  destruct (getAccountConfig e accountId w) as [cfg w1]. cbn [fst snd] in *.
  rewrite Hen. cbn [negb].
  destruct (redis_record403Error_frame e accountId (windowSeconds cfg) w1)
    as (_ & Hh1 & _).
  rewrite Hrec in *. cbn [fst snd] in *. rewrite Hge.
  unfold openCircuitBreaker, _updateAccountBreakerState.
  destruct (getAccountData_frame e accountId w2) as (_ & _ & Hh2).
  destruct (_getAccountData e accountId w2) as [[d|] w3]; cbn [fst snd] in *.
  - pose proof (updateFrom_writes_fail accountTypes accountId
                  (openFields cfg (clock w2)) (reg w3)) as Hu.
    unfold openFields in Hu.
    destruct (updateFrom _ _ _ _ _) as [ok r]. cbn [fst snd] in *.
    split; [reflexivity|]. intros [[=]|Hfail].
    cbn [reg setReg]. rewrite Hu; [congruence|exact Hfail|].
    repeat constructor; eexists; reflexivity.
  - split; [reflexivity|]. intros _. congruence.
Qed.

End BreakerFailures.

(** ** The scenarios of the specification, run *)

(** Threshold scenario: the third failure of [A] within the window opens its
    breaker, and a failure of [B] afterwards leaves the state of [A]. *)
Example threshold_scenario :
  (Scenario.threeFailures Scenario.healthyStore).1
  = Some {| Breaker.triggered := true; Breaker.errorCount := 3;
            Breaker.rr_threshold := Num 3; Breaker.rr_state := "open" |} /\
  Registry.accountRecord (Breaker.reg Scenario.opened) "A"
  = Some {[ "name" := "first";
            "error403BreakerState" := "open";
            "error403BreakerOpenAt" := "1700000120000";
            "error403BreakerOpenUntil" := "1700001920000" ]} /\
  (Scenario.thenOneForB Scenario.healthyStore).1
  = Some {| Breaker.triggered := false; Breaker.errorCount := 1;
            Breaker.rr_threshold := Num 3; Breaker.rr_state := "closed" |} /\
  Registry.accountRecord
    (Breaker.reg (Scenario.thenOneForB Scenario.healthyStore).2) "A"
  = Registry.accountRecord (Breaker.reg Scenario.opened) "A".
Proof. vm_compute. repeat split; reflexivity. Qed.

(** Cooldown scenario: 29 minutes after the opening the breaker stays open,
    one minute being left; 31 minutes after it the account is half open. *)
Example cooldown_scenario :
  (Breaker.checkAndRecoverBreaker Scenario.healthyStore "A"
     (Breaker.atInstant (1700000120000 + 29 * 60000) Scenario.opened)).1
  = {| Breaker.recovered := false; Breaker.rc_state := "open";
       Breaker.remainingMs := Some (Num 60000) |} /\
  let out := Breaker.checkAndRecoverBreaker Scenario.healthyStore "A"
               (Breaker.atInstant (1700000120000 + 31 * 60000) Scenario.opened) in
  out.1 = {| Breaker.recovered := true; Breaker.rc_state := "half_open";
             Breaker.remainingMs := None |} /\
  Registry.accountField (Breaker.reg (out.2)) "A" "error403BreakerState"
  = Some "half_open".
Proof. vm_compute. repeat split; reflexivity. Qed.

(** With a window of 600 seconds, a failure aged 400 seconds counts for
    [record403Error] and not for [getBreakerStatus]. *)
Example status_window_scenario :
  let e := {| Breaker.getConfig :=
                {| Breaker.enabled := true; Breaker.threshold := Num 3;
                   Breaker.windowSeconds := 600;
                   Breaker.breakerDurationMinutes := Num 30;
                   Breaker.autoRecovery := true |};
              Breaker.fault := fun _ _ => false |} in
  let w0 := (Breaker.record403Error e "A" Scenario.twoAccounts).2 in
  let recorded := Breaker.record403Error e "A"
                    (Breaker.atInstant 1700000400000 w0) in
  Breaker.errorCount <$> recorded.1 = Some 2 /\
  Breaker.st_errorCount (Breaker.getBreakerStatus e "A" (recorded.2)).1 = 1.
Proof. vm_compute. split; reflexivity. Qed.

(** When every [hmset] throws, the third failure is still answered with
    [triggered = true] and state [open], and the record of [A] has no
    breaker state. *)
Example writes_fail_scenario :
  (Scenario.threeFailures Scenario.writesFail).1
  = Some {| Breaker.triggered := true; Breaker.errorCount := 3;
            Breaker.rr_threshold := Num 3; Breaker.rr_state := "open" |} /\
  Registry.accountField (Breaker.reg (Scenario.threeFailures Scenario.writesFail).2)
    "A" "error403BreakerState" = None.
Proof. vm_compute. split; reflexivity. Qed.

Lemma closeCircuitBreaker_spec_witness :
  let e := Scenario.healthyStore in
  let w := Scenario.opened in
  let once := Breaker.closeCircuitBreaker e "A" w in
  let twice := Breaker.closeCircuitBreaker e "A" (once.2) in
  (forall n op, Breaker.fault e n op = false) /\
  Registry.accountRecord (Breaker.reg w) "A" = Some Scenario.openedRecord /\
  (once.1 = true /\
   Breaker.failuresOf (once.2) "A" = [] /\
   Registry.accountField (Breaker.reg (once.2)) "A" "error403BreakerState"
   = Some "closed") /\
  (twice.1 = true /\
   Registry.accountRecord (Breaker.reg (twice.2)) "A"
   = Registry.accountRecord (Breaker.reg (once.2)) "A").
Proof.
  intros e w once twice.
  assert (H1 : forall n op, Breaker.fault e n op = false) by reflexivity.
  assert (H2 : Registry.accountRecord (Breaker.reg w) "A"
               = Some Scenario.openedRecord) by (vm_compute; reflexivity).
  split; [exact H1|]. split; [exact H2|].
  destruct (closeCircuitBreaker_spec e "A" w Scenario.openedRecord H1 H2)
    as ((Ha & Hb & Hc & Hd & _) & (He & _ & Hf) & _).
  split; [repeat split; assumption|]. split; [exact He|].
  etransitivity; [exact Hf|]. symmetry. exact Hc.
Defined.

Lemma getBreakerStatus_fixed_window_witness :
  600 <> 300 /\
  exists e' w',
    Breaker.windowSeconds (Breaker.getAccountConfig e' "A" w').1 = 600 /\
    let out := Breaker.getBreakerStatus e' "A" w' in
    Breaker.st_state (out.1) = "closed" /\
    Breaker.st_errorCount (out.1)
    <> Breaker.windowCount (Breaker.clock w') 600 (Breaker.failuresOf w' "A").
Proof.
  assert (H : 600 <> 300) by discriminate.
  split; [exact H|].
  exact (proj2 (getBreakerStatus_fixed_window Scenario.healthyStore "A"
                  Scenario.twoAccounts 600 H)).
Defined.

Lemma record403Error_reports_open_regardless_witness :
  let e := Scenario.healthyStore in
  let w := Scenario.twoAccounts in
  let cfg := (Breaker.getAccountConfig e "ghost" w).1 in
  let w1 := (Breaker.getAccountConfig e "ghost" w).2 in
  let w2 := (Breaker.redis_record403Error e "ghost"
               (Breaker.windowSeconds cfg) w1).2 in
  let out := Breaker.record403Error e "ghost" w in
  Breaker.enabled cfg = true /\
  Breaker.redis_record403Error e "ghost" (Breaker.windowSeconds cfg) w1
  = (Some 3, w2) /\
  num_geb (Num 3) (Breaker.threshold cfg) = true /\
  (Breaker._getAccountData e "ghost" w2).1 = None /\
  out.1 = Some {| Breaker.triggered := true; Breaker.errorCount := 3;
                  Breaker.rr_threshold := Breaker.threshold cfg;
                  Breaker.rr_state := "open" |} /\
  Registry.hashes (Breaker.reg (out.2)) = Registry.hashes (Breaker.reg w).
Proof.
  intros e w cfg w1 w2 out.
  assert (H1 : Breaker.enabled cfg = true) by reflexivity.
  assert (H2 : Breaker.redis_record403Error e "ghost"
                 (Breaker.windowSeconds cfg) w1 = (Some 3, w2))
    by (vm_compute; reflexivity).
  assert (H3 : num_geb (Num 3) (Breaker.threshold cfg) = true) by reflexivity.
  assert (H4 : (Breaker._getAccountData e "ghost" w2).1 = None)
    by (vm_compute; reflexivity).
  repeat (split; [assumption|]).
  destruct (record403Error_reports_open_regardless e "ghost" w 3 w2 H1 H2 H3)
    as [Hr Hh].
  split; [exact Hr|]. apply Hh. left. exact H4.
Defined.

Lemma record403Error_spec_witness :
  let e := Scenario.healthyStore in
  let w := Scenario.twoFailures e in
  let cfg := (Breaker.getAccountConfig e "A" w).1 in
  let out := Breaker.record403Error e "A" w in
  Breaker.enabled cfg = true /\
  (forall n op, Breaker.fault e n op = false) /\
  num_geb (Num 3) (Breaker.threshold cfg) = true /\
  Breaker.failuresOf (out.2) "A"
  = [1700000000000; 1700000060000; 1700000120000] /\
  out.1 = Some {| Breaker.triggered := true; Breaker.errorCount := 3;
                  Breaker.rr_threshold := Breaker.threshold cfg;
                  Breaker.rr_state := "open" |}.
Proof.
  intros e w cfg out.
  assert (H1 : Breaker.enabled cfg = true) by reflexivity.
  assert (H2 : forall n op, Breaker.fault e n op = false) by reflexivity.
  assert (H3 : num_geb (Num 3) (Breaker.threshold cfg) = true) by reflexivity.
  repeat (split; [assumption|]).
  destruct (record403Error_spec e "A" w) as (_ & Henabled & _).
  destruct (Henabled H1 H2) as (Hfailures & Hopen & _).
  split; [exact Hfailures|]. exact (proj1 (Hopen H3)).
Defined.

Lemma checkAndRecoverBreaker_spec_witness :
  let e := Scenario.healthyStore in
  let w := Breaker.atInstant (1700000120000 + 31 * 60000) Scenario.opened in
  let out := Breaker.checkAndRecoverBreaker e "A" w in
  (Breaker._getAccountData e "A" w).1 = Some Scenario.openedRecord /\
  Scenario.openedRecord !! "error403BreakerState" = Some "open" /\
  parseInt (Breaker.orElse (Scenario.openedRecord !! "error403BreakerOpenUntil") "0")
  = Num 1700001920000 /\
  1700001920000 <= Breaker.clock w /\
  out.1 = {| Breaker.recovered := true; Breaker.rc_state := "half_open";
             Breaker.remainingMs := None |} /\
  Registry.accountRecord (Breaker.reg (out.2)) "A"
  = Some (<["error403BreakerState" := "half_open"]> Scenario.openedRecord).
Proof.
  intros e w out.
  assert (H1 : (Breaker._getAccountData e "A" w).1 = Some Scenario.openedRecord)
    by (vm_compute; reflexivity).
  assert (H2 : Scenario.openedRecord !! "error403BreakerState" = Some "open")
    by (vm_compute; reflexivity).
  assert (H3 : parseInt (Breaker.orElse
                           (Scenario.openedRecord !! "error403BreakerOpenUntil") "0")
               = Num 1700001920000) by (vm_compute; reflexivity).
  assert (H4 : 1700001920000 <= Breaker.clock w) by (vm_compute; discriminate).
  repeat (split; [assumption|]).
  destruct (checkAndRecoverBreaker_spec e "A" w) as (_ & Hopen).
  destruct (Hopen Scenario.openedRecord 1700001920000 H1 H2 H3) as (Hdue & _).
  destruct (Hdue H4) as (Hr & _ & Hrec).
  split; [exact Hr|]. apply Hrec. reflexivity.
Defined.

(** * Further properties

    ** [parseInt] reads back what [toString] writes *)

Lemma parseDigits_of_uint_acc (d : Decimal.uint) (acc : positive) :
  parseDigits 10 (NilEmpty.string_of_uint d) (Some (Z.pos acc)) =
    Some (Z.pos (Pos.of_uint_acc d acc)).
Proof.
  revert acc. induction d; intros acc; cbn [NilEmpty.string_of_uint parseDigits];
    [reflexivity|..];
    match goal with
    | |- context [digitValue 10 ?c] =>
        let v := eval vm_compute in (digitValue 10 c) in
        change (digitValue 10 c) with v
    end;
    cbv iota; cbn [from_option id Pos.of_uint_acc];
    rewrite <- IHd; f_equal; f_equal; lia.
Qed.

Lemma parseDigits_of_uint (d : Decimal.uint) :
  parseDigits 10 (NilEmpty.string_of_uint d) (Some 0) =
    Some (Z.of_N (Pos.of_uint d)).
Proof.
  induction d; cbn [NilEmpty.string_of_uint parseDigits];
    [reflexivity|..];
    match goal with
    | |- context [digitValue 10 ?c] =>
        let v := eval vm_compute in (digitValue 10 c) in
        change (digitValue 10 c) with v
    end;
    cbv iota; cbn [from_option id Pos.of_uint];
    [exact IHd|..];
    match goal with
    | |- parseDigits 10 _ (Some ?z) = _ =>
        let v := eval vm_compute in z in change z with v
    end;
    rewrite parseDigits_of_uint_acc; reflexivity.
Qed.

Lemma parseDigits_start (d : Decimal.uint) :
  d <> Decimal.Nil ->
  parseDigits 10 (NilEmpty.string_of_uint d) None =
    parseDigits 10 (NilEmpty.string_of_uint d) (Some 0).
Proof.
  destruct d; [contradiction|..]; reflexivity.
Qed.

(** A string that begins with a byte that begins no white space character
    has no white space to skip. *)
Lemma stripAny_head (chars : list (list nat)) (c : ascii) (s : string) :
  forallb (fun bytes => match bytes with
                        | b :: _ => negb (nat_of_ascii c =? b)%nat
                        | [] => false
                        end) chars = true ->
  stripAny chars (String c s) = None.
Proof.
  induction chars as [|bytes chars IH]; cbn [forallb stripAny]; [reflexivity|].
  intros [Hhead Hrest]%andb_true_iff.
  destruct bytes as [|b bytes]; [discriminate|].
  cbn [stripBytes]. apply negb_true_iff in Hhead. rewrite Hhead.
  now apply IH.
Qed.

Lemma skipWhiteSpace_head (c : ascii) (s : string) :
  forallb (fun bytes => match bytes with
                        | b :: _ => negb (nat_of_ascii c =? b)%nat
                        | [] => false
                        end) whiteSpaceChars = true ->
  skipWhiteSpace (String c s) = String c s.
Proof.
  intros Hc. unfold skipWhiteSpace. cbn [String.length trimStartWith].
  now rewrite stripAny_head.
Qed.

(** The digits of a number, read without and with a sign. *)
Lemma parseInt_digits (d : Decimal.uint) :
  d <> Decimal.Nil ->
  parseInt (NilEmpty.string_of_uint d) = Num (Z.of_N (Pos.of_uint d)) /\
  parseInt (String "-" (NilEmpty.string_of_uint d)) = Num (- Z.of_N (Pos.of_uint d)).
Proof.
  intros Hd.
  pose proof (parseDigits_start d Hd) as Hstart.
  rewrite parseDigits_of_uint in Hstart.
  assert (Hread : forall c s,
    skipWhiteSpace (String c s) = String c s ->
    c <> "-"%char -> c <> "+"%char ->
    (c = "0"%char ->
     match s with String "x" _ | String "X" _ => False | _ => True end) ->
    forall v, parseDigits 10 (String c s) None = Some v ->
    parseInt (String c s) = Num v /\ parseInt (String "-" (String c s)) = Num (- v)).
  { intros c s Hws Hminus Hplus Hzero v Hv. unfold parseInt.
    rewrite (skipWhiteSpace_head "-" (String c s) eq_refl), Hws.
    assert (Hradix :
      match String c s with
      | String "0" (String "x" r) | String "0" (String "X" r) => (16, r)
      | _ => (10, String c s)
      end = (10, String c s)).
    { destruct (Ascii.eqb_spec c "0") as [->|Hne].
      - specialize (Hzero eq_refl). destruct s as [|c' s']; [reflexivity|].
        destruct c' as [[|] [|] [|] [|] [|] [|] [|] [|]];
          try reflexivity; contradiction.
      - destruct c as [[|] [|] [|] [|] [|] [|] [|] [|]];
          try reflexivity; contradiction. }
    split.
    - destruct c as [[|] [|] [|] [|] [|] [|] [|] [|]];
        try contradiction; cbv iota beta; rewrite ?Hradix, Hv; reflexivity.
    - cbv iota beta. rewrite Hradix, Hv. reflexivity. }
  destruct d as [|d|d|d|d|d|d|d|d|d|d]; [contradiction|..];
    cbn [NilEmpty.string_of_uint] in *;
    (apply Hread;
       [apply skipWhiteSpace_head; reflexivity|discriminate|discriminate|
       |exact Hstart]);
    try discriminate.
  intros _. destruct d; exact I.
Qed.

Lemma string_of_uint_nonnil (d : Decimal.uint) :
  d <> Decimal.Nil -> NilZero.string_of_uint d = NilEmpty.string_of_uint d.
Proof. destruct d; [contradiction|..]; reflexivity. Qed.

Lemma parseInt_toString (z : Z) : parseInt (toString z) = Num z.
Proof.
  unfold toString. destruct z as [|p|p]; [reflexivity|..];
    cbn [Z.to_int NilZero.string_of_int];
    pose proof (DecimalPos.Unsigned.to_uint_nonnil p) as Hd;
    rewrite (string_of_uint_nonnil _ Hd).
  - rewrite (proj1 (parseInt_digits _ Hd)).
    now rewrite DecimalPos.Unsigned.of_to.
  - rewrite (proj2 (parseInt_digits _ Hd)).
    now rewrite DecimalPos.Unsigned.of_to.
Qed.

Lemma toString_nonempty (z : Z) : String.eqb (toString z) EmptyString = false.
Proof.
  unfold toString. destruct z as [|p|p]; [reflexivity| |reflexivity].
  cbn [Z.to_int NilZero.string_of_int].
  pose proof (DecimalPos.Unsigned.to_uint_nonnil p) as Hd.
  destruct (Pos.to_uint p); [contradiction|..]; reflexivity.
Qed.

(** [parseInt] on some strings; the white space it skips includes the
    characters outside ASCII (here U+00A0 and U+FEFF). *)
Example parseInt_values :
  parseInt " 42" = Num 42 /\
  parseInt "-7 days" = Num (-7) /\
  parseInt "0x1F" = Num 31 /\
  parseInt (String (ascii_of_nat 194) (String (ascii_of_nat 160) "5")) = Num 5 /\
  parseInt (String (ascii_of_nat 239)
              (String (ascii_of_nat 187) (String (ascii_of_nat 191) "12")))
    = Num 12 /\
  parseInt "soon" = NaN /\
  parseInt EmptyString = NaN /\
  parseInt "0x" = NaN.
Proof. vm_compute. repeat split; reflexivity. Qed.

(** ** The pacing guards over consecutive calls *)

Section PacingSequences.

Import RequestIntervalGuard.

Variable e : env.

Lemma timerDelay_id (ms : Z) : 1 <= ms <= TIMEOUT_MAX -> timerDelay ms = ms.
Proof.
  intros [H1 H2]. unfold timerDelay.
  destruct (Z.leb_spec 1 ms); [|lia].
  destruct (Z.leb_spec ms TIMEOUT_MAX); [reflexivity|lia].
Qed.

(** What the script reads of an entry that every writer of the guard leaves
    in the store: the timestamp until five seconds after it, nothing from
    then on. *)
Lemma kv_get_stamp (kv : kvstore) (t last : Z) (key : string) :
  kv !! key = Some (toString last, last + 5 * 1000) ->
  kv_get kv t key ≫= tonumber = if t <? last + 5 * 1000 then Some last else None.
Proof.
  intros H. unfold kv_get. rewrite H.
  destruct (t <? last + 5 * 1000); [|reflexivity].
  cbn. apply tonumber_toString.
Qed.

Lemma kv_get_stamp_decimal (kv : kvstore) (t last : Z) (key : string) :
  kv !! key = Some (toString last, last + 5 * 1000) ->
  forall s, kv_get kv t key = Some s -> is_Some (tonumber s).
Proof.
  intros H s. unfold kv_get. rewrite H.
  destruct (t <? last + 5 * 1000); [|discriminate].
  intros [= <-]. rewrite tonumber_toString. eauto.
Qed.

Lemma spaced_after_wait (minIntervalMs last now wait t : Z) :
  0 <= minIntervalMs ->
  specRequiredWait minIntervalMs now (Some last) = Some wait ->
  now + wait <= t ->
  spaced minIntervalMs last t.
Proof.
  unfold specRequiredWait, spaced. intros Hmin Hw Ht.
  destruct (Z.eqb_spec minIntervalMs 0) as [->|Hne].
  - destruct (Z.eqb_spec (now / 1000) (last / 1000)) as [Heq|]; [|discriminate].
    injection Hw as <-.
    apply Z.lt_le_trans with (now / 1000 + 1); [lia|].
    apply Z.div_le_lower_bound; [lia|].
    pose proof (Z.div_mod now 1000 ltac:(lia)). lia.
  - destruct (Z.ltb_spec (now - last) minIntervalMs); [|discriminate].
    injection Hw as <-. lia.
Qed.

Lemma spaced_without_conflict (minIntervalMs last now : Z) :
  0 <= minIntervalMs ->
  last <= now ->
  specRequiredWait minIntervalMs now (Some last) = None ->
  spaced minIntervalMs last now.
Proof.
  unfold specRequiredWait, spaced. intros Hmin Hle Hw.
  destruct (Z.eqb_spec minIntervalMs 0) as [->|Hne].
  - destruct (Z.eqb_spec (now / 1000) (last / 1000)) as [|Hne]; [discriminate|].
    pose proof (Z.div_le_mono last now 1000 ltac:(lia) Hle). lia.
  - destruct (Z.ltb_spec (now - last) minIntervalMs); [discriminate|]. lia.
Qed.

Lemma specRequiredWait_bound (minIntervalMs last now wait : Z) :
  0 <= minIntervalMs ->
  last <= now ->
  specRequiredWait minIntervalMs now (Some last) = Some wait ->
  1 <= wait <= Z.max 1000 minIntervalMs.
Proof.
  unfold specRequiredWait. intros Hmin Hle Hw.
  pose proof (Z.mod_pos_bound now 1000 ltac:(lia)).
  destruct (Z.eqb_spec minIntervalMs 0) as [->|Hne].
  - destruct (now / 1000 =? last / 1000); [|discriminate].
    injection Hw as <-. lia.
  - destruct (Z.ltb_spec (now - last) minIntervalMs); [|discriminate].
    injection Hw as <-. lia.
Qed.

(** X1.  Spacing on the store-backed path.  When the store holds the
    timestamp [last] of the previous admitted request and no store call
    fails, a request that [checkAndWait] admits is recorded, in the store
    and in the memory cache, with a timestamp that keeps the promised gap
    to [last]: another second in same-second mode, at least [minIntervalMs]
    later in spacing mode, for every interval up to the five seconds the
    store keeps a timestamp. *)
Theorem store_path_keeps_spacing
    (accountId accountType : string) (maxWaitMs minIntervalMs last : Z) (w : world) :
  let key := getRedisKey accountId accountType in
  let out := checkAndWait e accountId accountType maxWaitMs minIntervalMs w in
  getClient e = ClientReady ->
  (forall n, fault e n = false) ->
  (forall n, 0 <= lag e n) ->
  0 <= minIntervalMs <= 5000 ->
  store w !! key = Some (toString last, last + 5 * 1000) ->
  last <= clock w ->
  allowed (out.1) = true ->
  exists now,
    store (out.2) !! key = Some (toString now, now + 5 * 1000) /\
    MEMORY_CACHE (out.2) !! key = Some now /\
    clock w <= now <= clock (out.2) /\
    spaced minIntervalMs last now.
Proof.
  intros key out Hclient Hfault Hlag Hmin Hstore Hlast. subst out.
  unfold checkAndWait. rewrite Hclient. fold key.
  unfold _checkAndWaitWithRedis, clientEval. cbn [awaits emit store clock].
  rewrite Hfault.
  rewrite (luaScript_spec _ _ _ _ _ (proj1 Hmin) (kv_get_stamp_decimal _ _ _ _ Hstore)).
  rewrite (kv_get_stamp _ _ _ _ Hstore).
  destruct (Z.ltb_spec (clock w) (last + 5 * 1000)) as [Hlive|Hgone].
  - destruct (specRequiredWait minIntervalMs (clock w) (Some last))
      as [wait|] eqn:Hwait.
    + pose proof (specRequiredWait_bound _ _ _ _ (proj1 Hmin) Hlast Hwait) as Hb.
      change (0 =? 1) with false. cbv iota.
      destruct (Z.ltb_spec maxWaitMs wait); [discriminate|].
      intros _. unfold clientSetex, sleep, memSet, tick, setStore.
      cbn [awaits emit store clock MEMORY_CACHE trace].
      rewrite Hfault. cbn [fst snd awaits emit store clock MEMORY_CACHE trace].
      rewrite timerDelay_id by (unfold TIMEOUT_MAX; lia).
      pose proof (Hlag (awaits w)). pose proof (Hlag (S (awaits w))).
      pose proof (Hlag (S (S (awaits w)))).
      eexists. split; [apply lookup_insert_eq|].
      split; [apply lookup_insert_eq|].
      split; [lia|].
      eapply spaced_after_wait; [apply Hmin|exact Hwait|lia].
    + rewrite Z.eqb_refl. intros _. unfold memSet, tick, setStore.
      cbn [fst snd awaits emit store clock MEMORY_CACHE trace].
      pose proof (Hlag (awaits w)).
      exists (clock w). split; [apply lookup_insert_eq|].
      split; [apply lookup_insert_eq|].
      split; [lia|].
      apply spaced_without_conflict; [apply Hmin|assumption|assumption].
  - cbn [specRequiredWait]. rewrite Z.eqb_refl. intros _.
    unfold memSet, tick, setStore.
    cbn [fst snd awaits emit store clock MEMORY_CACHE trace].
    pose proof (Hlag (awaits w)).
    exists (clock w). split; [apply lookup_insert_eq|].
    split; [apply lookup_insert_eq|].
    split; [lia|].
    unfold spaced. destruct (Z.eqb_spec minIntervalMs 0) as [->|Hne]; [|lia].
    apply Z.lt_le_trans with ((last + 5 * 1000) / 1000).
    + replace (last + 5 * 1000) with (last + 5 * 1000)%Z by reflexivity.
      rewrite Z.div_add by lia. lia.
    + apply Z.div_le_mono; lia.
Qed.

(** X2.  The store forgets after five seconds.  A timestamp is written with
    a time to live of five seconds whatever the interval is; in spacing mode
    with an interval above five seconds, a request that arrives after the
    five seconds but before the interval has elapsed finds no timestamp and
    is admitted at once. *)
Theorem store_path_forgets_after_ttl
    (accountId accountType : string) (maxWaitMs minIntervalMs last : Z) (w : world) :
  let key := getRedisKey accountId accountType in
  let out := checkAndWait e accountId accountType maxWaitMs minIntervalMs w in
  getClient e = ClientReady ->
  fault e (awaits w) = false ->
  store w !! key = Some (toString last, last + 5 * 1000) ->
  last + 5000 <= clock w < last + minIntervalMs ->
  out.1 = {| allowed := true; waitedMs := 0 |} /\
  store (out.2) !! key = Some (toString (clock w), clock w + 5 * 1000) /\
  MEMORY_CACHE (out.2) !! key = Some (clock w) /\
  List.filter isSleep (trace (out.2)) = List.filter isSleep (trace w).
Proof.
  intros key out Hclient Hfault Hstore Hgap. subst out.
  unfold checkAndWait. rewrite Hclient. fold key.
  unfold _checkAndWaitWithRedis, clientEval. cbn [awaits emit store clock].
  rewrite Hfault.
  assert (Hmin : 0 <= minIntervalMs) by lia.
  rewrite (luaScript_spec _ _ _ _ _ Hmin (kv_get_stamp_decimal _ _ _ _ Hstore)).
  rewrite (kv_get_stamp _ _ _ _ Hstore).
  destruct (Z.ltb_spec (clock w) (last + 5 * 1000)); [lia|].
  cbn [specRequiredWait]. rewrite Z.eqb_refl. unfold memSet, tick, setStore.
  cbn [fst snd awaits emit store clock MEMORY_CACHE trace].
  split; [reflexivity|]. split; [apply lookup_insert_eq|].
  split; [apply lookup_insert_eq|].
  rewrite !List.filter_app. cbn. now rewrite !app_nil_r.
Qed.

(** X3.  Spacing on the memory path.  When the memory path decides (there is
    no store client, or the script call fails) on the cached timestamp
    [last] of the previous admitted request, a request that it admits is
    cached with a timestamp that keeps the promised gap to [last]; the
    cache has no time to live, so this holds for every interval a timer can
    wait for. *)
Theorem memory_path_keeps_spacing
    (accountId accountType : string) (maxWaitMs minIntervalMs last : Z) (w : world) :
  let key := getRedisKey accountId accountType in
  let out := checkAndWait e accountId accountType maxWaitMs minIntervalMs w in
  (getClient e = ClientReady -> fault e (awaits w) = true) ->
  (forall n, 0 <= lag e n) ->
  0 <= minIntervalMs <= TIMEOUT_MAX ->
  MEMORY_CACHE w !! key = Some last ->
  0 < last <= clock w ->
  allowed (out.1) = true ->
  exists now,
    MEMORY_CACHE (out.2) !! key = Some now /\
    clock w <= now <= clock (out.2) /\
    spaced minIntervalMs last now.
Proof.
  intros key out Hpath Hlag Hmin Hmem Hlast. subst out.
  assert (Hmemory : forall startTime w0,
    MEMORY_CACHE w0 !! key = Some last ->
    clock w <= clock w0 ->
    allowed (_checkAndWaitWithMemory e key maxWaitMs minIntervalMs startTime w0).1
      = true ->
    exists now,
      MEMORY_CACHE
        (_checkAndWaitWithMemory e key maxWaitMs minIntervalMs startTime w0).2 !! key
        = Some now /\
      clock w <= now <=
        clock (_checkAndWaitWithMemory e key maxWaitMs minIntervalMs startTime w0).2 /\
      spaced minIntervalMs last now).
  { intros startTime w0 Hmem0 Hclock. unfold _checkAndWaitWithMemory, memGet.
    rewrite Hmem0.
    destruct (memoryWaitMs_spec minIntervalMs (clock w0) (Some last))
      as [-> Hpos]; [lia|lia|intros l [= <-]; lia|].
    destruct (specRequiredWait minIntervalMs (clock w0) (Some last))
      as [wait|] eqn:Hwait; cbn [from_option id].
    - assert (Hle : last <= clock w0) by lia.
      pose proof (specRequiredWait_bound _ _ _ _ (proj1 Hmin) Hle Hwait) as Hb.
      destruct (Z.eqb_spec wait 0); [lia|].
      destruct (Z.ltb_spec maxWaitMs wait); [discriminate|].
      intros _. unfold sleep, memSet, tick.
      cbn [fst snd awaits emit store clock MEMORY_CACHE trace].
      rewrite timerDelay_id by (unfold TIMEOUT_MAX in *; lia).
      pose proof (Hlag (awaits w0)).
      eexists. split; [apply lookup_insert_eq|].
      split; [lia|].
      eapply spaced_after_wait; [apply Hmin|exact Hwait|lia].
    - change (0 =? 0) with true. cbv iota. intros _. unfold memSet.
      cbn [fst snd awaits emit store clock MEMORY_CACHE trace].
      exists (clock w0). split; [apply lookup_insert_eq|].
      split; [lia|].
      apply spaced_without_conflict; [apply Hmin|lia|assumption]. }
  unfold checkAndWait. fold key.
  destruct (getClient e) eqn:Hclient.
  - unfold _checkAndWaitWithRedis, clientEval. cbn [awaits emit store clock].
    rewrite (Hpath eq_refl).
    intros Hallowed.
    pose proof (Hlag (awaits w)).
    apply Hmemory in Hallowed; [exact Hallowed|exact Hmem|cbn; lia].
  - intros Hallowed. apply Hmemory in Hallowed; [exact Hallowed|exact Hmem|lia].
  - intros Hallowed. apply Hmemory in Hallowed; [exact Hallowed|exact Hmem|lia].
Qed.

(** ** The clean-up of the memory cache *)

Lemma lookup_foldl_delete (keys : list string) (cache : gmap string Z) (key : string) :
  foldl (fun cache key => delete key cache) cache keys !! key =
    if decide (key ∈ keys) then None else cache !! key.
Proof.
  revert cache. induction keys as [|k keys IH]; intros cache; cbn [foldl].
  - destruct (decide (key ∈ [])) as [H|]; [|reflexivity].
    now apply elem_of_nil in H.
  - rewrite IH. destruct (decide (key ∈ keys)) as [Hin|Hnin].
    + rewrite decide_True; [reflexivity|]. now apply list_elem_of_further.
    + destruct (decide (key = k)) as [->|Hne].
      * rewrite decide_True by apply list_elem_of_here. apply lookup_delete_eq.
      * rewrite decide_False.
        -- now apply lookup_delete_ne.
        -- rewrite elem_of_cons. tauto.
Qed.

Lemma lookup_stale_removed (stale : string * Z -> bool) (cache : gmap string Z)
    (key : string) :
  foldl (fun cache key => delete key cache) cache
        (List.filter stale (map_to_list cache)).*1 !! key =
    match cache !! key with
    | Some timestamp => if stale (key, timestamp) then None else Some timestamp
    | None => None
    end.
Proof.
  rewrite lookup_foldl_delete.
  destruct (decide (key ∈ (List.filter stale (map_to_list cache)).*1)) as [Hin|Hnin].
  - apply list_elem_of_fmap in Hin as [[k v] [-> Hin]].
    apply list_elem_of_In, List.filter_In in Hin as [Hin Hstale].
    apply list_elem_of_In, elem_of_map_to_list in Hin.
    cbn. rewrite Hin. now rewrite Hstale.
  - destruct (cache !! key) as [timestamp|] eqn:Hkey; [|reflexivity].
    destruct (stale (key, timestamp)) eqn:Hstale; [|reflexivity].
    exfalso. apply Hnin. apply list_elem_of_fmap. exists (key, timestamp).
    split; [reflexivity|].
    apply list_elem_of_In, List.filter_In. split; [|exact Hstale].
    now apply list_elem_of_In, elem_of_map_to_list.
Qed.

(** The entries that survive a clean-up are those at most ten seconds
    old. *)
Lemma cleanupMemoryCache_lookup (w : world) (key : string) :
  MEMORY_CACHE (cleanupMemoryCache w) !! key =
    match MEMORY_CACHE w !! key with
    | Some timestamp =>
        if 10000 <? clock w - timestamp then None else Some timestamp
    | None => None
    end.
Proof.
  unfold cleanupMemoryCache. cbn [MEMORY_CACHE].
  apply (lookup_stale_removed (fun entry => 10000 <? clock w - entry.2)).
Qed.

(** The wait computed from an entry that a clean-up at [cleaned] has
    removed was zero already, for an interval of at most ten seconds. *)
Lemma memoryWaitMs_stale (minIntervalMs cleaned now timestamp : Z) :
  0 <= minIntervalMs <= 10000 ->
  cleaned <= now ->
  10000 < cleaned - timestamp ->
  memoryWaitMs minIntervalMs now (Some timestamp) = 0.
Proof.
  intros Hmin Hnow Hold. unfold memoryWaitMs.
  destruct (timestamp =? 0); [reflexivity|].
  destruct (0 <? minIntervalMs).
  - destruct (Z.ltb_spec (now - timestamp) minIntervalMs); [lia|reflexivity].
  - destruct (Z.eqb_spec (now / 1000) (timestamp / 1000)) as [Heq|]; [|reflexivity].
    exfalso.
    pose proof (Z.div_mod now 1000 ltac:(lia)).
    pose proof (Z.div_mod timestamp 1000 ltac:(lia)).
    pose proof (Z.mod_pos_bound now 1000 ltac:(lia)).
    pose proof (Z.mod_pos_bound timestamp 1000 ltac:(lia)).
    lia.
Qed.

(** A clean-up leaves a world that agrees with the one before but for the
    entries it has removed. *)
Lemma cleanup_agrees (w : world) : agreeUpToStale w (cleanupMemoryCache w).
Proof.
  unfold agreeUpToStale. repeat (split; [reflexivity|]).
  intros key. rewrite cleanupMemoryCache_lookup.
  destruct (MEMORY_CACHE w !! key) as [timestamp|] eqn:Hkey; [|now left].
  destruct (Z.ltb_spec 10000 (clock w - timestamp)); [|now left].
  right. split; [reflexivity|]. now exists timestamp.
Qed.

Lemma agree_emit (ev : event) (w w' : world) :
  agreeUpToStale w w' -> agreeUpToStale (emit ev w) (emit ev w').
Proof.
  intros (Hc & Ha & Hs & Ht & Hm). unfold agreeUpToStale, emit. cbn.
  now rewrite Ht.
Qed.

Lemma agree_later (dt : Z) (n : nat) (kv : kvstore) (w w' : world) :
  0 <= dt ->
  agreeUpToStale w w' ->
  agreeUpToStale
    {| clock := clock w + dt; awaits := n; store := kv;
       MEMORY_CACHE := MEMORY_CACHE w; trace := trace w |}
    {| clock := clock w' + dt; awaits := n; store := kv;
       MEMORY_CACHE := MEMORY_CACHE w'; trace := trace w' |}.
Proof.
  intros Hdt (Hc & Ha & Hs & Ht & Hm). unfold agreeUpToStale. cbn.
  rewrite Hc, Ht. repeat (split; [reflexivity|]).
  intros key. destruct (Hm key) as [Heq|[Hnone (timestamp & Hsome & Hold)]].
  - now left.
  - right. split; [assumption|]. exists timestamp. split; [assumption|lia].
Qed.

Lemma agree_tick (w w' : world) :
  (forall n, 0 <= lag e n) ->
  agreeUpToStale w w' -> agreeUpToStale (tick e w) (tick e w').
Proof.
  intros Hlag H. unfold tick.
  destruct H as (Hc & Ha & Hs & Ht & Hm).
  rewrite Ha, Hs.
  apply (agree_later (lag e (awaits w)) (S (awaits w)) (store w)); [apply Hlag|].
  repeat split; assumption.
Qed.

Lemma agree_setStore (kv : kvstore) (w w' : world) :
  agreeUpToStale w w' -> agreeUpToStale (setStore kv w) (setStore kv w').
Proof.
  intros (Hc & Ha & Hs & Ht & Hm). unfold agreeUpToStale, setStore. cbn.
  now rewrite Hc, Ha, Ht.
Qed.

Lemma agree_memSet (key : string) (v : Z) (w w' : world) :
  agreeUpToStale w w' -> agreeUpToStale (memSet key v w) (memSet key v w').
Proof.
  intros (Hc & Ha & Hs & Ht & Hm). unfold agreeUpToStale, memSet, emit. cbn.
  rewrite Hc, Ha, Hs, Ht. repeat (split; [reflexivity|]).
  intros k. destruct (decide (k = key)) as [->|Hne].
  - left. now rewrite !lookup_insert_eq.
  - rewrite !lookup_insert_ne by congruence. apply Hm.
Qed.

Lemma agree_sleep (ms : Z) (w w' : world) :
  (forall n, 0 <= lag e n) ->
  agreeUpToStale w w' -> agreeUpToStale (sleep e ms w) (sleep e ms w').
Proof.
  intros Hlag H. unfold sleep. apply agree_tick; [assumption|].
  apply (agree_emit (EvSleep ms)) in H.
  destruct H as (Hc & Ha & Hs & Ht & Hm).
  rewrite Ha, Hs.
  apply (agree_later (timerDelay ms)); [pose proof (timerDelay_pos ms); lia|].
  repeat split; assumption.
Qed.

Lemma agree_clientSetex (key : string) (ttl : Z) (v : string) (w w' : world) :
  (forall n, 0 <= lag e n) ->
  agreeUpToStale w w' ->
  (clientSetex e key ttl v w').1 = (clientSetex e key ttl v w).1 /\
  agreeUpToStale (clientSetex e key ttl v w).2 (clientSetex e key ttl v w').2.
Proof.
  intros Hlag H. unfold clientSetex.
  pose proof (agree_emit (EvSetex key ttl v) _ _ H) as H1.
  destruct H as (Hc & Ha & Hs & Ht & Hm).
  cbn [awaits emit store clock]. rewrite Ha, Hs, Hc.
  destruct (fault e (awaits w)); cbn [fst snd].
  - split; [reflexivity|]. now apply agree_tick.
  - split; [reflexivity|]. apply agree_tick; [assumption|].
    now apply agree_setStore.
Qed.

(** The memory path decides alike on two worlds that agree up to stale
    entries, and leaves two such worlds. *)
Lemma memory_path_agrees
    (key : string) (maxWaitMs minIntervalMs startTime : Z) (w w' : world) :
  0 <= minIntervalMs <= 10000 ->
  (forall n, 0 <= lag e n) ->
  agreeUpToStale w w' ->
  (_checkAndWaitWithMemory e key maxWaitMs minIntervalMs startTime w').1 =
  (_checkAndWaitWithMemory e key maxWaitMs minIntervalMs startTime w).1 /\
  agreeUpToStale
    (_checkAndWaitWithMemory e key maxWaitMs minIntervalMs startTime w).2
    (_checkAndWaitWithMemory e key maxWaitMs minIntervalMs startTime w').2.
Proof.
  intros Hmin Hlag H. unfold _checkAndWaitWithMemory, memGet.
  pose proof (agree_emit (EvMemGet key) _ _ H) as H1.
  assert (Hwait : memoryWaitMs minIntervalMs (clock w') (MEMORY_CACHE w' !! key) =
                  memoryWaitMs minIntervalMs (clock w) (MEMORY_CACHE w !! key)).
  { destruct H as (Hc & Ha & Hs & Ht & Hm). rewrite Hc.
    destruct (Hm key) as [->|[-> (timestamp & -> & Hold)]]; [reflexivity|].
    symmetry. apply (memoryWaitMs_stale _ (clock w)); [assumption|lia|assumption]. }
  rewrite Hwait.
  assert (Hclock : clock w' = clock w) by apply H.
  destruct (memoryWaitMs minIntervalMs (clock w) (MEMORY_CACHE w !! key) =? 0).
  - cbn [fst snd]. split; [reflexivity|]. rewrite Hclock. now apply agree_memSet.
  - destruct (maxWaitMs <? _); cbn [fst snd].
    + split; [reflexivity|assumption].
    + pose proof (agree_sleep
                    (memoryWaitMs minIntervalMs (clock w) (MEMORY_CACHE w !! key))
                    _ _ Hlag H1) as H2.
      assert (Hclock2 :
        clock (sleep e (memoryWaitMs minIntervalMs (clock w) (MEMORY_CACHE w !! key))
                 (emit (EvMemGet key) w')) =
        clock (sleep e (memoryWaitMs minIntervalMs (clock w) (MEMORY_CACHE w !! key))
                 (emit (EvMemGet key) w))) by apply H2.
      rewrite Hclock2. split; [reflexivity|]. now apply agree_memSet.
Qed.

(** X4.  The clean-up is invisible to pacing.  For every interval up to ten
    seconds, the clean-up of the memory cache changes no decision: the world
    it leaves agrees with the one before up to entries more than ten seconds
    old, and on two such worlds [checkAndWait] returns the same result, with
    the same store, trace and clock, and leaves two such worlds again. *)
Theorem cleanup_invisible_to_pacing
    (accountId accountType : string) (maxWaitMs minIntervalMs : Z) (w : world) :
  0 <= minIntervalMs <= 10000 ->
  (forall n, 0 <= lag e n) ->
  agreeUpToStale w (cleanupMemoryCache w) /\
  forall w',
    agreeUpToStale w w' ->
    (checkAndWait e accountId accountType maxWaitMs minIntervalMs w').1 =
    (checkAndWait e accountId accountType maxWaitMs minIntervalMs w).1 /\
    agreeUpToStale
      (checkAndWait e accountId accountType maxWaitMs minIntervalMs w).2
      (checkAndWait e accountId accountType maxWaitMs minIntervalMs w').2.
Proof.
  intros Hmin Hlag. split; [apply cleanup_agrees|].
  intros w' H. unfold checkAndWait.
  assert (Hclock : clock w' = clock w) by apply H. rewrite Hclock.
  destruct (getClient e).
  - unfold _checkAndWaitWithRedis, clientEval.
    pose proof (agree_emit
                  (EvEval (getRedisKey accountId accountType)
                     [toString (clock w); toString minIntervalMs; toString 5])
                  _ _ H) as H1.
    rewrite Hclock.
    assert (Ha : awaits w' = awaits w) by apply H.
    assert (Hs : store w' = store w) by apply H.
    cbn [awaits emit store clock]. rewrite Ha, Hs, Hclock.
    destruct (fault e (awaits w)).
    + apply memory_path_agrees; [assumption|assumption|].
      now apply agree_tick.
    + destruct (luaScript _ _ _ _) as [[[waitMs canExecute]|] kv'].
      * pose proof (agree_tick _ _ Hlag (agree_setStore kv' _ _ H1)) as H2.
        destruct (canExecute =? 1); [|destruct (maxWaitMs <? waitMs)].
        -- split; [reflexivity|]. now apply agree_memSet.
        -- split; [reflexivity|assumption].
        -- pose proof (agree_sleep waitMs _ _ Hlag H2) as H3.
           match type of H3 with
           | agreeUpToStale ?a ?b =>
               assert (Hclock3 : clock b = clock a) by apply H3;
               set (w2 := a) in *; set (w2' := b) in *
           end.
           rewrite Hclock3.
           destruct (agree_clientSetex (getRedisKey accountId accountType) 5
                       (toString (clock w2)) _ _ Hlag H3) as [_ H4].
           destruct (clientSetex e _ 5 _ w2) as [ok w3].
           destruct (clientSetex e _ 5 _ w2') as [ok' w3'].
           cbn [fst snd] in *. split; [reflexivity|]. now apply agree_memSet.
      * apply memory_path_agrees; [assumption|assumption|].
        apply agree_tick; [assumption|]. now apply agree_setStore.
  - now apply memory_path_agrees.
  - now apply memory_path_agrees.
Qed.

(** X5.  Beyond ten seconds the clean-up forgets.  With an interval above
    ten seconds, an entry of the memory cache that is more than ten seconds
    old but younger than the interval still asks for a wait; after a
    clean-up the wait is gone and the memory path admits the request at
    once. *)
Theorem cleanup_forgets_long_intervals
    (accountId accountType : string) (maxWaitMs minIntervalMs last : Z) (w : world) :
  let key := getRedisKey accountId accountType in
  let out := checkAndWait e accountId accountType maxWaitMs minIntervalMs
               (cleanupMemoryCache w) in
  getClient e <> ClientReady ->
  MEMORY_CACHE w !! key = Some last ->
  last <> 0 ->
  10000 < clock w - last < minIntervalMs ->
  computedWait e minIntervalMs w key = minIntervalMs - (clock w - last) /\
  computedWait e minIntervalMs (cleanupMemoryCache w) key = 0 /\
  out.1 = {| allowed := true; waitedMs := 0 |} /\
  MEMORY_CACHE (out.2) !! key = Some (clock w).
Proof.
  intros key out Hclient Hmem Hlast Hgap. subst out.
  assert (Hbefore : memoryWaitMs minIntervalMs (clock w) (MEMORY_CACHE w !! key) =
                    minIntervalMs - (clock w - last)).
  { rewrite Hmem. unfold memoryWaitMs.
    destruct (Z.eqb_spec last 0); [contradiction|].
    destruct (Z.ltb_spec 0 minIntervalMs); [|lia].
    destruct (Z.ltb_spec (clock w - last) minIntervalMs); [reflexivity|lia]. }
  assert (Hafter : MEMORY_CACHE (cleanupMemoryCache w) !! key = None).
  { rewrite cleanupMemoryCache_lookup, Hmem.
    destruct (Z.ltb_spec 10000 (clock w - last)); [reflexivity|lia]. }
  unfold computedWait, checkAndWait. fold key.
  destruct (getClient e); [contradiction| |];
    (split; [exact Hbefore|]);
    (split; [change (clock (cleanupMemoryCache w)) with (clock w);
             now rewrite Hafter|]);
    unfold _checkAndWaitWithMemory, memGet; rewrite Hafter;
    cbn; (split; [reflexivity|apply lookup_insert_eq]).
Qed.

(** X6.  [recordRequest] never fails to stamp.  Whatever the store does,
    the memory cache holds the instant of the call afterwards and nothing
    is slept; the store holds it, for five seconds, exactly when there is a
    client and its [SETEX] does not throw, and is left as it was
    otherwise. *)
Theorem recordRequest_always_stamps
    (accountId accountType : string) (w : world) :
  let key := getRedisKey accountId accountType in
  let w' := recordRequest e accountId accountType w in
  MEMORY_CACHE w' !! key = Some (clock w) /\
  List.filter isSleep (trace w') = List.filter isSleep (trace w) /\
  match getClient e with
  | ClientReady =>
      if fault e (awaits w) then store w' = store w
      else store w' = kv_setex (store w) (clock w) key 5 (toString (clock w))
  | ClientMissing | ClientThrows => store w' = store w
  end.
Proof.
  intros key w'. subst w'. unfold recordRequest. fold key.
  destruct (getClient e).
  - unfold clientSetex. cbn [awaits emit].
    destruct (fault e (awaits w)); cbn;
      rewrite ?lookup_insert_eq, !List.filter_app, !app_nil_r; cbn;
      rewrite ?app_nil_r; repeat split; reflexivity.
  - cbn. rewrite lookup_insert_eq, !List.filter_app; cbn.
    rewrite ?app_nil_r. repeat split; reflexivity.
  - cbn. rewrite lookup_insert_eq, !List.filter_app; cbn.
    rewrite ?app_nil_r. repeat split; reflexivity.
Qed.

End PacingSequences.

(** ** The older same-second guard *)

Section LegacyGuard.

Import RequestIntervalGuard.

Variable e : env.

(** X7.  The older guard separates seconds.  When the store holds the
    second [last] that the previous admitted request recorded (written no
    earlier than that second, to expire two seconds after the write) and no
    store call fails, a request that the older [checkAndWait] admits is
    recorded, in the store and in the memory cache, with a later second,
    and the entry it writes is of the same kind. *)
Theorem legacy_guard_separates_seconds
    (accountId accountType : string) (maxWaitMs last expiry : Z) (w : world) :
  let key := SameSecondGuard.getRedisKey accountId accountType in
  let out := SameSecondGuard.checkAndWait e accountId accountType maxWaitMs w in
  getClient e = ClientReady ->
  (forall n, fault e n = false) ->
  (forall n, 0 <= lag e n) ->
  store w !! key = Some (toString last, expiry) ->
  0 <= last ->
  last * 1000 <= clock w ->
  last * 1000 + 2000 <= expiry ->
  allowed (out.1) = true ->
  exists now expiry',
    store (out.2) !! key = Some (toString now, expiry') /\
    MEMORY_CACHE (out.2) !! key = Some now /\
    last < now /\
    now * 1000 <= clock (out.2) /\
    now * 1000 + 2000 <= expiry'.
Proof.
  intros key out Hclient Hfault Hlag Hstore Hpos Hlast Hexpiry. subst out.
  unfold SameSecondGuard.checkAndWait. rewrite Hclient. fold key.
  unfold SameSecondGuard.clientGet. cbn [awaits emit store clock].
  rewrite Hfault. unfold kv_get. rewrite Hstore.
  unfold SameSecondGuard.getCurrentSecond.
  pose proof (Hlag (awaits w)) as Hlag0.
  pose proof (Hlag (S (awaits w))) as Hlag1.
  pose proof (Hlag (S (S (awaits w)))) as Hlag2.
  pose proof (Z.div_mod (clock w) 1000 ltac:(lia)) as Hdiv.
  pose proof (Z.mod_pos_bound (clock w) 1000 ltac:(lia)) as Hmod.
  assert (Hplain :
    allowed
      (match clientSetex e key 2 (toString (clock w / 1000))
               (tick e (emit (EvGet key) w)) with
       | (true, w2) =>
           ({| allowed := true; waitedMs := 0 |}, memSet key (clock w / 1000) w2)
       | (false, w2) =>
           SameSecondGuard.checkAndWaitWithMemory e accountId accountType
             maxWaitMs (clock w) w2
       end).1 = true ->
    last < clock w / 1000 ->
    exists now expiry',
      store
        (match clientSetex e key 2 (toString (clock w / 1000))
                 (tick e (emit (EvGet key) w)) with
         | (true, w2) =>
             ({| allowed := true; waitedMs := 0 |}, memSet key (clock w / 1000) w2)
         | (false, w2) =>
             SameSecondGuard.checkAndWaitWithMemory e accountId accountType
               maxWaitMs (clock w) w2
         end).2 !! key = Some (toString now, expiry') /\
      MEMORY_CACHE
        (match clientSetex e key 2 (toString (clock w / 1000))
                 (tick e (emit (EvGet key) w)) with
         | (true, w2) =>
             ({| allowed := true; waitedMs := 0 |}, memSet key (clock w / 1000) w2)
         | (false, w2) =>
             SameSecondGuard.checkAndWaitWithMemory e accountId accountType
               maxWaitMs (clock w) w2
         end).2 !! key = Some now /\
      last < now /\
      now * 1000 <=
        clock
          (match clientSetex e key 2 (toString (clock w / 1000))
                   (tick e (emit (EvGet key) w)) with
           | (true, w2) =>
               ({| allowed := true; waitedMs := 0 |}, memSet key (clock w / 1000) w2)
           | (false, w2) =>
               SameSecondGuard.checkAndWaitWithMemory e accountId accountType
                 maxWaitMs (clock w) w2
           end).2 /\
      now * 1000 + 2000 <= expiry').
  { intros _ Hlt. unfold clientSetex. cbn [awaits emit store clock tick].
    rewrite Hfault. unfold memSet, tick, setStore, kv_setex.
    cbn [fst snd awaits emit store clock MEMORY_CACHE trace].
    exists (clock w / 1000). eexists.
    split; [apply lookup_insert_eq|]. split; [apply lookup_insert_eq|].
    split; [assumption|]. lia. }
  destruct (Z.ltb_spec (clock w) expiry) as [Hlive|Hgone].
  - rewrite toString_nonempty, parseInt_toString. cbn [negb andb].
    destruct (Z.eqb_spec last (clock w / 1000)) as [Hsame|Hother].
    + cbn [clock tick emit awaits].
      rewrite Z.rem_mod_nonneg by lia.
      pose proof (Z.div_mod (clock w + lag e (awaits w)) 1000 ltac:(lia)) as Hdiv1.
      pose proof (Z.mod_pos_bound (clock w + lag e (awaits w)) 1000 ltac:(lia))
        as Hmod1.
      destruct (Z.ltb_spec maxWaitMs
                  (1000 - (clock w + lag e (awaits w)) mod 1000));
        [discriminate|].
      intros _. unfold clientSetex, sleep, tick.
      cbn [awaits emit store clock MEMORY_CACHE trace].
      rewrite Hfault. unfold memSet, tick, setStore, kv_setex.
      cbn [fst snd awaits emit store clock MEMORY_CACHE trace].
      rewrite timerDelay_id by (unfold TIMEOUT_MAX; lia).
      eexists. eexists.
      split; [apply lookup_insert_eq|]. split; [apply lookup_insert_eq|].
      set (t := clock w + lag e (awaits w) +
                (1000 - (clock w + lag e (awaits w)) mod 1000) +
                lag e (S (awaits w))).
      pose proof (Z.div_mod t 1000 ltac:(lia)) as Hdivt.
      pose proof (Z.mod_pos_bound t 1000 ltac:(lia)) as Hmodt.
      assert (Hnext : (clock w + lag e (awaits w)) / 1000 + 1 <= t / 1000).
      { apply Z.div_le_lower_bound; [lia|]. subst t. lia. }
      assert (Hmono : clock w / 1000 <= (clock w + lag e (awaits w)) / 1000)
        by (apply Z.div_le_mono; lia).
      split; [lia|]. split; lia.
    + intros Hallowed. apply Hplain; [exact Hallowed|].
      assert (last <= clock w / 1000) by (apply Z.div_le_lower_bound; lia).
      lia.
  - intros Hallowed. apply Hplain; [exact Hallowed|].
    assert (last + 2 <= clock w / 1000) by (apply Z.div_le_lower_bound; lia).
    lia.
Qed.

(** X8.  The clean-up of the older guard is invisible to it.  The entries
    it removes are more than five seconds old, and the memory path of the
    older guard only asks whether the cached second is the current one: on
    the cleaned cache it returns the same result, sleeps as long and caches
    the same second for the account. *)
Theorem legacy_cleanup_invisible
    (accountId accountType : string) (maxWaitMs startTime : Z) (w : world) :
  let key := SameSecondGuard.getRedisKey accountId accountType in
  let out :=
    SameSecondGuard.checkAndWaitWithMemory e accountId accountType
      maxWaitMs startTime w in
  let out' :=
    SameSecondGuard.checkAndWaitWithMemory e accountId accountType
      maxWaitMs startTime (SameSecondGuard.cleanupMemoryCache w) in
  out'.1 = out.1 /\
  MEMORY_CACHE (out'.2) !! key = MEMORY_CACHE (out.2) !! key /\
  trace (out'.2) = trace (out.2) /\
  clock (out'.2) = clock (out.2) /\
  store (out'.2) = store (out.2).
Proof.
  intros key out out'. subst out out'.
  unfold SameSecondGuard.checkAndWaitWithMemory, memGet. fold key.
  change (SameSecondGuard.getCurrentSecond (SameSecondGuard.cleanupMemoryCache w))
    with (SameSecondGuard.getCurrentSecond w).
  assert (Hlookup :
    MEMORY_CACHE (SameSecondGuard.cleanupMemoryCache w) !! key =
      match MEMORY_CACHE w !! key with
      | Some timestamp =>
          if 5 <? SameSecondGuard.getCurrentSecond w - timestamp
          then None else Some timestamp
      | None => None
      end).
  { unfold SameSecondGuard.cleanupMemoryCache. cbn [MEMORY_CACHE].
    apply (lookup_stale_removed
             (fun entry => 5 <? SameSecondGuard.getCurrentSecond w - entry.2)). }
  rewrite Hlookup.
  destruct (MEMORY_CACHE w !! key) as [timestamp|] eqn:Hkey.
  - destruct (Z.ltb_spec 5 (SameSecondGuard.getCurrentSecond w - timestamp))
      as [Hstale|Hfresh].
    + destruct (Z.eqb_spec timestamp (SameSecondGuard.getCurrentSecond w)); [lia|].
      rewrite andb_false_r. cbn. rewrite !lookup_insert_eq. repeat split.
    + destruct (negb (timestamp =? 0) &&
                (timestamp =? SameSecondGuard.getCurrentSecond w)).
      * cbn [clock emit SameSecondGuard.cleanupMemoryCache].
        destruct (maxWaitMs <? _).
        -- cbn [fst snd emit MEMORY_CACHE clock trace store].
           rewrite Hlookup, Hkey.
           destruct (Z.ltb_spec 5 (SameSecondGuard.getCurrentSecond w - timestamp));
             [lia|]. repeat split.
        -- cbn. rewrite !lookup_insert_eq. repeat split.
      * cbn. rewrite !lookup_insert_eq. repeat split.
  - cbn. rewrite !lookup_insert_eq. repeat split.
Qed.

End LegacyGuard.

(** ** The life cycle of the circuit breaker *)

Section BreakerLifeCycle.

Import Registry Breaker.

Variable e : env.

Hypothesis healthy : forall n op, fault e n op = false.

Lemma accountField_record (r : Registry.state) (accountId field : string) (d : hash) :
  accountRecord r accountId = Some d ->
  accountField r accountId field = d !! field.
Proof. unfold accountField. now intros ->. Qed.

Lemma atInstant_frame (t : Z) (w : world) :
  clock (atInstant t w) = t /\ reg (atInstant t w) = reg w /\
  errors403 (atInstant t w) = errors403 w.
Proof. repeat split. Qed.

(** What [checkAndRecoverBreaker] does, by the record of the account. *)
Lemma checkAndRecoverBreaker_cases (accountId : string) (w : world) :
  let out := checkAndRecoverBreaker e accountId w in
  clock (out.2) = clock w /\
  errors403 (out.2) = errors403 w /\
  onlyAccount accountId (reg w) (reg (out.2)) /\
  match accountRecord (reg w) accountId with
  | Some d =>
      if bool_decide (d !! "error403BreakerState" = Some "open") then
        match parseInt (orElse (d !! "error403BreakerOpenUntil") "0") with
        | Num openUntil =>
            if openUntil <=? clock w then
              out.1 = {| recovered := true; rc_state := "half_open";
                         remainingMs := None |} /\
              accountRecord (reg (out.2)) accountId =
                Some (<["error403BreakerState" := "half_open"]> d)
            else
              out.1 = {| recovered := false; rc_state := "open";
                         remainingMs := Some (Num (openUntil - clock w)) |} /\
              hashes (reg (out.2)) = hashes (reg w)
        | NaN =>
            out.1 = {| recovered := false; rc_state := "open";
                       remainingMs := Some NaN |} /\
            hashes (reg (out.2)) = hashes (reg w)
        end
      else
        out.1 = {| recovered := false;
                   rc_state := orElse (d !! "error403BreakerState") "closed";
                   remainingMs := None |} /\
        hashes (reg (out.2)) = hashes (reg w)
  | None =>
      out.1 = {| recovered := false; rc_state := "closed"; remainingMs := None |} /\
      hashes (reg (out.2)) = hashes (reg w)
  end.
Proof.
  intros out. subst out. unfold checkAndRecoverBreaker.
  destruct (getAccountData_frame e accountId w) as (Hc & He & Hh).
  pose proof (getAccountData_healthy e healthy accountId w) as Hrec.
  destruct (_getAccountData e accountId w) as [[d|] w1]; cbn [fst snd] in *;
    rewrite <- Hrec.
  2:{ repeat split; try assumption. now apply onlyAccount_refl. }
  destruct (bool_decide (d !! "error403BreakerState" = Some "open")); cbn [negb].
  2:{ repeat split; try assumption. now apply onlyAccount_refl. }
  destruct (parseInt (orElse (d !! "error403BreakerOpenUntil") "0"))
    as [|openUntil]; cbn [num_geb num_sub].
  { repeat split; try assumption. now apply onlyAccount_refl. }
  rewrite Hc. destruct (openUntil <=? clock w).
  2:{ repeat split; try assumption. now apply onlyAccount_refl. }
  destruct (halfOpen_frame e accountId w1) as (_ & Hc1 & He1 & Ho1).
  pose proof (accountRecord_updated e healthy accountId
                [("error403BreakerState", Some "half_open")] w1 d) as Hupd.
  unfold halfOpenCircuitBreaker in *.
  destruct (_updateAccountBreakerState e accountId _ w1) as [ok w2].
  cbn [fst snd] in *.
  split; [congruence|]. split; [congruence|]. split.
  - intros key Hkey. rewrite Ho1 by exact Hkey. now rewrite Hh.
  - split; [reflexivity|]. apply Hupd.
    + rewrite (accountRecord_hashes _ _ _ Hh). now symmetry.
    + cbn. apply insert_non_empty.
Qed.

(** The record that [openCircuitBreaker] leaves. *)
Lemma openCircuitBreaker_record (accountId : string) (cfg : config) (d : hash)
    (w : world) :
  accountRecord (reg w) accountId = Some d ->
  let out := openCircuitBreaker e accountId cfg w in
  clock (out.2) = clock w /\
  accountRecord (reg (out.2)) accountId =
    Some (updated (openFields cfg (clock w)) d).
Proof.
  intros Hrec out. subst out.
  destruct (openCircuitBreaker_frame e accountId cfg w) as (_ & Hc & _ & _).
  split; [exact Hc|]. clear Hc.
  unfold openCircuitBreaker.
  pose proof (accountRecord_updated e healthy accountId
                (openFields cfg (clock w)) w d Hrec) as Hupd.
  unfold openFields in *.
  destruct (_updateAccountBreakerState e accountId _ w) as [ok w1].
  cbn [fst snd] in *. apply Hupd. cbn. apply insert_non_empty.
Qed.

(** The answer of [openCircuitBreaker]. *)
Lemma openCircuitBreaker_answer (accountId : string) (cfg : config) (w : world) :
  (openCircuitBreaker e accountId cfg w).1 =
    match num_add (Num (clock w))
            (num_mul (num_mul (breakerDurationMinutes cfg) (Num 60)) (Num 1000))
    with
    | Num t => Z.abs t <=? 8640000000000000
    | NaN => false
    end.
Proof.
  unfold openCircuitBreaker.
  destruct (_updateAccountBreakerState e accountId _ w) as [ok w1].
  cbn [fst]. destruct (num_add _ _) as [|t]; [reflexivity|].
  unfold toISOString. now destruct (Z.abs t <=? 8640000000000000).
Qed.

(** X9.  Open, then recover.  On a healthy store, for an instant [now]
    that is a date (as every value of [Date.now()] is: at most 8.64e15 ms
    from the epoch) and a duration of [minutes] such that [minutes * 60000]
    and [now + minutes * 60000] are safe integers (where the arithmetic and
    the decimal strings of the model are those of JavaScript),
    [openCircuitBreaker] at [now] leaves the record of an existing account
    with the state [open], [openAt = now] and
    [openUntil = now + minutes * 60000], and answers [true] exactly when
    [openUntil] is in the range of dates; a [checkAndRecoverBreaker] that
    follows at an instant [t] moves the account to [half_open] exactly from
    [openUntil] on, and before that reports the time that remains and
    changes nothing. *)
Theorem breaker_cooldown_round_trip
    (accountId : string) (cfg : config) (minutes : Z) (d : hash) (w : world) :
  accountRecord (reg w) accountId = Some d ->
  breakerDurationMinutes cfg = Num minutes ->
  0 <= clock w <= 8640000000000000 ->
  isSafeInteger (minutes * 60 * 1000) = true ->
  isSafeInteger (clock w + minutes * 60 * 1000) = true ->
  let opened := (openCircuitBreaker e accountId cfg w).2 in
  let openUntil := clock w + minutes * 60 * 1000 in
  (openCircuitBreaker e accountId cfg w).1
    = (Z.abs openUntil <=? 8640000000000000) /\
  accountField (reg opened) accountId "error403BreakerState" = Some "open" /\
  accountField (reg opened) accountId "error403BreakerOpenAt"
    = Some (toString (clock w)) /\
  accountField (reg opened) accountId "error403BreakerOpenUntil"
    = Some (toString openUntil) /\
  forall t,
    0 <= t <= 8640000000000000 ->
    let out := checkAndRecoverBreaker e accountId (atInstant t opened) in
    if openUntil <=? t then
      out.1 = {| recovered := true; rc_state := "half_open"; remainingMs := None |} /\
      accountField (reg (out.2)) accountId "error403BreakerState" = Some "half_open"
    else
      out.1 = {| recovered := false; rc_state := "open";
                 remainingMs := Some (Num (openUntil - t)) |} /\
      hashes (reg (out.2)) = hashes (reg opened).
Proof.
  intros Hrec Hminutes _ _ _ opened openUntil.
  split.
  { rewrite openCircuitBreaker_answer, Hminutes. reflexivity. }
  destruct (openCircuitBreaker_record accountId cfg d w Hrec) as [_ Hopened].
  fold opened in Hopened.
  unfold openFields, updated in Hopened. rewrite Hminutes in Hopened.
  cbn [deleted assigned foldl fst snd num_mul num_add num_toString] in Hopened.
  fold openUntil in Hopened.
  rewrite !(accountField_record _ _ _ _ Hopened).
  split; [now simplify_map_eq|]. split; [now simplify_map_eq|].
  split; [now simplify_map_eq|].
  intros t _ out. subst out.
  destruct (checkAndRecoverBreaker_cases accountId (atInstant t opened))
    as (_ & _ & _ & Hcases).
  cbn [reg clock atInstant] in Hcases. rewrite Hopened in Hcases.
  rewrite bool_decide_eq_true_2 in Hcases by now simplify_map_eq.
  rewrite lookup_insert_eq in Hcases. unfold orElse in Hcases.
  rewrite toString_nonempty, parseInt_toString in Hcases.
  destruct (openUntil <=? t).
  - destruct Hcases as [Hres Hnew]. split; [exact Hres|].
    rewrite (accountField_record _ _ _ _ Hnew). now simplify_map_eq.
  - exact Hcases.
Qed.

(** X10.  A duration that is no number keeps the breaker open.  When the
    account record overrides the duration with a field that [parseInt] does
    not read as a number, the breaker opened with the configuration of the
    account is stored with [openUntil = "NaN"] ([openCircuitBreaker]
    answering [false], since the date of its log line cannot be rendered),
    and no [checkAndRecoverBreaker], at whatever instant, moves it out of
    [open]: it reports [recovered = false] and changes nothing. *)
Theorem unparsable_duration_never_recovers
    (accountId value : string) (d : hash) (w : world) :
  accountRecord (reg w) accountId = Some d ->
  d !! "error403BreakerDurationMinutes" = Some value ->
  parseInt value = NaN ->
  let resolved := getAccountConfig e accountId w in
  let opened := (openCircuitBreaker e accountId (resolved.1) (resolved.2)).2 in
  breakerDurationMinutes (resolved.1) = NaN /\
  (openCircuitBreaker e accountId (resolved.1) (resolved.2)).1 = false /\
  accountField (reg opened) accountId "error403BreakerState" = Some "open" /\
  accountField (reg opened) accountId "error403BreakerOpenUntil" = Some "NaN" /\
  forall t,
    let out := checkAndRecoverBreaker e accountId (atInstant t opened) in
    out.1 = {| recovered := false; rc_state := "open"; remainingMs := Some NaN |} /\
    hashes (reg (out.2)) = hashes (reg opened).
Proof.
  intros Hrec Hfield Hnan resolved opened. subst opened resolved.
  destruct (getAccountConfig_keeps e accountId w) as (_ & _ & Hh).
  assert (Hcfg : breakerDurationMinutes (getAccountConfig e accountId w).1 = NaN).
  { unfold getAccountConfig.
    pose proof (getAccountData_healthy e healthy accountId w) as Hdata.
    destruct (_getAccountData e accountId w) as [data w1]. cbn [fst] in Hdata.
    subst data. rewrite Hrec. cbn. now rewrite Hfield. }
  destruct (getAccountConfig e accountId w) as [cfg w1]. cbn [fst snd] in *.
  split; [exact Hcfg|].
  split; [rewrite openCircuitBreaker_answer, Hcfg; reflexivity|].
  rewrite <- (accountRecord_hashes _ _ accountId Hh) in Hrec.
  destruct (openCircuitBreaker_record accountId cfg d w1 Hrec) as [_ Hopened].
  set (opened := (openCircuitBreaker e accountId cfg w1).2) in *.
  unfold openFields, updated in Hopened. rewrite Hcfg in Hopened.
  cbn [deleted assigned foldl fst snd num_mul num_add num_toString] in Hopened.
  rewrite !(accountField_record _ _ _ _ Hopened).
  split; [now simplify_map_eq|]. split; [now simplify_map_eq|].
  intros t.
  destruct (checkAndRecoverBreaker_cases accountId (atInstant t opened))
    as (_ & _ & _ & Hcases).
  cbn [reg clock atInstant] in Hcases. rewrite Hopened in Hcases.
  rewrite bool_decide_eq_true_2 in Hcases by now simplify_map_eq.
  rewrite lookup_insert_eq in Hcases. exact Hcases.
Qed.

(** X12.  Recovery happens once.  After [checkAndRecoverBreaker] has moved
    an account whose cool-down is over to [half_open], a further call, at
    whatever instant, reports [recovered = false] with the state
    [half_open] and changes nothing. *)
Theorem recovery_happens_once
    (accountId : string) (d : hash) (openUntil : Z) (w : world) :
  accountRecord (reg w) accountId = Some d ->
  d !! "error403BreakerState" = Some "open" ->
  parseInt (orElse (d !! "error403BreakerOpenUntil") "0") = Num openUntil ->
  openUntil <= clock w ->
  let first := checkAndRecoverBreaker e accountId w in
  recovered (first.1) = true /\
  forall t,
    let second := checkAndRecoverBreaker e accountId (atInstant t (first.2)) in
    second.1 = {| recovered := false; rc_state := "half_open";
                  remainingMs := None |} /\
    hashes (reg (second.2)) = hashes (reg (first.2)).
Proof.
  intros Hrec Hopen Hparse Hdue first. subst first.
  destruct (checkAndRecoverBreaker_cases accountId w) as (_ & _ & _ & Hcases).
  rewrite Hrec, bool_decide_eq_true_2, Hparse in Hcases by exact Hopen.
  destruct (Z.leb_spec openUntil (clock w)); [|lia].
  destruct Hcases as [Hres Hnew]. rewrite Hres. split; [reflexivity|].
  intros t second. subst second.
  destruct (checkAndRecoverBreaker_cases accountId
              (atInstant t (checkAndRecoverBreaker e accountId w).2))
    as (_ & _ & _ & Hcases).
  cbn [reg clock atInstant] in Hcases. rewrite Hnew in Hcases.
  rewrite bool_decide_eq_false_2 in Hcases by now simplify_map_eq.
  rewrite lookup_insert_eq in Hcases. exact Hcases.
Qed.

End BreakerLifeCycle.

Section BreakerThreshold.

Import Registry Breaker.

Variable e : env.


End BreakerThreshold.

(** ** The auto-recovery sweep *)

Lemma prefix_app (p s : string) : String.prefix p (p +:+ s) = true.
Proof.
  induction p as [|c p IH]; [now destruct s|].
  simpl. destruct (Ascii.ascii_dec c c); [exact IH|contradiction].
Qed.

Lemma dropChars_app (p s : string) : dropChars (String.length p) (p +:+ s) = s.
Proof. induction p as [|c p IH]; [now destruct s|exact IH]. Qed.

Lemma replaceFirst_prefix (p s : string) : replaceFirst p EmptyString (p +:+ s) = s.
Proof.
  assert (Hunfold : forall t,
    String.prefix p t = true ->
    replaceFirst p EmptyString t = dropChars (String.length p) t).
  { intros t Ht. destruct t; cbn [replaceFirst]; now rewrite Ht. }
  rewrite Hunfold by apply prefix_app. apply dropChars_app.
Qed.

Lemma string_app_assoc' (a b c : string) : (a +:+ b) +:+ c = a +:+ (b +:+ c).
Proof.
  induction a as [|x a IH]; [reflexivity|].
  change (String x ((a +:+ b) +:+ c) = String x (a +:+ (b +:+ c))).
  now f_equal.
Qed.

Section AutoRecoveryFacts.

Import Registry Breaker AutoRecovery.

Variable e : AutoRecovery.env.

(** What the sweep reads off a key of the account type is the identifier of
    the account. *)
Lemma scan_strips_account_key (accountType accountId : string) :
  replaceFirst (accountType +:+ ":") EmptyString (accountKey accountType accountId)
  = accountId.
Proof.
  unfold accountKey. rewrite <- string_app_assoc'. apply replaceFirst_prefix.
Qed.

Lemma scanLoop_calls (accountType : string) (remaining : nat) (cursor : string)
    (accountIds : list string) :
  (1 <= (scanLoop e accountType remaining cursor accountIds).2 <= Nat.max 1 remaining)%nat.
Proof.
  revert cursor accountIds.
  induction remaining as [|remaining IH]; intros cursor accountIds;
    cbn [scanLoop].
  - destruct (scan e accountType _ cursor); cbn; lia.
  - destruct (scan e accountType _ cursor) as [|newCursor keys]; [cbn; lia|].
    destruct remaining as [|remaining']; [cbn; lia|].
    destruct (String.eqb newCursor "0"); [cbn; lia|].
    specialize (IH newCursor
                  (accountIds ++
                   map (fun key => replaceFirst (accountType +:+ ":") EmptyString key)
                       keys)%list).
    destruct (scanLoop e accountType (S remaining') newCursor _) as [found n].
    cbn [snd] in *. lia.
Qed.

(** Every identifier found comes from a key of a page that the store
    answered. *)
Lemma scanLoop_sound (accountType : string) (remaining : nat) (cursor : string)
    (accountIds found : list string) :
  (scanLoop e accountType remaining cursor accountIds).1 = Some found ->
  forall accountId,
    accountId ∈ found ->
    accountId ∈ accountIds \/
    exists iterations cursor' newCursor keys key,
      scan e accountType iterations cursor' = ScanPage newCursor keys /\
      key ∈ keys /\
      accountId = replaceFirst (accountType +:+ ":") EmptyString key.
Proof.
  revert cursor accountIds.
  assert (Hpage : forall iterations cursor newCursor keys accountIds accountId,
    scan e accountType iterations cursor = ScanPage newCursor keys ->
    accountId ∈ (accountIds ++
                 map (fun key => replaceFirst (accountType +:+ ":") EmptyString key)
                     keys)%list ->
    accountId ∈ accountIds \/
    exists iterations cursor' newCursor keys key,
      scan e accountType iterations cursor' = ScanPage newCursor keys /\
      key ∈ keys /\
      accountId = replaceFirst (accountType +:+ ":") EmptyString key).
  { intros iterations cursor newCursor keys accountIds accountId Hscan Hin.
    apply elem_of_app in Hin as [Hin|Hin]; [now left|right].
    apply list_elem_of_fmap in Hin as (key & -> & Hkey).
    now exists iterations, cursor, newCursor, keys, key. }
  induction remaining as [|remaining IH]; intros cursor accountIds;
    cbn [scanLoop].
  - destruct (scan e accountType _ cursor) as [|newCursor keys] eqn:Hscan;
      [discriminate|].
    intros [= <-] accountId. now apply (Hpage _ _ _ _ _ _ Hscan).
  - destruct (scan e accountType _ cursor) as [|newCursor keys] eqn:Hscan;
      [discriminate|].
    destruct remaining as [|remaining'].
    { intros [= <-] accountId. now apply (Hpage _ _ _ _ _ _ Hscan). }
    destruct (String.eqb newCursor "0").
    { intros [= <-] accountId. now apply (Hpage _ _ _ _ _ _ Hscan). }
    specialize (IH newCursor
                  (accountIds ++
                   map (fun key => replaceFirst (accountType +:+ ":") EmptyString key)
                       keys)%list).
    destruct (scanLoop e accountType (S remaining') newCursor _) as [found' n].
    cbn [fst] in *. intros Hfound accountId Hin.
    destruct (IH Hfound accountId Hin) as [Hprev|Hlater]; [|now right].
    now apply (Hpage _ _ _ _ _ _ Hscan).
Qed.

Lemma iter_called_hashes (n : nat) (r : Registry.state) :
  hashes (Nat.iter n called r) = hashes r /\
  calls (Nat.iter n called r) = (calls r + n)%nat.
Proof.
  induction n as [|n [IH1 IH2]]; [cbn; split; [reflexivity|lia]|].
  change (Nat.iter (S n) called r) with (called (Nat.iter n called r)).
  unfold called at 1 3. cbn [hashes calls].
  rewrite IH1, IH2. split; [reflexivity|lia].
Qed.

Lemma scan_frame (accountType : string) (w : world) :
  let out := _scanAccountsByType e accountType w in
  (calls (reg w) + 1 <= calls (reg (out.2)) <= calls (reg w) + 1000)%nat /\
  hashes (reg (out.2)) = hashes (reg w) /\
  clock (out.2) = clock w /\
  errors403 (out.2) = errors403 w.
Proof.
  intros out. subst out. unfold _scanAccountsByType.
  pose proof (scanLoop_calls accountType MAX_ITERATIONS "0" []) as Hcalls.
  destruct (scanLoop e accountType MAX_ITERATIONS "0" []) as [found n].
  cbn [fst snd] in *.
  destruct (iter_called_hashes n (reg w)) as [Hh Hc].
  cbn [reg setReg clock errors403]. rewrite Hh, Hc.
  change (Nat.max 1 MAX_ITERATIONS) with 1000%nat in Hcalls.
  split; [lia|]. repeat split.
Qed.

(** X13.  The scan is bounded.  Whatever the store answers, even a cursor
    that never comes back to ["0"], [_scanAccountsByType] makes between one
    and a thousand [SCAN] calls and changes no account record; each
    identifier it returns is a key of a page that the store answered, with
    the first occurrence of the prefix of the account type removed, which
    for a key [<accountType>:<accountId>] is the identifier itself; and
    when the first [SCAN] throws the result is empty. *)
Theorem scan_is_bounded (accountType : string) (w : world) :
  let out := _scanAccountsByType e accountType w in
  (calls (reg w) + 1 <= calls (reg (out.2)) <= calls (reg w) + 1000)%nat /\
  hashes (reg (out.2)) = hashes (reg w) /\
  clock (out.2) = clock w /\
  errors403 (out.2) = errors403 w /\
  (forall accountId,
      accountId ∈ out.1 ->
      exists iterations cursor newCursor keys key,
        scan e accountType iterations cursor = ScanPage newCursor keys /\
        key ∈ keys /\
        accountId = replaceFirst (accountType +:+ ":") EmptyString key) /\
  (forall accountId,
      replaceFirst (accountType +:+ ":") EmptyString
        (accountKey accountType accountId) = accountId) /\
  (scan e accountType 0 "0" = ScanThrows -> out.1 = []).
Proof.
  intros out. subst out.
  destruct (scan_frame accountType w) as (Hcalls & Hh & Hc & He).
  split; [exact Hcalls|]. split; [exact Hh|]. split; [exact Hc|].
  split; [exact He|]. clear Hcalls Hh Hc He.
  unfold _scanAccountsByType.
  pose proof (scanLoop_sound accountType MAX_ITERATIONS "0" []) as Hsound.
  assert (Hfirst : scan e accountType 0 "0" = ScanThrows ->
                   (scanLoop e accountType MAX_ITERATIONS "0" []).1 = None).
  { intros Hthrows.
    assert (Hunfold : forall remaining,
      scan e accountType (MAX_ITERATIONS - remaining) "0" = ScanThrows ->
      (scanLoop e accountType remaining "0" []).1 = None).
    { intros remaining H. destruct remaining; cbn [scanLoop]; now rewrite H. }
    apply Hunfold. now rewrite Nat.sub_diag. }
  destruct (scanLoop e accountType MAX_ITERATIONS "0" []) as [found n].
  cbn [fst snd] in *.
  split; [|split].
  - intros accountId Hin. destruct found as [found|]; cbn in Hin.
    + destruct (Hsound found eq_refl accountId Hin) as [Hnil|Hpage];
        [now apply elem_of_nil in Hnil|exact Hpage].
    + now apply elem_of_nil in Hin.
  - intros accountId. apply scan_strips_account_key.
  - intros Hthrows. now rewrite (Hfirst Hthrows).
Qed.

(** *** The sweep on a healthy store *)

Hypothesis healthy : forall n op, fault (breaker e) n op = false.

Hypothesis forward : forall n, 0 <= elapse e n.

(** A check of another account leaves the record of the account alone. *)
Lemma locate_other (types : list string) (a b : string)
    (s s' : Registry.state) :
  (forall t, t ∈ types -> t ∈ accountTypes) ->
  onlyAccount b s s' ->
  a <> b ->
  locate types a (hashes s') = locate types a (hashes s).
Proof.
  intros Htypes Hframe Hne.
  induction types as [|t types IH]; [reflexivity|].
  cbn [locate].
  assert (Hkey : hashes s' !! accountKey t a = hashes s !! accountKey t a).
  { apply Hframe. intros t' Ht' Heq.
    apply accountKey_inj in Heq as [_ Heq]; [contradiction| |exact Ht'].
    apply Htypes, list_elem_of_here. }
  rewrite Hkey, IH; [reflexivity|].
  intros t' Ht'. apply Htypes. now apply list_elem_of_further.
Qed.

Lemma accountRecord_other (a b : string) (s s' : Registry.state) :
  onlyAccount b s s' -> a <> b -> accountRecord s' a = accountRecord s a.
Proof.
  intros Hframe Hne. unfold accountRecord.
  now rewrite (locate_other accountTypes a b s s').
Qed.

Lemma recoverEach_cons (b : string) (rest : list string) (c : nat) (w : world) :
  exists c',
    recoverEach e (b :: rest) c w = recoverEach e rest c' (checked e b w).
Proof.
  cbn [recoverEach]. unfold checked.
  destruct (checkAndRecoverBreaker _ _ _) as [result w1].
  eexists. reflexivity.
Qed.

Lemma recoverTypes_cons (t : string) (rest : list string) (c : nat) (w : world) :
  exists c',
    recoverTypes e (t :: rest) c w =
    recoverTypes e rest c' (recoverEach e (scanned e t) c (afterScan e t w)).2.
Proof.
  cbn [recoverTypes]. unfold afterScan, scanned, _scanAccountsByType.
  destruct (scanLoop e t MAX_ITERATIONS "0" []) as [found n]. cbn [fst snd].
  destruct (recoverEach e (default [] found) c _) as [c' w2].
  eexists. reflexivity.
Qed.

(** *** Invariants of the sweep *)

Section Invariants.

Variables I J : world -> Prop.

Hypothesis I_checked : forall b w, I w -> I (checked e b w).

Hypothesis I_scan : forall t w, I w -> I (afterScan e t w).

Lemma recoverEach_preserves (ids : list string) (c : nat) (w : world) :
  I w -> I (recoverEach e ids c w).2.
Proof.
  revert c w. induction ids as [|b rest IH]; intros c w Hw; [exact Hw|].
  destruct (recoverEach_cons b rest c w) as [c' ->]. apply IH.
  now apply I_checked.
Qed.

Lemma recoverTypes_preserves (types : list string) (c : nat) (w : world) :
  I w -> I (recoverTypes e types c w).2.
Proof.
  revert c w. induction types as [|t rest IH]; intros c w Hw; [exact Hw|].
  destruct (recoverTypes_cons t rest c w) as [c' ->]. apply IH.
  apply recoverEach_preserves. now apply I_scan.
Qed.

Variable a : string.

Hypothesis J_checked : forall b w, J w -> J (checked e b w).

Hypothesis J_scan : forall t w, J w -> J (afterScan e t w).

Hypothesis I_reaches_J : forall w, I w -> J (checked e a w).

Lemma recoverEach_keeps (ids : list string) (c : nat) (w : world) :
  J w -> J (recoverEach e ids c w).2.
Proof.
  revert c w. induction ids as [|b rest IH]; intros c w Hw; [exact Hw|].
  destruct (recoverEach_cons b rest c w) as [c' ->]. apply IH.
  now apply J_checked.
Qed.

Lemma recoverTypes_keeps (types : list string) (c : nat) (w : world) :
  J w -> J (recoverTypes e types c w).2.
Proof.
  revert c w. induction types as [|t rest IH]; intros c w Hw; [exact Hw|].
  destruct (recoverTypes_cons t rest c w) as [c' ->]. apply IH.
  apply recoverEach_keeps. now apply J_scan.
Qed.

Lemma recoverEach_reaches (ids : list string) (c : nat) (w : world) :
  a ∈ ids -> I w -> J (recoverEach e ids c w).2.
Proof.
  revert c w. induction ids as [|b rest IH]; intros c w Hin Hw;
    [now apply elem_of_nil in Hin|].
  destruct (recoverEach_cons b rest c w) as [c' ->].
  apply elem_of_cons in Hin as [<-|Hin].
  - apply recoverEach_keeps. now apply I_reaches_J.
  - apply IH; [exact Hin|]. now apply I_checked.
Qed.

Lemma recoverTypes_reaches (types : list string) (t : string) (c : nat) (w : world) :
  t ∈ types -> a ∈ scanned e t -> I w -> J (recoverTypes e types c w).2.
Proof.
  revert c w. induction types as [|t0 rest IH]; intros c w Ht Hin Hw;
    [now apply elem_of_nil in Ht|].
  destruct (recoverTypes_cons t0 rest c w) as [c' ->].
  apply elem_of_cons in Ht as [<-|Ht].
  - apply recoverTypes_keeps. apply recoverEach_reaches; [exact Hin|].
    now apply I_scan.
  - apply (IH _ _ Ht Hin). apply recoverEach_preserves. now apply I_scan.
Qed.

End Invariants.

(** *** The steps of the sweep *)

Lemma afterScan_frame (t : string) (w : world) :
  clock (afterScan e t w) = clock w /\
  errors403 (afterScan e t w) = errors403 w /\
  hashes (reg (afterScan e t w)) = hashes (reg w).
Proof.
  destruct (scan_frame t w) as (_ & Hh & Hc & He).
  unfold afterScan. auto.
Qed.

Lemma checked_frame (b : string) (w : world) :
  clock w <= clock (checked e b w) /\
  clock (checked e b w) = clock w + elapse e (calls (reg w)) /\
  errors403 (checked e b w) = errors403 w /\
  onlyAccount b (reg w) (reg (checked e b w)).
Proof.
  unfold checked.
  destruct (checkAndRecoverBreaker_cases (breaker e) healthy b
              (atInstant (clock w + elapse e (calls (reg w))) w))
    as (Hc & He & Ho & _).
  cbn [clock errors403 reg atInstant] in *.
  pose proof (forward (calls (reg w))).
  repeat split; try assumption. lia.
Qed.

Lemma checked_cases (b : string) (w : world) :
  match accountRecord (reg w) b with
  | Some d =>
      if bool_decide (d !! "error403BreakerState" = Some "open") then
        match parseInt (orElse (d !! "error403BreakerOpenUntil") "0") with
        | Num openUntil =>
            if openUntil <=? clock (checked e b w) then
              accountRecord (reg (checked e b w)) b =
                Some (<["error403BreakerState" := "half_open"]> d)
            else hashes (reg (checked e b w)) = hashes (reg w)
        | NaN => hashes (reg (checked e b w)) = hashes (reg w)
        end
      else hashes (reg (checked e b w)) = hashes (reg w)
  | None => hashes (reg (checked e b w)) = hashes (reg w)
  end.
Proof.
  destruct (checked_frame b w) as (_ & Hclock & _).
  rewrite Hclock. unfold checked.
  destruct (checkAndRecoverBreaker_cases (breaker e) healthy b
              (atInstant (clock w + elapse e (calls (reg w))) w))
    as (_ & _ & _ & Hcases).
  cbn [clock errors403 reg atInstant] in *.
  destruct (accountRecord (reg w) b) as [d|]; [|apply Hcases].
  destruct (bool_decide _); [|apply Hcases].
  destruct (parseInt _) as [|openUntil]; [apply Hcases|].
  destruct (openUntil <=? _); apply Hcases.
Qed.

Lemma sweep_forward (types : list string) (c : nat) (w0 w : world) :
  clock w0 <= clock w /\ errors403 w = errors403 w0 ->
  clock w0 <= clock (recoverTypes e types c w).2 /\
  errors403 (recoverTypes e types c w).2 = errors403 w0.
Proof.
  apply (recoverTypes_preserves
           (fun w => clock w0 <= clock w /\ errors403 w = errors403 w0)).
  - intros b w1 [Hc He]. destruct (checked_frame b w1) as (Hc1 & _ & He1 & _).
    split; [lia|congruence].
  - intros t w1 [Hc He]. destruct (afterScan_frame t w1) as (Hc1 & He1 & _).
    split; [lia|congruence].
Qed.

(** X14.  The sweep recovers what is due, and nothing else.  On a healthy
    store, with time moving forward, after [_runAutoRecovery]: every
    account that a scan returned and whose record was [open] with a
    cool-down over at the start of the sweep has the state [half_open], its
    other fields being kept; an account whose state was not [open] has the
    record it had; so has an [open] account whose cool-down is not over at
    the end of the sweep; and the error windows are untouched. *)
Theorem auto_recovery_sweep (w : world) :
  let out := _runAutoRecovery e w in
  clock w <= clock (out.2) /\
  errors403 (out.2) = errors403 w /\
  (forall accountId accountType openUntil d,
      accountType ∈ accountTypes ->
      accountId ∈ scanned e accountType ->
      accountRecord (reg w) accountId = Some d ->
      d !! "error403BreakerState" = Some "open" ->
      parseInt (orElse (d !! "error403BreakerOpenUntil") "0") = Num openUntil ->
      openUntil <= clock w ->
      accountRecord (reg (out.2)) accountId =
        Some (<["error403BreakerState" := "half_open"]> d)) /\
  (forall accountId,
      accountField (reg w) accountId "error403BreakerState" <> Some "open" ->
      accountRecord (reg (out.2)) accountId = accountRecord (reg w) accountId) /\
  (forall accountId openUntil d,
      accountRecord (reg w) accountId = Some d ->
      parseInt (orElse (d !! "error403BreakerOpenUntil") "0") = Num openUntil ->
      clock (out.2) < openUntil ->
      accountRecord (reg (out.2)) accountId = Some d).
Proof.
  intros out. subst out. unfold _runAutoRecovery.
  destruct (sweep_forward accountTypes 0%nat w w) as [Hclock Herrors];
    [split; [lia|reflexivity]|].
  split; [exact Hclock|]. split; [exact Herrors|]. split; [|split].
  - intros a t openUntil d Ht Hin Hrec Hopen Hparse Hdue.
    set (d' := <["error403BreakerState" := "half_open"]> d).
    apply (recoverTypes_reaches
             (fun w1 => clock w <= clock w1 /\
                        (accountRecord (reg w1) a = Some d \/
                         accountRecord (reg w1) a = Some d'))
             (fun w1 => accountRecord (reg w1) a = Some d')) with (a := a) (t := t);
      [| | | | |exact Ht|exact Hin|split; [lia|now left]].
    + intros b w1 [Hc Hr]. destruct (checked_frame b w1) as (Hc1 & _ & _ & Ho).
      split; [lia|].
      destruct (decide (a = b)) as [<-|Hne].
      * pose proof (checked_cases a w1) as Hcases.
        destruct Hr as [Hr|Hr]; rewrite Hr in Hcases.
        -- rewrite bool_decide_eq_true_2, Hparse in Hcases by exact Hopen.
           destruct (Z.leb_spec openUntil (clock (checked e a w1))); [|lia].
           now right.
        -- rewrite bool_decide_eq_false_2 in Hcases
             by (subst d'; now simplify_map_eq).
           right. now rewrite (accountRecord_hashes _ _ _ Hcases).
      * now rewrite (accountRecord_other a b _ _ Ho Hne).
    + intros t0 w1 [Hc Hr]. destruct (afterScan_frame t0 w1) as (Hc1 & _ & Hh).
      split; [lia|]. now rewrite (accountRecord_hashes _ _ _ Hh).
    + intros b w1 Hr. destruct (checked_frame b w1) as (_ & _ & _ & Ho).
      destruct (decide (a = b)) as [<-|Hne].
      * pose proof (checked_cases a w1) as Hcases. rewrite Hr in Hcases.
        rewrite bool_decide_eq_false_2 in Hcases
          by (subst d'; now simplify_map_eq).
        now rewrite (accountRecord_hashes _ _ _ Hcases).
      * now rewrite (accountRecord_other a b _ _ Ho Hne).
    + intros t0 w1 Hr. destruct (afterScan_frame t0 w1) as (_ & _ & Hh).
      now rewrite (accountRecord_hashes _ _ _ Hh).
    + intros w1 [Hc Hr]. destruct (checked_frame a w1) as (Hc1 & _).
      pose proof (checked_cases a w1) as Hcases.
      destruct Hr as [Hr|Hr]; rewrite Hr in Hcases.
      * rewrite bool_decide_eq_true_2, Hparse in Hcases by exact Hopen.
        destruct (Z.leb_spec openUntil (clock (checked e a w1))); [|lia].
        exact Hcases.
      * rewrite bool_decide_eq_false_2 in Hcases
          by (subst d'; now simplify_map_eq).
        now rewrite (accountRecord_hashes _ _ _ Hcases).
  - intros a Hstate.
    apply (recoverTypes_preserves
             (fun w1 => accountRecord (reg w1) a = accountRecord (reg w) a)).
    + intros b w1 Hr. destruct (checked_frame b w1) as (_ & _ & _ & Ho).
      destruct (decide (a = b)) as [<-|Hne].
      * pose proof (checked_cases a w1) as Hcases. rewrite Hr in Hcases.
        unfold accountField in Hstate.
        destruct (accountRecord (reg w) a) as [d|]; cbn in Hstate.
        -- rewrite bool_decide_eq_false_2 in Hcases by exact Hstate.
           now rewrite (accountRecord_hashes _ _ _ Hcases).
        -- now rewrite (accountRecord_hashes _ _ _ Hcases).
      * now rewrite (accountRecord_other a b _ _ Ho Hne).
    + intros t0 w1 Hr. destruct (afterScan_frame t0 w1) as (_ & _ & Hh).
      now rewrite (accountRecord_hashes _ _ _ Hh).
    + reflexivity.
  - intros a openUntil d Hrec Hparse Hearly.
    assert (Hgen : forall types c w1,
      clock (recoverTypes e types c w1).2 < openUntil ->
      accountRecord (reg w1) a = Some d ->
      accountRecord (reg (recoverTypes e types c w1).2) a = Some d).
    { assert (Hstep : forall b w1,
        clock (checked e b w1) < openUntil ->
        accountRecord (reg w1) a = Some d ->
        accountRecord (reg (checked e b w1)) a = Some d).
      { intros b w1 Hc Hr. destruct (checked_frame b w1) as (_ & _ & _ & Ho).
        destruct (decide (a = b)) as [<-|Hne].
        - pose proof (checked_cases a w1) as Hcases. rewrite Hr, Hparse in Hcases.
          destruct (Z.leb_spec openUntil (clock (checked e a w1))); [lia|].
          destruct (bool_decide _);
            now rewrite (accountRecord_hashes _ _ _ Hcases).
        - now rewrite (accountRecord_other a b _ _ Ho Hne). }
      assert (Heach : forall ids c w1,
        clock (recoverEach e ids c w1).2 < openUntil ->
        accountRecord (reg w1) a = Some d ->
        accountRecord (reg (recoverEach e ids c w1).2) a = Some d).
      { induction ids as [|b rest IH]; intros c w1 Hc Hr; [exact Hr|].
        destruct (recoverEach_cons b rest c w1) as [c' Heq].
        rewrite Heq in Hc |- *. apply IH; [exact Hc|]. apply Hstep; [|exact Hr].
        assert (Hmono : clock (checked e b w1) <=
                        clock (recoverEach e rest c' (checked e b w1)).2).
        { apply (recoverEach_preserves
                   (fun w2 => clock (checked e b w1) <= clock w2)).
          - intros b0 w2 H. destruct (checked_frame b0 w2) as (? & _). lia.
          - apply Z.le_refl. }
        eapply Z.le_lt_trans; [exact Hmono|exact Hc]. }
      induction types as [|t0 rest IH]; intros c w1 Hc Hr; [exact Hr|].
      destruct (recoverTypes_cons t0 rest c w1) as [c' Heq].
      rewrite Heq in Hc |- *. apply IH; [exact Hc|]. apply Heach.
      - destruct (sweep_forward rest c'
                    (recoverEach e (scanned e t0) c (afterScan e t0 w1)).2
                    (recoverEach e (scanned e t0) c (afterScan e t0 w1)).2)
          as [Hmono _]; [split; [apply Z.le_refl|reflexivity]|].
        eapply Z.le_lt_trans; [exact Hmono|exact Hc].
      - destruct (afterScan_frame t0 w1) as (_ & _ & Hh).
        now rewrite (accountRecord_hashes _ _ _ Hh). }
    now apply Hgen.
Qed.

End AutoRecoveryFacts.

(** ** The results of the account rate limiter *)

Section RateLimitResults.

Import RateLimit.

Variable e : env.

(** The three error codes of [acquireRateLimit]. *)
Lemma acquireLoop_shape (fuel : nat) (cfg : config) (reqId : string)
    (startTime : Z) (retryCount : nat) (w : world) (r : result) (w' : world) :
  acquireLoop fuel e cfg reqId startTime retryCount w = Some (r, w') ->
  r_requestId r = reqId /\
  r_skipped r = false /\
  if r_acquired r then r_error r = None /\ is_Some (r_waitedMs r)
  else
    r_waitedMs r = None /\
    (r_error r = Some "queue_timeout" \/
     r_error r = Some "rate_limit_exceeded" \/
     r_error r = Some "rate_limit_backend_error").
Proof.
  revert retryCount w.
  induction fuel as [|fuel IH]; intros retryCount w; [discriminate|].
  cbn [acquireLoop].
  destruct (clock w - startTime <? queueTimeoutMs cfg);
    [|intros [= <- <-]; cbn; auto].
  destruct (acquireAccountRateLimit e w) as [[|reply] w1];
    [intros [= <- <-]; cbn; auto 6|].
  destruct (acquired reply); [intros [= <- <-]; cbn; eauto|].
  destruct (negb (enableQueueing cfg)); [intros [= <- <-]; cbn; auto 6|].
  repeat case_match; try (intros [= <- <-]; cbn; now auto 6); apply IH.
Qed.

(** X15.  The shape of a result.  Whatever the store answers,
    a result of [acquireRateLimit] carries the request identifier of the
    caller (a fresh one when none was given); it is marked [skipped]
    exactly when limiting is off for the account, and then it is granted
    without any attempt on the store; a result that is granted has no
    error, and one that is not granted has one of the three error codes
    [queue_timeout], [rate_limit_exceeded] and [rate_limit_backend_error],
    and no [waitedMs]. *)
Theorem acquire_result_shape
    (fuel : nat) (accountId : string) (requestId : option string)
    (w : world) (r : result) (w' : world) :
  acquireRateLimit fuel e accountId requestId w = Some (r, w') ->
  let cfg := (getAccountConfig e accountId w).1 in
  r_requestId r = orUuid e requestId /\
  r_skipped r = negb (enabled cfg) /\
  (r_skipped r = true ->
   r_acquired r = true /\ trace w' = trace w /\ attempts w' = attempts w) /\
  if r_acquired r then r_error r = None
  else
    r_waitedMs r = None /\
    (r_error r = Some "queue_timeout" \/
     r_error r = Some "rate_limit_exceeded" \/
     r_error r = Some "rate_limit_backend_error").
Proof.
  unfold acquireRateLimit.
  destruct (getAccountConfig_frame e accountId w) as (_ & Ht & _ & Ha).
  destruct (getAccountConfig e accountId w) as [cfg w0]. cbn [fst snd] in *.
  destruct (enabled cfg); cbn [negb].
  - intros Hloop. apply acquireLoop_shape in Hloop as (Hid & Hskip & Hshape).
    split; [exact Hid|]. split; [exact Hskip|].
    split; [rewrite Hskip; discriminate|].
    destruct (r_acquired r); [apply Hshape|exact Hshape].
  - intros [= <- <-]. cbn. repeat split; assumption.
Qed.

(** X16.  A time-out of zero never asks the store.  When limiting is on for
    the account and [queueTimeoutMs] is zero or less, the loop of
    [acquireRateLimit] is not entered: the request is refused with
    [queue_timeout] without one attempt on the store, however free the
    window is. *)
Theorem zero_timeout_never_asks
    (fuel : nat) (accountId : string) (requestId : option string) (w : world) :
  let cfg := (getAccountConfig e accountId w).1 in
  enabled cfg = true ->
  queueTimeoutMs cfg <= 0 ->
  (acquireRateLimit (S fuel) e accountId requestId w)
  = Some (failed (orUuid e requestId) "queue_timeout",
          (getAccountConfig e accountId w).2) /\
  trace (getAccountConfig e accountId w).2 = trace w /\
  attempts (getAccountConfig e accountId w).2 = attempts w.
Proof.
  intros cfg Henabled Htimeout. subst cfg. unfold acquireRateLimit.
  destruct (getAccountConfig_frame e accountId w) as (_ & Ht & _ & Ha).
  destruct (getAccountConfig e accountId w) as [cfg w0]. cbn [fst snd] in *.
  rewrite Henabled. cbn [negb acquireLoop].
  rewrite Z.sub_diag.
  destruct (Z.ltb_spec 0 (queueTimeoutMs cfg)); [lia|]. auto.
Qed.

(** X17.  Without queueing the store is asked once.  When limiting is on
    for the account, queueing is off and the time-out is positive,
    [acquireRateLimit] makes one attempt on the store and sleeps on no
    timer: the request is granted when the store grants it, refused with
    [rate_limit_exceeded] when the window is full, and with
    [rate_limit_backend_error] when the store throws. *)
Theorem no_queueing_asks_once
    (fuel : nat) (accountId : string) (requestId : option string) (w : world) :
  let cfg := (getAccountConfig e accountId w).1 in
  let out := acquireRateLimit (S fuel) e accountId requestId w in
  enabled cfg = true ->
  enableQueueing cfg = false ->
  0 < queueTimeoutMs cfg ->
  exists r w',
    out = Some (r, w') /\
    trace w' = (trace w ++ [EvAcquire (attempts w)])%list /\
    match replies e (attempts w) with
    | StoreThrows =>
        r = failed (orUuid e requestId) "rate_limit_backend_error"
    | StoreReplies reply =>
        if acquired reply then r_acquired r = true /\ r_error r = None
        else r = failed (orUuid e requestId) "rate_limit_exceeded"
    end.
Proof.
  intros cfg out Henabled Hqueue Htimeout. subst cfg out.
  unfold acquireRateLimit.
  destruct (getAccountConfig_frame e accountId w) as (_ & Ht & _ & Ha).
  destruct (getAccountConfig e accountId w) as [cfg w0]. cbn [fst snd] in *.
  rewrite Henabled. cbn [negb acquireLoop].
  rewrite Z.sub_diag.
  destruct (Z.ltb_spec 0 (queueTimeoutMs cfg)); [|lia].
  unfold acquireAccountRateLimit. rewrite Ha.
  destruct (replies e (attempts w)) as [|reply].
  - eexists _, _. split; [reflexivity|]. cbn. now rewrite Ht.
  - destruct (acquired reply).
    + eexists _, _. split; [reflexivity|]. cbn. now rewrite Ht.
    + rewrite Hqueue. cbn [negb].
      eexists _, _. split; [reflexivity|]. cbn. now rewrite Ht.
Qed.

(** X18.  The switch of an account is the string ["true"].  When the
    registry answers and the record of the account has a field
    [rateLimitEnabled], limiting is on for the account exactly when the
    field is the string ["true"], whatever the global configuration says;
    with any other value ([false], [1], [TRUE], ...) [acquireRateLimit]
    grants the request as [skipped], without an attempt on the store. *)
Theorem account_switch_is_the_string_true
    (fuel : nat) (accountId : string) (requestId : option string)
    (value : string) (d : Registry.hash) (w : world) :
  (forall n op, fault e n op = false) ->
  Registry.accountRecord (reg w) accountId = Some d ->
  d !! "rateLimitEnabled" = Some value ->
  enabled (getAccountConfig e accountId w).1 = String.eqb value "true" /\
  (value <> "true" ->
   exists w',
     acquireRateLimit fuel e accountId requestId w =
       Some ({| r_acquired := true; r_requestId := orUuid e requestId;
                r_error := None; r_waitedMs := None; r_skipped := true |}, w') /\
     trace w' = trace w /\ attempts w' = attempts w).
Proof.
  intros Hhealthy Hrec Hfield.
  assert (Henabled :
    enabled (getAccountConfig e accountId w).1 = String.eqb value "true").
  { unfold getAccountConfig, Registry._getAccountData.
    pose proof (getAccountDataFrom_locate (fault e) Registry.accountTypes
                  accountId (reg w) Hhealthy) as Hdata.
    unfold Registry.accountRecord in Hrec. rewrite Hrec in Hdata.
    destruct (Registry.getAccountDataFrom _ _ _ _) as [data reg1].
    cbn [fst] in Hdata. subst data. cbn. now rewrite Hfield. }
  split; [exact Henabled|].
  intros Hvalue. unfold acquireRateLimit.
  destruct (getAccountConfig_frame e accountId w) as (_ & Ht & _ & Ha).
  destruct (getAccountConfig e accountId w) as [cfg w0]. cbn [fst snd] in *.
  rewrite Henabled.
  destruct (String.eqb_spec value "true"); [contradiction|].
  cbn [negb]. eauto.
Qed.

End RateLimitResults.

(** ** The IP helper *)

Section IpHelperFacts.

Import IpHelper.

(** *** Decimal strings hold digits only *)

Lemma includes_digits (c : ascii) (d : Decimal.uint) :
  digitValue 10 c = None ->
  includes c (NilEmpty.string_of_uint d) = false.
Proof.
  intros Hc.
  induction d; cbn [NilEmpty.string_of_uint includes]; [reflexivity|..];
    match goal with
    | |- context [Ascii.eqb ?x c] =>
        destruct (Ascii.eqb_spec x c) as [<-|_];
        [vm_compute in Hc; discriminate Hc|exact IHd]
    end.
Qed.

(** The decimal string of a natural number: digits, and one at least. *)
Lemma toString_uint (n : Z) :
  0 <= n ->
  exists d, d <> Decimal.Nil /\ toString n = NilEmpty.string_of_uint d.
Proof.
  intros Hn. unfold toString. destruct n as [|p|p]; [| |lia].
  - exists (Decimal.D0 Decimal.Nil). split; [discriminate|reflexivity].
  - exists (Pos.to_uint p).
    pose proof (DecimalPos.Unsigned.to_uint_nonnil p) as Hd.
    split; [exact Hd|]. cbn [Z.to_int NilZero.string_of_int].
    now apply string_of_uint_nonnil.
Qed.

Lemma toString_includes (c : ascii) (n : Z) :
  0 <= n -> digitValue 10 c = None -> includes c (toString n) = false.
Proof.
  intros Hn Hc. destruct (toString_uint n Hn) as (d & _ & ->).
  now apply includes_digits.
Qed.

(** It starts with a digit. *)
Lemma toString_head (n : Z) :
  0 <= n ->
  exists c rest, toString n = String c rest /\ is_Some (digitValue 10 c).
Proof.
  intros Hn. destruct (toString_uint n Hn) as (d & Hd & ->).
  destruct d; [contradiction|..]; cbn [NilEmpty.string_of_uint];
    eexists _, _; (split; [reflexivity|]); vm_compute; eauto.
Qed.

(** *** Splitting *)

Lemma append_cons (c : ascii) (s t : string) :
  String c s +:+ t = String c (s +:+ t).
Proof. reflexivity. Qed.

Lemma split_whole (c : ascii) (s : string) :
  includes c s = false -> split c s = [s].
Proof.
  induction s as [|c' s IH]; [reflexivity|].
  cbn [includes split]. destruct (Ascii.eqb c' c); [discriminate|].
  intros H. now rewrite (IH H).
Qed.

Lemma split_app (c : ascii) (s t : string) :
  includes c s = false ->
  split c (s +:+ String c t) = s :: split c t.
Proof.
  induction s as [|c' s IH].
  - intros _. change (EmptyString +:+ String c t) with (String c t).
    cbn [split]. now rewrite Ascii.eqb_refl.
  - cbn [includes]. rewrite append_cons. cbn [split].
    destruct (Ascii.eqb c' c); [discriminate|].
    intros H. now rewrite (IH H).
Qed.

Lemma includes_app (c : ascii) (s t : string) :
  includes c (s +:+ String c t) = true.
Proof.
  induction s as [|c' s IH].
  - change (EmptyString +:+ String c t) with (String c t).
    cbn [includes]. now rewrite Ascii.eqb_refl.
  - rewrite append_cons. cbn [includes]. now destruct (Ascii.eqb c' c).
Qed.

Lemma split_dotted (a b c d : Z) :
  0 <= a -> 0 <= b -> 0 <= c -> 0 <= d ->
  split "." (dotted a b c d) = [toString a; toString b; toString c; toString d] /\
  includes "." (dotted a b c d) = true.
Proof.
  intros Ha Hb Hc Hd.
  change (dotted a b c d)
    with (toString a +:+ String "."
            (toString b +:+ String "." (toString c +:+ String "." (toString d)))).
  split; [|apply includes_app].
  rewrite (split_app "." (toString a)) by (now apply toString_includes).
  rewrite (split_app "." (toString b)) by (now apply toString_includes).
  rewrite (split_app "." (toString c)) by (now apply toString_includes).
  rewrite split_whole by (now apply toString_includes). reflexivity.
Qed.

(** *** The numbers from 0 to 255 *)

Lemma octets_read_back :
  forallb
    (fun n : nat =>
       let z := Z.of_nat n in
       let x := Number (toString z) in
       negb (isNaN x) && negb (SFltb x (ofInteger 0)) &&
       negb (SFltb (ofInteger 255) x) &&
       Bool.eqb (SFeqb x (ofInteger 127)) (z =? 127) &&
       Bool.eqb (SFeqb x (ofInteger 10)) (z =? 10) &&
       Bool.eqb (SFeqb x (ofInteger 172)) (z =? 172) &&
       Bool.eqb (SFeqb x (ofInteger 192)) (z =? 192) &&
       Bool.eqb (SFeqb x (ofInteger 169)) (z =? 169) &&
       Bool.eqb (SFeqb x (ofInteger 0)) (z =? 0) &&
       Bool.eqb (SFeqb x (ofInteger 168)) (z =? 168) &&
       Bool.eqb (SFeqb x (ofInteger 254)) (z =? 254) &&
       Bool.eqb (SFleb (ofInteger 16) x) (16 <=? z) &&
       Bool.eqb (SFleb x (ofInteger 31)) (z <=? 31))
    (seq 0 256) = true.
Proof. vm_compute. reflexivity. Qed.

Lemma octet_facts (z : Z) :
  0 <= z <= 255 ->
  let x := Number (toString z) in
  isNaN x = false /\ SFltb x (ofInteger 0) = false /\
  SFltb (ofInteger 255) x = false /\
  SFeqb x (ofInteger 127) = (z =? 127) /\
  SFeqb x (ofInteger 10) = (z =? 10) /\
  SFeqb x (ofInteger 172) = (z =? 172) /\
  SFeqb x (ofInteger 192) = (z =? 192) /\
  SFeqb x (ofInteger 169) = (z =? 169) /\
  SFeqb x (ofInteger 0) = (z =? 0) /\
  SFeqb x (ofInteger 168) = (z =? 168) /\
  SFeqb x (ofInteger 254) = (z =? 254) /\
  SFleb (ofInteger 16) x = (16 <=? z) /\
  SFleb x (ofInteger 31) = (z <=? 31).
Proof.
  intros Hz.
  pose proof octets_read_back as Hall.
  rewrite forallb_forall in Hall.
  specialize (Hall (Z.to_nat z)).
  rewrite Z2Nat.id in Hall by lia.
  assert (Hin : In (Z.to_nat z) (seq 0 256)) by (apply in_seq; lia).
  specialize (Hall Hin). cbv zeta in Hall |- *.
  repeat (apply andb_prop in Hall as [Hall ?]).
  repeat match goal with
         | H : negb _ = true |- _ => apply negb_true_iff in H
         | H : Bool.eqb _ _ = true |- _ => apply Bool.eqb_prop in H
         end.
  repeat (split; [assumption|]). assumption.
Qed.

(** X19.  Dotted quads.  On the dotted quad of four numbers from 0 to 255,
    written in decimal, [isPrivateIP] answers by the blocks its comments
    name: it is true exactly for 127.0.0.0/8, 10.0.0.0/8, 172.16.0.0/12,
    192.168.0.0/16, 169.254.0.0/16 and 0.0.0.0/8; and it answers the same
    on the address with the prefix [::ffff:] of an IPv4-mapped IPv6
    address. *)
Theorem isPrivateIP_dotted_quad (a b c d : Z) :
  0 <= a <= 255 -> 0 <= b <= 255 -> 0 <= c <= 255 -> 0 <= d <= 255 ->
  isPrivateIP (dotted a b c d) = privateBlock a b /\
  isPrivateIP ("::ffff:" +:+ dotted a b c d) = privateBlock a b.
Proof.
  intros Ha Hb Hc Hd.
  assert (Hclean : forall ip,
    stripMappedPrefix ip = dotted a b c d ->
    String.eqb ip EmptyString || String.eqb ip "unknown" = false ->
    isPrivateIP ip = privateBlock a b).
  { intros ip Hstrip Hknown. unfold isPrivateIP. rewrite Hknown, Hstrip.
    destruct (split_dotted a b c d) as [-> ->]; try lia.
    cbn [map length Nat.eqb negb orb existsb].
    destruct (octet_facts a Ha) as (-> & -> & -> & -> & -> & -> & -> & -> & -> & _).
    destruct (octet_facts b Hb)
      as (-> & -> & -> & _ & _ & _ & _ & _ & _ & -> & -> & -> & ->).
    destruct (octet_facts c Hc) as (-> & -> & -> & _).
    destruct (octet_facts d Hd) as (-> & -> & -> & _).
    cbn [orb]. unfold privateBlock.
    destruct (a =? 127), (a =? 10), (a =? 172), (16 <=? b), (b <=? 31),
      (a =? 192), (b =? 168), (a =? 169), (b =? 254), (a =? 0); reflexivity. }
  assert (Hnat : 0 <= a) by lia.
  destruct (toString_head a Hnat) as (ch & rest & Hhead & Hdigit).
  split; apply Hclean.
  - unfold stripMappedPrefix, startsWith, dotted. rewrite Hhead, append_cons.
    cbn [String.prefix].
    destruct (Ascii.ascii_dec ":" ch) as [<-|_]; [|reflexivity].
    vm_compute in Hdigit. now destruct Hdigit.
  - unfold dotted. rewrite Hhead, append_cons. cbn [String.eqb].
    destruct (Ascii.eqb_spec ch "u") as [->|_]; [|reflexivity].
    vm_compute in Hdigit. now destruct Hdigit.
  - unfold stripMappedPrefix, startsWith. rewrite prefix_app.
    apply (dropChars_app "::ffff:").
  - reflexivity.
Qed.

(** *** Strings that are no number *)

Lemma stripBytes_includes (c : ascii) (bytes : list nat) (s s' : string) :
  forallb (fun b => negb (b =? nat_of_ascii c)%nat) bytes = true ->
  stripBytes bytes s = Some s' ->
  includes c s' = includes c s.
Proof.
  revert s. induction bytes as [|b bytes IH]; intros s Hbytes; cbn [stripBytes].
  - now intros [= ->].
  - cbn [forallb] in Hbytes. apply andb_prop in Hbytes as [Hb Hbytes].
    destruct s as [|x s0]; [discriminate|].
    destruct (Nat.eqb_spec (nat_of_ascii x) b) as [Hx|_]; [|discriminate].
    intros Hrest. rewrite (IH _ Hbytes Hrest). cbn [includes].
    destruct (Ascii.eqb_spec x c) as [->|_]; [|reflexivity].
    subst b. now rewrite Nat.eqb_refl in Hb.
Qed.

Lemma stripAny_includes (c : ascii) (chars : list (list nat)) (s s' : string) :
  forallb (forallb (fun b => negb (b =? nat_of_ascii c)%nat)) chars = true ->
  stripAny chars s = Some s' ->
  includes c s' = includes c s.
Proof.
  induction chars as [|bytes chars IH]; cbn [stripAny forallb]; [discriminate|].
  intros Hchars. apply andb_prop in Hchars as [Hbytes Hchars].
  destruct (stripBytes bytes s) as [s0|] eqn:Hstrip.
  - intros [= <-]. now apply (stripBytes_includes c bytes).
  - now apply IH.
Qed.

Lemma trimStartWith_includes (c : ascii) (chars : list (list nat))
    (fuel : nat) (s : string) :
  forallb (forallb (fun b => negb (b =? nat_of_ascii c)%nat)) chars = true ->
  includes c (trimStartWith chars fuel s) = includes c s.
Proof.
  intros Hchars. revert s.
  induction fuel as [|fuel IH]; intros s; cbn [trimStartWith]; [reflexivity|].
  destruct (stripAny chars s) as [s'|] eqn:Hstrip; [|reflexivity].
  rewrite IH. now apply (stripAny_includes c chars).
Qed.

Lemma includes_rev_app (c : ascii) (s t : string) :
  includes c (String.rev_app s t) = includes c s || includes c t.
Proof.
  revert t. induction s as [|x s IH]; intros t; [reflexivity|].
  cbn [String.rev_app includes]. rewrite IH. cbn [includes].
  destruct (Ascii.eqb x c); [now rewrite orb_true_r|reflexivity].
Qed.

Lemma includes_rev (c : ascii) (s : string) :
  includes c (String.rev s) = includes c s.
Proof. unfold String.rev. rewrite includes_rev_app. apply orb_false_r. Qed.

(** Trimming keeps what is no white space. *)
Lemma trim_includes (c : ascii) (s : string) :
  forallb (forallb (fun b => negb (b =? nat_of_ascii c)%nat)) whiteSpaceChars = true ->
  includes c (trim s) = includes c s.
Proof.
  intros Hchars. unfold trim.
  rewrite includes_rev, trimStartWith_includes, includes_rev,
    trimStartWith_includes; [reflexivity|exact Hchars|].
  clear s. revert Hchars. generalize whiteSpaceChars as chars.
  induction chars as [|bytes chars IH]; [reflexivity|].
  cbn [map forallb]. intros Hchars. apply andb_prop in Hchars as [Hbytes Hchars].
  rewrite (IH Hchars), andb_true_r.
  rewrite forallb_forall in Hbytes |- *.
  intros b Hb. apply Hbytes. now apply in_rev.
Qed.

Lemma readDigits_includes (c : ascii) (radix : Z) (s : string) (acc count : Z) :
  digitValue radix c = None ->
  includes c (readDigits radix s acc count).2 = includes c s.
Proof.
  intros Hc. revert acc count.
  induction s as [|x s IH]; intros acc count; cbn [readDigits]; [reflexivity|].
  destruct (digitValue radix x) as [d|] eqn:Hx; [|reflexivity].
  rewrite IH. cbn [includes].
  destruct (Ascii.eqb_spec x c) as [->|_]; [congruence|reflexivity].
Qed.

Lemma prefix_split (p s : string) :
  String.prefix p s = true -> s = p +:+ dropChars (String.length p) s.
Proof.
  revert s. induction p as [|x p IH]; intros s; [now destruct s|].
  destruct s as [|y s]; [discriminate|]. cbn [String.prefix].
  destruct (Ascii.ascii_dec x y) as [<-|_]; [|discriminate].
  intros H. rewrite append_cons. cbn [String.length dropChars]. f_equal.
  now apply IH.
Qed.

Lemma includes_append (c : ascii) (s t : string) :
  includes c (s +:+ t) = includes c s || includes c t.
Proof.
  induction s as [|x s IH]; [reflexivity|].
  rewrite append_cons. cbn [includes]. now destruct (Ascii.eqb x c).
Qed.

Lemma includes_dropped (c : ascii) (p s : string) :
  includes c p = false ->
  startsWith s p = true ->
  includes c (dropChars (String.length p) s) = includes c s.
Proof.
  intros Hp Hs. apply prefix_split in Hs. rewrite Hs at 2.
  now rewrite includes_append, Hp.
Qed.

Lemma includes_nonempty (c : ascii) (s : string) :
  includes c s = true -> String.eqb s EmptyString = false.
Proof. now destruct s. Qed.

Section NotANumber.

Variable c : ascii.

Hypothesis c_no_space :
  forallb (forallb (fun b => negb (b =? nat_of_ascii c)%nat)) whiteSpaceChars = true.

Hypothesis c_no_digit : forall radix, digitValue radix c = None.

Hypothesis c_no_mark :
  forall p,
    List.In p ["0x"; "0X"; "0o"; "0O"; "0b"; "0B"; "+"; "-"; "."; "e"; "E";
               "Infinity"] ->
    includes c p = false.

Ltac mark := apply c_no_mark; cbn [List.In]; repeat (first [left; reflexivity|right]).

Lemma nonDecimal_nan (radix : Z) (s : string) :
  includes c s = true -> nonDecimal radix s = S754_nan.
Proof.
  intros Hs. unfold nonDecimal.
  pose proof (readDigits_includes c radix s 0 0 (c_no_digit radix)) as Hrest.
  destruct (readDigits radix s 0 0) as [[value digits] rest]. cbn [snd] in Hrest.
  rewrite Hs in Hrest. rewrite (includes_nonempty _ _ Hrest).
  now rewrite orb_true_r.
Qed.

Lemma unsignedDecimal_nan (negative : bool) (s : string) :
  includes c s = true -> unsignedDecimal negative s = S754_nan.
Proof.
  intros Hs. unfold unsignedDecimal.
  destruct (String.eqb_spec s "Infinity") as [->|_].
  { assert (includes c "Infinity" = false) by mark. congruence. }
  pose proof (readDigits_includes c 10 s 0 0 (c_no_digit 10)) as H1.
  destruct (readDigits 10 s 0 0) as [[int intDigits] s1]. cbn [snd] in H1.
  rewrite Hs in H1.
  assert (H2 : includes c
                 (if startsWith s1 "." then readDigits 10 (dropChars 1 s1) int 0
                  else (int, 0, s1)).2 = true).
  { destruct (startsWith s1 ".") eqn:Hstart; [|exact H1].
    rewrite readDigits_includes by apply c_no_digit.
    rewrite <- H1. apply (includes_dropped c "." s1); [mark|exact Hstart]. }
  destruct (if startsWith s1 "." then _ else _) as [[mantissa fractionDigits] s2].
  cbn [snd] in H2.
  destruct (intDigits + fractionDigits =? 0); [reflexivity|].
  rewrite (includes_nonempty _ _ H2).
  destruct (startsWith s2 "e" || startsWith s2 "E") eqn:Hexp; [|reflexivity].
  assert (He : includes c (dropChars 1 s2) = true).
  { apply orb_prop in Hexp as [Hexp|Hexp]; rewrite <- H2.
    - apply (includes_dropped c "e" s2); [mark|exact Hexp].
    - apply (includes_dropped c "E" s2); [mark|exact Hexp]. }
  assert (H3 : includes c
                 (if startsWith (dropChars 1 s2) "-"
                  then (true, dropChars 1 (dropChars 1 s2))
                  else if startsWith (dropChars 1 s2) "+"
                       then (false, dropChars 1 (dropChars 1 s2))
                       else (false, dropChars 1 s2)).2 = true).
  { destruct (startsWith (dropChars 1 s2) "-") eqn:Hminus; cbn [snd].
    - rewrite <- He.
      apply (includes_dropped c "-" (dropChars 1 s2)); [mark|exact Hminus].
    - destruct (startsWith (dropChars 1 s2) "+") eqn:Hplus; cbn [snd]; [|exact He].
      rewrite <- He.
      apply (includes_dropped c "+" (dropChars 1 s2)); [mark|exact Hplus]. }
  destruct (if startsWith (dropChars 1 s2) "-" then _ else _) as [minus r1].
  cbn [snd] in H3.
  pose proof (readDigits_includes c 10 r1 0 0 (c_no_digit 10)) as H4.
  destruct (readDigits 10 r1 0 0) as [[exponent exponentDigits] r2].
  cbn [snd] in H4. rewrite H3 in H4.
  rewrite (includes_nonempty _ _ H4). now rewrite orb_true_r.
Qed.

(** A string with a character that no numeric literal has is no number. *)
Lemma Number_nan (s : string) : includes c s = true -> Number s = S754_nan.
Proof.
  intros Hs. unfold Number.
  rewrite <- (trim_includes c s c_no_space) in Hs.
  set (t := trim s) in *.
  rewrite (includes_nonempty _ _ Hs).
  assert (Hdrop : forall p,
    includes c p = false -> startsWith t p = true ->
    includes c (dropChars (String.length p) t) = true).
  { intros p Hp Hstart. rewrite <- Hs. now apply includes_dropped. }
  destruct (startsWith t "0x") eqn:H0x.
  { apply nonDecimal_nan. apply (Hdrop "0x"); [mark|exact H0x]. }
  destruct (startsWith t "0X") eqn:H0X.
  { apply nonDecimal_nan. apply (Hdrop "0X"); [mark|exact H0X]. }
  destruct (startsWith t "0o") eqn:H0o.
  { apply nonDecimal_nan. apply (Hdrop "0o"); [mark|exact H0o]. }
  destruct (startsWith t "0O") eqn:H0O.
  { apply nonDecimal_nan. apply (Hdrop "0O"); [mark|exact H0O]. }
  destruct (startsWith t "0b") eqn:H0b.
  { apply nonDecimal_nan. apply (Hdrop "0b"); [mark|exact H0b]. }
  destruct (startsWith t "0B") eqn:H0B.
  { apply nonDecimal_nan. apply (Hdrop "0B"); [mark|exact H0B]. }
  cbn [orb].
  destruct (startsWith t "+") eqn:Hplus.
  { apply unsignedDecimal_nan. apply (Hdrop "+"); [mark|exact Hplus]. }
  destruct (startsWith t "-") eqn:Hminus.
  { apply unsignedDecimal_nan. apply (Hdrop "-"); [mark|exact Hminus]. }
  now apply unsignedDecimal_nan.
Qed.

End NotANumber.

Lemma colon_is_no_number (s : string) :
  includes ":" s = true -> Number s = S754_nan.
Proof.
  apply Number_nan.
  - reflexivity.
  - intros radix. reflexivity.
  - intros p Hp. cbn [List.In] in Hp.
    repeat (destruct Hp as [<-|Hp]; [reflexivity|]). contradiction.
Qed.

(** X20.  An embedded IPv4 address hides a private network.  A string with
    a dot whose part before the first dot holds a colon, and that does not
    start with the lower-case prefix [::ffff:], is never private for
    [isPrivateIP]: its first part is no number.  So [::FFFF:10.0.0.1],
    [64:ff9b::10.0.0.1] or [fd00::192.168.1.1] count as public
    addresses. *)
Theorem embedded_ipv4_is_never_private (head tail : string) :
  includes ":" head = true ->
  includes "." head = false ->
  startsWith (head +:+ "." +:+ tail) "::ffff:" = false ->
  isPrivateIP (head +:+ "." +:+ tail) = false.
Proof.
  intros Hcolon Hdot Hprefix. unfold isPrivateIP.
  destruct (_ || _); [reflexivity|].
  unfold stripMappedPrefix. rewrite Hprefix.
  change (head +:+ "." +:+ tail) with (head +:+ String "." tail).
  rewrite includes_app, (split_app "." head tail Hdot).
  cbn [map existsb].
  rewrite (colon_is_no_number head Hcolon).
  cbn [isNaN orb]. now rewrite orb_true_r.
Qed.

End IpHelperFacts.

(** ** The public address of the server and the IP whitelist *)

Section WhitelistFacts.

Import IpHelper IpWhitelist.

Variable e : env.
Variable cfg : config.

Lemma firstPublic_spec (whitelist : list string) (address : string) :
  firstPublic whitelist = Some address ->
  List.In address whitelist /\ isPrivateIP address = false.
Proof.
  induction whitelist as [|x whitelist IH]; [discriminate|].
  cbn [firstPublic]. destruct (isPrivateIP x) eqn:Hx; cbn [negb].
  - intros H. destruct (IH H). split; [now right|assumption].
  - intros [= <-]. split; [now left|assumption].
Qed.

Lemma orString_nonempty (x : option string) (fallback : string) :
  fallback <> EmptyString -> orString x fallback <> EmptyString.
Proof.
  intros Hf. unfold orString. destruct x as [s|]; [|exact Hf].
  destruct (String.eqb_spec s EmptyString); assumption.
Qed.

Lemma fetched_spec (reply : httpReply) (address : string) :
  fetched reply = Some address ->
  address <> EmptyString /\ isPrivateIP address = false.
Proof.
  unfold fetched. destruct reply as [|data]; [discriminate|].
  destruct (String.eqb_spec (trim data) EmptyString) as [|Hne]; [discriminate|].
  destruct (isPrivateIP (trim data)) eqn:Hp; [discriminate|].
  intros [= <-]. auto.
Qed.

Lemma fetchPublicIPFromAPI_spec (address : string) :
  (fetchPublicIPFromAPI e cfg).1 = Some address ->
  address <> EmptyString /\ isPrivateIP address = false /\
  (fetched (primary e) = Some address \/ fetched (backup e) = Some address).
Proof.
  unfold fetchPublicIPFromAPI.
  destruct (fetched (primary e)) as [ip|] eqn:Hp; cbn [fst].
  - intros [= <-]. destruct (fetched_spec _ _ Hp). auto.
  - intros Hb. destruct (fetched_spec _ _ Hb). auto.
Qed.

(** The answer of the [catch] of [getServerPublicIP]. *)
Lemma caught_spec :
  let caught := orString (getFallbackIPFromWhitelist cfg) "unknown" in
  caught <> EmptyString /\
  (caught = "unknown" \/
   isPrivateIP caught = false /\ List.In caught (allowedIps cfg)).
Proof.
  cbv zeta. split; [now apply orString_nonempty|].
  unfold orString, getFallbackIPFromWhitelist.
  destruct (firstPublic (allowedIps cfg)) as [ip|] eqn:Hip; [|now left].
  destruct (String.eqb ip EmptyString); [now left|].
  right. destruct (firstPublic_spec _ _ Hip). auto.
Qed.

(** X21.  The address of the server.  [getServerPublicIP] never answers the
    empty string.  Its answer is the cached value, taken as it is, or an
    address that is not private and comes from one of the two services or
    from the whitelist, or the word [unknown]; and when the address
    fetched from a service cannot be written to the cache, it is dropped
    for the fallback of the whitelist. *)
Theorem server_address_provenance :
  let address := (getServerPublicIP e cfg).1 in
  address <> EmptyString /\
  (address = "unknown" \/
   cached e = CacheValue address \/
   isPrivateIP address = false /\
   (List.In address (allowedIps cfg) \/
    fetched (primary e) = Some address \/
    fetched (backup e) = Some address)) /\
  (forall fetchedIP,
      cached e = CacheNull ->
      (fetchPublicIPFromAPI e cfg).1 = Some fetchedIP ->
      setexThrows e = true ->
      address = orString (getFallbackIPFromWhitelist cfg) "unknown").
Proof.
  cbv zeta. unfold getServerPublicIP.
  destruct caught_spec as [Hne Hcaught]. cbv zeta in Hne, Hcaught.
  assert (Hc : orString (getFallbackIPFromWhitelist cfg) "unknown" = "unknown" \/
               cached e = CacheValue (orString (getFallbackIPFromWhitelist cfg) "unknown") \/
               isPrivateIP (orString (getFallbackIPFromWhitelist cfg) "unknown") = false /\
               (List.In (orString (getFallbackIPFromWhitelist cfg) "unknown")
                        (allowedIps cfg) \/
                fetched (primary e) =
                  Some (orString (getFallbackIPFromWhitelist cfg) "unknown") \/
                fetched (backup e) =
                  Some (orString (getFallbackIPFromWhitelist cfg) "unknown"))).
  { destruct Hcaught as [->|[H1 H2]]; [now left|]. right. right. auto. }
  assert (Hmiss :
    forall get,
      let out :=
        match fetchPublicIPFromAPI e cfg with
        | (Some fetchedIP, actions) =>
            (if setexThrows e
             then orString (getFallbackIPFromWhitelist cfg) "unknown"
             else fetchedIP,
             get :: actions ++
             [CacheSetex PUBLIC_IP_CACHE_KEY
                match cacheDuration cfg with
                | Some d => if d =? 0 then 3600 else d
                | None => 3600
                end fetchedIP])%list
        | (None, actions) =>
            match getFallbackIPFromWhitelist cfg with
            | Some fallbackIP =>
                if String.eqb fallbackIP EmptyString
                then ("unknown", get :: actions)
                else
                  (if setexThrows e
                   then orString (getFallbackIPFromWhitelist cfg) "unknown"
                   else fallbackIP,
                   get :: actions ++
                   [CacheSetex PUBLIC_IP_CACHE_KEY 600 fallbackIP])%list
            | None => ("unknown", get :: actions)
            end
        end in
      out.1 <> EmptyString /\
      (out.1 = "unknown" \/
       isPrivateIP (out.1) = false /\
       (List.In (out.1) (allowedIps cfg) \/
        fetched (primary e) = Some (out.1) \/
        fetched (backup e) = Some (out.1))) /\
      (forall fetchedIP,
          (fetchPublicIPFromAPI e cfg).1 = Some fetchedIP ->
          setexThrows e = true ->
          out.1 = orString (getFallbackIPFromWhitelist cfg) "unknown")).
  { intros get. cbv zeta.
    pose proof fetchPublicIPFromAPI_spec as Hfetch.
    destruct (fetchPublicIPFromAPI e cfg) as [[fetchedIP|] actions]; cbn [fst] in *.
    - destruct (Hfetch fetchedIP eq_refl) as (Hf1 & Hf2 & Hf3).
      destruct (setexThrows e); cbn [fst].
      + split; [exact Hne|]. split; [|auto].
        destruct Hcaught as [->|[H1 H2]]; [now left|]. right. auto.
      + split; [exact Hf1|]. split; [|discriminate]. right. auto.
    - unfold orString in *. unfold getFallbackIPFromWhitelist in *.
      destruct (firstPublic (allowedIps cfg)) as [fallbackIP|] eqn:Hfb.
      + destruct (firstPublic_spec _ _ Hfb) as [Hin Hpub].
        destruct (String.eqb_spec fallbackIP EmptyString) as [|Hnonempty].
        * cbn [fst]. split; [discriminate|]. split; [now left|discriminate].
        * destruct (setexThrows e); cbn [fst];
            (split; [exact Hnonempty|]); (split; [|discriminate]); right; auto.
      + cbn [fst]. split; [discriminate|]. split; [now left|discriminate]. }
  destruct (cached e) as [| |cachedIP] eqn:Hcached.
  - cbn [fst]. split; [exact Hne|]. split; [|discriminate].
    destruct Hc as [Hc|[Hc|Hc]]; [now left|discriminate|]. right. right. exact Hc.
  - destruct (Hmiss (CacheGet PUBLIC_IP_CACHE_KEY)) as (H1 & H2 & H3).
    split; [exact H1|]. split; [|intros fetchedIP _; apply H3].
    destruct H2 as [H2|H2]; [now left|]. right. right. exact H2.
  - destruct (String.eqb_spec cachedIP EmptyString) as [->|Hnonempty].
    + destruct (Hmiss (CacheGet PUBLIC_IP_CACHE_KEY)) as (H1 & H2 & H3).
      split; [exact H1|]. split; [|discriminate].
      destruct H2 as [H2|H2]; [now left|]. right. right. exact H2.
    + cbn [fst]. split; [exact Hnonempty|]. split; [|discriminate].
      right. now left.
Qed.

(** The test of the whitelist, entry by entry. *)
Lemma existsb_matches (clientIp : string) (whitelist : list string) :
  existsb (matches clientIp) whitelist = true <->
  exists allowedIp,
    List.In allowedIp whitelist /\
    (clientIp = allowedIp \/ mappedAddress clientIp = Some allowedIp).
Proof.
  rewrite existsb_exists. unfold matches. split.
  - intros (allowedIp & Hin & Hm). exists allowedIp. split; [exact Hin|].
    apply orb_prop in Hm as [Hm|Hm].
    + left. now apply String.eqb_eq.
    + right. destruct (mappedAddress clientIp) as [address|]; [|discriminate].
      apply String.eqb_eq in Hm. now subst.
  - intros (allowedIp & Hin & [->|Hm]); exists allowedIp; (split; [exact Hin|]).
    + now rewrite String.eqb_refl.
    + rewrite Hm, String.eqb_refl. apply orb_true_r.
Qed.

(** X22.  The decision of the whitelist.  With the whitelist off the
    middleware hands every request on, without resolving its address.
    With the whitelist on, it hands the request on exactly when the
    resolved address is an entry of the whitelist or has, after its first
    [::ffff:], an entry of the whitelist; otherwise, and always when the
    whitelist is empty, it answers 403 with the resolved address. *)
Theorem whitelist_decision (req : request) :
  let out := ipWhitelistMiddleware e cfg req in
  let clientIp := (resolveClientIP e cfg req).1 in
  (whitelistEnabled cfg = false -> out = (Next, [])) /\
  (whitelistEnabled cfg = true ->
   out.2 = (resolveClientIP e cfg req).2 /\
   (out.1 = Next <->
    exists allowedIp,
      List.In allowedIp (allowedIps cfg) /\
      (clientIp = allowedIp \/ mappedAddress clientIp = Some allowedIp)) /\
   (out.1 = Next \/ exists message, out.1 = Forbidden message clientIp)).
Proof.
  cbv zeta. unfold ipWhitelistMiddleware. split.
  - now intros ->.
  - intros ->. cbn [negb].
    destruct (resolveClientIP e cfg req) as [clientIp actions]. cbn [fst snd].
    rewrite <- existsb_matches.
    destruct (allowedIps cfg) as [|allowedIp whitelist] eqn:Hlist.
    + cbn [fst snd existsb]. split; [reflexivity|]. split; [|eauto].
      split; discriminate.
    + destruct (existsb (matches clientIp) (allowedIp :: whitelist)); cbn [fst snd].
      * split; [reflexivity|]. split; [tauto|now left].
      * split; [reflexivity|]. split; [|eauto]. split; discriminate.
Qed.

(** X23.  Requests from private addresses.  Unless the strategy is [raw],
    the middleware sees, for every request from a private address, the
    address of the server: its decision is the same for all of them.  And
    when that address comes from the fallback of the whitelist (the cache
    throws, or it is empty and either both services fail or the cache
    cannot be written) and the whitelist has a public address, the
    request is handed on. *)
Theorem private_clients_pass_on_the_fallback (req : request) (fallback : string) :
  whitelistEnabled cfg = true ->
  String.eqb (orString (strategy cfg) "auto") "raw" = false ->
  isPrivateIP (originalIP req) = true ->
  (forall req',
      isPrivateIP (originalIP req') = true ->
      ipWhitelistMiddleware e cfg req' = ipWhitelistMiddleware e cfg req) /\
  (getFallbackIPFromWhitelist cfg = Some fallback ->
   fallback <> EmptyString ->
   cached e = CacheThrows \/
   cached e = CacheNull /\
   ((fetchPublicIPFromAPI e cfg).1 = None \/ setexThrows e = true) ->
   (ipWhitelistMiddleware e cfg req).1 = Next).
Proof.
  intros Henabled Hstrategy Hprivate.
  assert (Hresolve : forall req',
    isPrivateIP (originalIP req') = true ->
    resolveClientIP e cfg req' = getServerPublicIP e cfg).
  { intros req' Hp. unfold resolveClientIP. now rewrite Hstrategy, Hp. }
  split.
  - intros req' Hp. unfold ipWhitelistMiddleware.
    now rewrite (Hresolve req' Hp), (Hresolve req Hprivate).
  - intros Hfallback Hnonempty Hsource.
    destruct (firstPublic_spec _ _ Hfallback) as [Hin _].
    assert (Haddress : (getServerPublicIP e cfg).1 = fallback).
    { unfold getServerPublicIP. rewrite Hfallback. unfold orString.
      destruct (String.eqb_spec fallback EmptyString); [contradiction|].
      destruct Hsource as [->|[-> Hsource]]; [reflexivity|].
      destruct (fetchPublicIPFromAPI e cfg) as [[fetchedIP|] actions];
        cbn [fst] in *.
      - destruct Hsource as [Hnone|Hthrows]; [discriminate|].
        now rewrite Hthrows.
      - now destruct (setexThrows e). }
    unfold ipWhitelistMiddleware. rewrite Henabled, (Hresolve req Hprivate).
    cbn [negb].
    destruct (getServerPublicIP e cfg) as [clientIp actions]. cbn [fst] in Haddress.
    subst clientIp.
    assert (Hmatch : existsb (matches fallback) (allowedIps cfg) = true).
    { apply existsb_matches. exists fallback. auto. }
    destruct (allowedIps cfg) as [|allowedIp whitelist]; [contradiction|].
    now rewrite Hmatch.
Qed.

End WhitelistFacts.

(** ** The further properties on the scenarios *)

Lemma store_path_keeps_spacing_witness :
  let e := Scenario.calmStore in
  let w := Scenario.sameSecondWorld in
  let out := RequestIntervalGuard.checkAndWait e "a1" "claude-official" 1000 0 w in
  RequestIntervalGuard.allowed (out.1) = true /\
  exists now,
    RequestIntervalGuard.MEMORY_CACHE (out.2) !! Scenario.key1 = Some now /\
    RequestIntervalGuard.spaced 0 1000500 now.
Proof.
  intros e w out.
  assert (H1 : RequestIntervalGuard.getClient e = ClientReady) by reflexivity.
  assert (H2 : forall n, RequestIntervalGuard.fault e n = false) by reflexivity.
  assert (H3 : forall n, 0 <= RequestIntervalGuard.lag e n) by (intros n; cbn; lia).
  assert (H4 : 0 <= 0 <= 5000) by lia.
  assert (H5 : RequestIntervalGuard.store w !!
                 RequestIntervalGuard.getRedisKey "a1" "claude-official"
               = Some (toString 1000500, 1000500 + 5 * 1000))
    by (vm_compute; reflexivity).
  assert (H6 : 1000500 <= RequestIntervalGuard.clock w)
    by (vm_compute; discriminate).
  assert (H7 : RequestIntervalGuard.allowed (out.1) = true)
    by (vm_compute; reflexivity).
  split; [exact H7|].
  destruct (store_path_keeps_spacing e "a1" "claude-official" 1000 0 1000500 w
              H1 H2 H3 H4 H5 H6 H7) as (now & _ & Hm & _ & Hs).
  exists now. split; assumption.
Defined.

Lemma store_path_forgets_after_ttl_witness :
  let e := Scenario.calmStore in
  let w := Scenario.fiveSecondsLater in
  let out := RequestIntervalGuard.checkAndWait e "a1" "claude-official" 1000 8000 w in
  1000500 + 5000 <= RequestIntervalGuard.clock w < 1000500 + 8000 /\
  out.1 = {| RequestIntervalGuard.allowed := true;
             RequestIntervalGuard.waitedMs := 0 |}.
Proof.
  intros e w out.
  assert (H1 : RequestIntervalGuard.getClient e = ClientReady) by reflexivity.
  assert (H2 : RequestIntervalGuard.fault e (RequestIntervalGuard.awaits w) = false)
    by reflexivity.
  assert (H3 : RequestIntervalGuard.store w !!
                 RequestIntervalGuard.getRedisKey "a1" "claude-official"
               = Some (toString 1000500, 1000500 + 5 * 1000))
    by (vm_compute; reflexivity).
  assert (H4 : 1000500 + 5000 <= RequestIntervalGuard.clock w < 1000500 + 8000)
    by (vm_compute; split; [discriminate|reflexivity]).
  split; [exact H4|].
  exact (proj1 (store_path_forgets_after_ttl e "a1" "claude-official" 1000 8000
                  1000500 w H1 H2 H3 H4)).
Defined.

Lemma memory_path_keeps_spacing_witness :
  let e := Scenario.noStore in
  let w := Scenario.sameSecondWorld in
  let out := RequestIntervalGuard.checkAndWait e "a1" "claude-official" 1000 500 w in
  RequestIntervalGuard.allowed (out.1) = true /\
  exists now,
    RequestIntervalGuard.MEMORY_CACHE (out.2) !! Scenario.key1 = Some now /\
    RequestIntervalGuard.spaced 500 1000500 now.
Proof.
  intros e w out.
  assert (H1 : RequestIntervalGuard.getClient e = ClientReady ->
               RequestIntervalGuard.fault e (RequestIntervalGuard.awaits w) = true)
    by discriminate.
  assert (H2 : forall n, 0 <= RequestIntervalGuard.lag e n) by (intros n; cbn; lia).
  assert (H3 : 0 <= 500 <= TIMEOUT_MAX) by (unfold TIMEOUT_MAX; lia).
  assert (H4 : RequestIntervalGuard.MEMORY_CACHE w !!
                 RequestIntervalGuard.getRedisKey "a1" "claude-official"
               = Some 1000500) by (vm_compute; reflexivity).
  assert (H5 : 0 < 1000500 <= RequestIntervalGuard.clock w)
    by (vm_compute; split; [reflexivity|discriminate]).
  assert (H6 : RequestIntervalGuard.allowed (out.1) = true)
    by (vm_compute; reflexivity).
  split; [exact H6|].
  destruct (memory_path_keeps_spacing e "a1" "claude-official" 1000 500 1000500 w
              H1 H2 H3 H4 H5 H6) as (now & Hm & _ & Hs).
  exists now. split; assumption.
Defined.

Lemma cleanup_invisible_to_pacing_witness :
  let e := Scenario.noStore in
  let w := Scenario.staleWorld in
  RequestIntervalGuard.MEMORY_CACHE w !! Scenario.key1 = Some 1000500 /\
  RequestIntervalGuard.MEMORY_CACHE (RequestIntervalGuard.cleanupMemoryCache w)
    !! Scenario.key1 = None /\
  In (EvMemGet Scenario.key1)
     (RequestIntervalGuard.trace
        (RequestIntervalGuard.checkAndWait e "a1" "claude-official" 1000 8000
           w).2) /\
  (RequestIntervalGuard.checkAndWait e "a1" "claude-official" 1000 8000
     (RequestIntervalGuard.cleanupMemoryCache w)).1 =
  (RequestIntervalGuard.checkAndWait e "a1" "claude-official" 1000 8000 w).1.
Proof.
  intros e w.
  assert (H1 : 0 <= 8000 <= 10000) by lia.
  assert (H2 : forall n, 0 <= RequestIntervalGuard.lag e n) by (intros n; cbn; lia).
  split; [vm_compute; reflexivity|]. split; [vm_compute; reflexivity|].
  split; [vm_compute; left; reflexivity|].
  destruct (cleanup_invisible_to_pacing e "a1" "claude-official" 1000 8000 w H1 H2)
    as [Hagree Hsame].
  exact (proj1 (Hsame _ Hagree)).
Defined.

Lemma cleanup_forgets_long_intervals_witness :
  let e := Scenario.noStore in
  let w := Scenario.staleWorld in
  RequestIntervalGuard.computedWait e 15000 w Scenario.key1 = 3500 /\
  RequestIntervalGuard.computedWait e 15000
    (RequestIntervalGuard.cleanupMemoryCache w) Scenario.key1 = 0.
Proof.
  intros e w.
  assert (H1 : RequestIntervalGuard.getClient e <> ClientReady) by discriminate.
  assert (H2 : RequestIntervalGuard.MEMORY_CACHE w !!
                 RequestIntervalGuard.getRedisKey "a1" "claude-official"
               = Some 1000500) by (vm_compute; reflexivity).
  assert (H3 : 1000500 <> 0) by discriminate.
  assert (H4 : 10000 < RequestIntervalGuard.clock w - 1000500 < 15000)
    by (vm_compute; split; reflexivity).
  destruct (cleanup_forgets_long_intervals e "a1" "claude-official" 1000 15000
              1000500 w H1 H2 H3 H4) as (Hbefore & Hafter & _).
  split; [exact Hbefore|exact Hafter].
Defined.

Lemma legacy_guard_separates_seconds_witness :
  let e := Scenario.calmStore in
  let w := Scenario.legacyWorld in
  let out := SameSecondGuard.checkAndWait e "a1" "claude-official" 1000 w in
  RequestIntervalGuard.allowed (out.1) = true /\
  exists now,
    RequestIntervalGuard.MEMORY_CACHE (out.2) !! Scenario.legacyKey = Some now /\
    1000 < now.
Proof.
  intros e w out.
  assert (H1 : RequestIntervalGuard.getClient e = ClientReady) by reflexivity.
  assert (H2 : forall n, RequestIntervalGuard.fault e n = false) by reflexivity.
  assert (H3 : forall n, 0 <= RequestIntervalGuard.lag e n) by (intros n; cbn; lia).
  assert (H4 : RequestIntervalGuard.store w !!
                 SameSecondGuard.getRedisKey "a1" "claude-official"
               = Some (toString 1000, 1002500)) by (vm_compute; reflexivity).
  assert (H5 : 0 <= 1000) by lia.
  assert (H6 : 1000 * 1000 <= RequestIntervalGuard.clock w)
    by (vm_compute; discriminate).
  assert (H7 : 1000 * 1000 + 2000 <= 1002500) by lia.
  assert (H8 : RequestIntervalGuard.allowed (out.1) = true)
    by (vm_compute; reflexivity).
  split; [exact H8|].
  destruct (legacy_guard_separates_seconds e "a1" "claude-official" 1000 1000
              1002500 w H1 H2 H3 H4 H5 H6 H7 H8)
    as (now & expiry' & _ & Hm & Hlt & _).
  exists now. split; assumption.
Defined.

Lemma breaker_cooldown_round_trip_witness :
  let e := Scenario.healthyStore in
  let w := Scenario.twoAccounts in
  let opening := Breaker.openCircuitBreaker e "A" Scenario.breakerConfig w in
  opening.1 = true /\
  Registry.accountField (Breaker.reg (opening.2)) "A" "error403BreakerOpenUntil"
    = Some (toString (Breaker.clock w + 30 * 60 * 1000)) /\
  Breaker.recovered
    (Breaker.checkAndRecoverBreaker e "A"
       (Breaker.atInstant (Breaker.clock w + 30 * 60 * 1000) (opening.2))).1 = true.
Proof.
  intros e w opening.
  assert (H1 : forall n op, Breaker.fault e n op = false) by reflexivity.
  assert (H2 : Registry.accountRecord (Breaker.reg w) "A"
               = Some {[ "name" := "first" ]}) by (vm_compute; reflexivity).
  assert (H3 : Breaker.breakerDurationMinutes Scenario.breakerConfig = Num 30)
    by reflexivity.
  assert (H4 : 0 <= Breaker.clock w <= 8640000000000000)
    by (vm_compute; split; discriminate).
  assert (H5 : isSafeInteger (30 * 60 * 1000) = true) by reflexivity.
  assert (H6 : isSafeInteger (Breaker.clock w + 30 * 60 * 1000) = true)
    by reflexivity.
  assert (H7 : 0 <= Breaker.clock w + 30 * 60 * 1000 <= 8640000000000000)
    by (vm_compute; split; discriminate).
  destruct (breaker_cooldown_round_trip e H1 "A" Scenario.breakerConfig 30
              {[ "name" := "first" ]} w H2 H3 H4 H5 H6)
    as (Hanswer & _ & _ & Huntil & Hcheck).
  fold opening in Hanswer, Huntil, Hcheck.
  split; [rewrite Hanswer; reflexivity|].
  split; [exact Huntil|].
  specialize (Hcheck (Breaker.clock w + 30 * 60 * 1000) H7).
  cbv zeta in Hcheck. rewrite Z.leb_refl in Hcheck.
  destruct Hcheck as [Hres _]. now rewrite Hres.
Defined.

Lemma unparsable_duration_never_recovers_witness :
  let e := Scenario.healthyStore in
  let w := Scenario.badOverrides in
  let resolved := Breaker.getAccountConfig e "C" w in
  let opening := Breaker.openCircuitBreaker e "C" (resolved.1) (resolved.2) in
  parseInt "soon" = NaN /\
  opening.1 = false /\
  Registry.accountField (Breaker.reg (opening.2)) "C" "error403BreakerOpenUntil"
    = Some "NaN" /\
  Breaker.recovered
    (Breaker.checkAndRecoverBreaker e "C"
       (Breaker.atInstant 1800000000000 (opening.2))).1 = false.
Proof.
  intros e w resolved opening.
  assert (H1 : forall n op, Breaker.fault e n op = false) by reflexivity.
  assert (H2 : Registry.accountRecord (Breaker.reg w) "C"
               = Some Scenario.badRecord) by (vm_compute; reflexivity).
  assert (H3 : Scenario.badRecord !! "error403BreakerDurationMinutes"
               = Some "soon") by (vm_compute; reflexivity).
  assert (H4 : parseInt "soon" = NaN) by reflexivity.
  split; [exact H4|].
  destruct (unparsable_duration_never_recovers e H1 "C" "soon" Scenario.badRecord
              w H2 H3 H4) as (_ & Hanswer & _ & Huntil & Hcheck).
  fold resolved in Hanswer, Huntil, Hcheck. fold opening in Hanswer, Huntil, Hcheck.
  split; [exact Hanswer|]. split; [exact Huntil|].
  destruct (Hcheck 1800000000000) as [Hres _]. now rewrite Hres.
Defined.


Lemma recovery_happens_once_witness :
  let e := Scenario.healthyStore in
  let w := Scenario.cooledDown in
  let first := Breaker.checkAndRecoverBreaker e "A" w in
  Breaker.recovered (first.1) = true /\
  Breaker.recovered
    (Breaker.checkAndRecoverBreaker e "A"
       (Breaker.atInstant 1800000000000 (first.2))).1 = false.
Proof.
  intros e w first.
  assert (H1 : forall n op, Breaker.fault e n op = false) by reflexivity.
  assert (H2 : Registry.accountRecord (Breaker.reg w) "A"
               = Some Scenario.openedRecord) by (vm_compute; reflexivity).
  assert (H3 : Scenario.openedRecord !! "error403BreakerState" = Some "open")
    by (vm_compute; reflexivity).
  assert (H4 : parseInt (Breaker.orElse
                           (Scenario.openedRecord !! "error403BreakerOpenUntil")
                           "0") = Num 1700001920000)
    by (vm_compute; reflexivity).
  assert (H5 : 1700001920000 <= Breaker.clock w) by (vm_compute; discriminate).
  destruct (recovery_happens_once e H1 "A" Scenario.openedRecord 1700001920000 w
              H2 H3 H4 H5) as [Hfirst Hsecond].
  split; [exact Hfirst|].
  destruct (Hsecond 1800000000000) as [Hres _].
  fold first in Hres. now rewrite Hres.
Defined.

Lemma auto_recovery_sweep_witness :
  let e := Scenario.sweep in
  let w := Scenario.cooledDown in
  let out := AutoRecovery._runAutoRecovery e w in
  (forall n op, Breaker.fault (AutoRecovery.breaker e) n op = false) /\
  (forall n, 0 <= AutoRecovery.elapse e n) /\
  Registry.accountRecord (Breaker.reg (out.2)) "A"
  = Some (<["error403BreakerState" := "half_open"]> Scenario.openedRecord).
Proof.
  intros e w out.
  assert (H1 : forall n op, Breaker.fault (AutoRecovery.breaker e) n op = false)
    by reflexivity.
  assert (H2 : forall n, 0 <= AutoRecovery.elapse e n) by (intros n; cbn; lia).
  split; [exact H1|]. split; [exact H2|].
  destruct (auto_recovery_sweep e H1 H2 w) as (_ & _ & Hdue & _).
  apply (Hdue "A" "gemini_account" 1700001920000 Scenario.openedRecord).
  - do 2 apply list_elem_of_further. apply list_elem_of_here.
  - assert (Hscan : AutoRecovery.scanned e "gemini_account" = ["A"])
      by (vm_compute; reflexivity).
    rewrite Hscan. apply list_elem_of_here.
  - vm_compute. reflexivity.
  - vm_compute. reflexivity.
  - vm_compute. reflexivity.
  - vm_compute. discriminate.
Defined.

Lemma acquire_result_shape_witness :
  exists r w',
    RateLimit.acquireRateLimit 3 Scenario.limiterStoreDown "a1" None
      Scenario.limiterWorld = Some (r, w') /\
    RateLimit.r_requestId r = "00000000-0000-4000-8000-000000000000" /\
    RateLimit.r_skipped r = false.
Proof.
  destruct (RateLimit.acquireRateLimit 3 Scenario.limiterStoreDown "a1" None
              Scenario.limiterWorld) as [[r w']|] eqn:Hrun;
    [|vm_compute in Hrun; discriminate Hrun].
  exists r, w'. split; [reflexivity|].
  destruct (acquire_result_shape Scenario.limiterStoreDown 3 "a1" None
              Scenario.limiterWorld r w' Hrun) as (Hid & Hskip & _).
  split; [exact Hid|exact Hskip].
Defined.

Lemma zero_timeout_never_asks_witness :
  let e := Scenario.limiterNoWait in
  let w := Scenario.limiterWorld in
  RateLimit.acquireRateLimit 1 e "a1" None w
  = Some (RateLimit.failed "00000000-0000-4000-8000-000000000000" "queue_timeout",
          (RateLimit.getAccountConfig e "a1" w).2).
Proof.
  intros e w.
  assert (H1 : RateLimit.enabled (RateLimit.getAccountConfig e "a1" w).1 = true)
    by reflexivity.
  assert (H2 : RateLimit.queueTimeoutMs (RateLimit.getAccountConfig e "a1" w).1 <= 0)
    by (vm_compute; discriminate).
  exact (proj1 (zero_timeout_never_asks e 0 "a1" None w H1 H2)).
Defined.

Lemma no_queueing_asks_once_witness :
  let e := Scenario.limiterNoQueue in
  let w := Scenario.limiterWorld in
  exists r w',
    RateLimit.acquireRateLimit 1 e "a1" None w = Some (r, w') /\
    RateLimit.trace w' = [EvAcquire 0] /\
    r = RateLimit.failed "00000000-0000-4000-8000-000000000000"
          "rate_limit_exceeded".
Proof.
  intros e w.
  assert (H1 : RateLimit.enabled (RateLimit.getAccountConfig e "a1" w).1 = true)
    by reflexivity.
  assert (H2 : RateLimit.enableQueueing (RateLimit.getAccountConfig e "a1" w).1
               = false) by reflexivity.
  assert (H3 : 0 < RateLimit.queueTimeoutMs (RateLimit.getAccountConfig e "a1" w).1)
    by (vm_compute; reflexivity).
  destruct (no_queueing_asks_once e 0 "a1" None w H1 H2 H3)
    as (r & w' & Hrun & Htrace & Hreply).
  exists r, w'. split; [exact Hrun|]. split; [exact Htrace|exact Hreply].
Defined.

Lemma account_switch_is_the_string_true_witness :
  let e := Scenario.limiterStoreDown in
  let w := Scenario.limiterSwitched in
  RateLimit.enabled (RateLimit.getConfig e) = true /\
  RateLimit.enabled (RateLimit.getAccountConfig e "a1" w).1 = false /\
  exists w',
    RateLimit.acquireRateLimit 0 e "a1" None w =
      Some ({| RateLimit.r_acquired := true;
               RateLimit.r_requestId := "00000000-0000-4000-8000-000000000000";
               RateLimit.r_error := None; RateLimit.r_waitedMs := None;
               RateLimit.r_skipped := true |}, w').
Proof.
  intros e w.
  assert (H1 : forall n op, RateLimit.fault e n op = false) by reflexivity.
  assert (H2 : Registry.accountRecord (RateLimit.reg w) "a1"
               = Some Scenario.switchedRecord) by (vm_compute; reflexivity).
  assert (H3 : Scenario.switchedRecord !! "rateLimitEnabled" = Some "1")
    by (vm_compute; reflexivity).
  assert (H4 : "1" <> "true") by discriminate.
  destruct (account_switch_is_the_string_true e 0 "a1" None "1"
              Scenario.switchedRecord w H1 H2 H3) as [Henabled Hskip].
  split; [reflexivity|]. split; [exact Henabled|].
  destruct (Hskip H4) as (w' & Hrun & _). exists w'. exact Hrun.
Defined.

Lemma isPrivateIP_dotted_quad_witness :
  IpHelper.isPrivateIP (IpHelper.dotted 172 20 1 9)
  = IpHelper.privateBlock 172 20 /\
  IpHelper.isPrivateIP ("::ffff:" +:+ IpHelper.dotted 172 20 1 9)
  = IpHelper.privateBlock 172 20.
Proof.
  apply isPrivateIP_dotted_quad; lia.
Defined.

Lemma embedded_ipv4_is_never_private_witness :
  IpHelper.includes ":" "fd00::192" = true /\
  IpHelper.isPrivateIP ("fd00::192" +:+ "." +:+ "168.1.1") = false.
Proof.
  split; [reflexivity|].
  apply embedded_ipv4_is_never_private; reflexivity.
Defined.

Lemma private_clients_pass_on_the_fallback_witness :
  let e := Scenario.cacheDown in
  let cfg := Scenario.whitelistConfig in
  let req := Scenario.localRequest in
  IpHelper.isPrivateIP (IpHelper.originalIP req) = true /\
  (IpWhitelist.ipWhitelistMiddleware e cfg req).1 = IpWhitelist.Next.
Proof.
  intros e cfg req.
  assert (H1 : IpHelper.whitelistEnabled cfg = true) by reflexivity.
  assert (H2 : String.eqb (IpHelper.orString (IpHelper.strategy cfg) "auto") "raw"
               = false) by reflexivity.
  assert (H3 : IpHelper.isPrivateIP (IpHelper.originalIP req) = true)
    by (vm_compute; reflexivity).
  assert (H4 : IpHelper.getFallbackIPFromWhitelist cfg = Some "203.0.113.7")
    by (vm_compute; reflexivity).
  assert (H5 : "203.0.113.7" <> EmptyString) by discriminate.
  split; [exact H3|].
  apply (proj2 (private_clients_pass_on_the_fallback e cfg req "203.0.113.7"
                  H1 H2 H3) H4 H5).
  left. reflexivity.
Defined.
